(** * MusicBrain: a shallow embedding of the composition engine of SenseAudio

    The engine lives in [src/js/MusicBrain.js] (class [MusicBrain]); the
    structure wizard that assigns chords to bars is the click handler of
    [applyStructureBtn] in the application script.

    Modelling conventions.
    - JS numbers used as integers (MIDI notes, indices, steps of a 16-step
      grid) are [Z]; [%] on integers is [Z.rem] (the sign follows the dividend,
      as in JS).  Step positions and durations of the melody engines, which are
      computed with [/], are [Q]: every value they take is a dyadic rational
      that doubles represent exactly.
    - A JS object used as a dictionary is an association list searched with
      [String.eqb].  [lookup] reads own keys only and [a || b] on it is
      [or_else]; [jsGet] also gives the value inherited from
      [Object.prototype] (for a key such as ['constructor']) and [a || b] on
      it is [jsOrElse].  The functions read with [lookup] are modelled for
      keys that are not [Object.prototype] property names.
    - An array read [a[i]] is [js_nth], [None] standing for [undefined].
    - [Math.random()] is a stream [rnd : nat -> Q] consumed in call order; the
      position in the stream is threaded explicitly (state passing).
    - A [TypeError] thrown by reading a property of [undefined] is [None] in
      the result of the function that throws. *)

From Stdlib Require Import ZArith QArith Qround Qfield Qabs Qpower List String Ascii Bool Lia Lqa Sorted.
Import ListNotations.

Open Scope string_scope.
Open Scope Z_scope.

(* ------------------------------------------------------------------------- *)
(** ** JS helpers *)

Fixpoint lookup {A} (k : string) (m : list (string * A)) : option A :=
  match m with
  | [] => None
  | (k', v) :: m' => if String.eqb k k' then Some v else lookup k m'
  end.

(** The property names every object literal inherits from
    [Object.prototype]. *)
Definition objectProtoKeys : list string :=
  [ "constructor"; "__proto__"; "hasOwnProperty"; "isPrototypeOf";
    "propertyIsEnumerable"; "toString"; "toLocaleString"; "valueOf";
    "__defineGetter__"; "__defineSetter__"; "__lookupGetter__"; "__lookupSetter__" ].

Definition isProtoKey (k : string) : bool := existsb (String.eqb k) objectProtoKeys.

(** The value of [obj[k]] on an object literal: an own value, the built-in
    [Object.prototype[k]] (a function, or [Object.prototype] itself for
    [__proto__]; truthy, with no index properties), or [undefined]. *)
Inductive jsProp (A : Type) : Type :=
| Own (v : A)
| Inherited (k : string)
| Undefined.
Arguments Own {A} v.
Arguments Inherited {A} k.
Arguments Undefined {A}.

Definition jsGet {A} (k : string) (m : list (string * A)) : jsProp A :=
  match lookup k m with
  | Some v => Own v
  | None => if isProtoKey k then Inherited k else Undefined
  end.

(** [a || b] on property reads whose own values are objects (truthy). *)
Definition jsOrElse {A} (a b : jsProp A) : jsProp A :=
  match a with Undefined => b | v => v end.

Definition js_or {A} (a : jsProp A) (d : A) : jsProp A := jsOrElse a (Own d).

(** [o || d] where [o] is a property read that is either an object or
    [undefined]. *)
Definition or_else {A} (o : option A) (d : A) : A :=
  match o with Some v => v | None => d end.

(** [a[i]] for an integer index [i]. *)
Definition js_nth {A} (l : list A) (i : Z) : option A :=
  if 0 <=? i then nth_error l (Z.to_nat i) else None.

(** [for (let i = a; i < b; i++)] as the list of the values of [i]. *)
Definition zrange (a b : Z) : list Z :=
  map (fun n => a + Z.of_nat n) (seq 0 (Z.to_nat (b - a))).

(** [arr.includes(x)] / [set.has(x)] on integers. *)
Definition zmem (x : Z) (l : list Z) : bool := existsb (Z.eqb x) l.

(* ------------------------------------------------------------------------- *)
(** ** Theory tables (constructor of [MusicBrain]) *)

Definition scales : list (string * list Z) :=
  [ ("Major",           [0; 2; 4; 5; 7; 9; 11]);
    ("Minor",           [0; 2; 3; 5; 7; 8; 10]);
    ("HarmonicMinor",   [0; 2; 3; 5; 7; 8; 11]);
    ("Dorian",          [0; 2; 3; 5; 7; 9; 10]);
    ("Mixolydian",      [0; 2; 4; 5; 7; 9; 10]);
    ("Blues",           [0; 3; 5; 6; 7; 10]);
    ("PentatonicMajor", [0; 2; 4; 7; 9]);
    ("PentatonicMinor", [0; 3; 5; 7; 10]) ].

Record chord := mkChord { c_name : string; c_type : string; intervals : list Z }.

Definition chordDegrees : list (string * list chord) :=
  [ ("Major",
      [ mkChord "I" "Major" [0; 4; 7]; mkChord "ii" "Minor" [2; 5; 9];
        mkChord "iii" "Minor" [4; 7; 11]; mkChord "IV" "Major" [5; 9; 0];
        mkChord "V" "Major" [7; 11; 2]; mkChord "vi" "Minor" [9; 0; 4];
        mkChord "vii¬∞" "Dim" [11; 2; 5] ]);
    ("Minor",
      [ mkChord "i" "Minor" [0; 3; 7]; mkChord "ii¬∞" "Dim" [2; 5; 8];
        mkChord "III" "Major" [3; 7; 10]; mkChord "iv" "Minor" [5; 8; 0];
        mkChord "v" "Minor" [7; 10; 2]; mkChord "VI" "Major" [8; 0; 3];
        mkChord "VII" "Major" [10; 2; 5] ]);
    ("HarmonicMinor",
      [ mkChord "i" "Minor" [0; 3; 7]; mkChord "ii¬∞" "Dim" [2; 5; 8];
        mkChord "III+" "Aug" [3; 7; 11]; mkChord "iv" "Minor" [5; 8; 0];
        mkChord "V" "Major" [7; 11; 2]; mkChord "VI" "Major" [8; 0; 3];
        mkChord "vii¬∞" "Dim" [11; 2; 5] ]);
    ("Dorian",
      [ mkChord "i" "Minor" [0; 3; 7]; mkChord "ii" "Minor" [2; 5; 9];
        mkChord "III" "Major" [3; 7; 10]; mkChord "IV" "Major" [5; 9; 0];
        mkChord "v" "Minor" [7; 10; 2]; mkChord "vi¬∞" "Dim" [9; 0; 3];
        mkChord "VII" "Major" [10; 2; 5] ]);
    ("Mixolydian",
      [ mkChord "I" "Major" [0; 4; 7]; mkChord "ii" "Minor" [2; 5; 9];
        mkChord "iii¬∞" "Dim" [4; 7; 10]; mkChord "IV" "Major" [5; 9; 0];
        mkChord "v" "Minor" [7; 10; 2]; mkChord "vi" "Minor" [9; 0; 4];
        mkChord "bVII" "Major" [10; 2; 5] ]);
    ("Blues",
      [ mkChord "I7" "Dom7" [0; 4; 7]; mkChord "IV7" "Dom7" [5; 9; 0];
        mkChord "V7" "Dom7" [7; 11; 2]; mkChord "I" "Major" [0; 4; 7];
        mkChord "bVII" "Major" [10; 2; 5] ]);
    ("PentatonicMajor",
      [ mkChord "I" "Major" [0; 4; 7]; mkChord "ii" "Minor" [2; 5; 9];
        mkChord "iii" "Minor" [4; 7; 11]; mkChord "V" "Major" [7; 11; 2];
        mkChord "vi" "Minor" [9; 0; 4] ]);
    ("PentatonicMinor",
      [ mkChord "i" "Minor" [0; 3; 7]; mkChord "III" "Major" [3; 7; 10];
        mkChord "iv" "Minor" [5; 8; 0]; mkChord "v" "Minor" [7; 10; 2];
        mkChord "VII" "Major" [10; 2; 5] ]) ].

(** [vocalRanges]: name -> (min, max). *)
Definition vocalRanges : list (string * (Z * Z)) :=
  [ ("NONE", (0, 127)); ("SOPRANO", (60, 84)); ("MEZZO", (57, 81));
    ("ALTO", (53, 77)); ("TENOR", (48, 72)); ("BARITONE", (41, 64));
    ("BASS", (36, 60)) ].

(* ------------------------------------------------------------------------- *)
(** ** [getScaleNotes] *)

(** [let indices = this.scales[scaleName] || this.scales['Major'];
     for (let i = 0; i < 127; i++) { interval = (i - rootKey + 12) % 12;
       if (indices.includes(interval)) set.add(i); }]
    The Set is the list of its elements in insertion order. *)
Definition getScaleNotes (rootKey : Z) (scaleName : string) : list Z :=
  let indices := or_else (lookup scaleName scales) [0; 2; 4; 5; 7; 9; 11] in
  filter (fun i => zmem (Z.rem (i - rootKey + 12) 12) indices) (zrange 0 127).

(** The offsets a scale name stands for (with the Major fallback). *)
Definition scaleOffsets (scaleName : string) : list Z :=
  or_else (lookup scaleName scales) [0; 2; 4; 5; 7; 9; 11].

(* ------------------------------------------------------------------------- *)
(** ** Song templates and progression styles *)

Record template := mkTemplate
  { t_genre : string; bpm : Z; structure : list (string * Z) }.

Definition songTemplates : list (string * template) :=
  [ ("POP_RADIO", mkTemplate "POP" 120
      [("INTRO", 4); ("VERSE", 8); ("PRE_CHORUS", 4); ("CHORUS", 8);
       ("VERSE", 8); ("PRE_CHORUS", 4); ("CHORUS", 8);
       ("BRIDGE", 8); ("CHORUS", 16); ("OUTRO", 4)]);
    ("POP_SHORT", mkTemplate "POP" 124
      [("INTRO", 4); ("VERSE", 8); ("CHORUS", 8);
       ("VERSE", 8); ("CHORUS", 8); ("OUTRO", 4)]);
    ("POP_EPIC", mkTemplate "POP" 75
      [("INTRO", 4); ("VERSE", 8); ("PRE_CHORUS", 4); ("CHORUS", 8);
       ("VERSE", 8); ("PRE_CHORUS", 4); ("CHORUS", 8);
       ("SOLO", 8); ("BRIDGE", 8); ("CHORUS", 16); ("OUTRO", 8)]);
    ("TRAP", mkTemplate "HIPHOP" 140
      [("INTRO", 4); ("CHORUS", 8); ("VERSE", 16);
       ("CHORUS", 8); ("VERSE", 16); ("CHORUS", 8); ("OUTRO", 4)]);
    ("BOOMBAP", mkTemplate "HIPHOP" 90
      [("INTRO", 4); ("VERSE", 16); ("CHORUS", 4);
       ("VERSE", 16); ("CHORUS", 4); ("VERSE", 16); ("OUTRO", 8)]);
    ("EDM_RADIO", mkTemplate "EDM" 128
      [("INTRO", 8); ("VERSE", 8); ("PRE_CHORUS", 8); ("CHORUS", 8);
       ("VERSE", 8); ("PRE_CHORUS", 8); ("CHORUS", 16); ("OUTRO", 8)]);
    ("EDM_CLUB", mkTemplate "EDM" 128
      [("INTRO", 16); ("VERSE", 16); ("PRE_CHORUS", 8); ("CHORUS", 16);
       ("BRIDGE", 8); ("PRE_CHORUS", 8); ("CHORUS", 16); ("OUTRO", 16)]);
    ("ROCK_CLASSIC", mkTemplate "ROCK" 110
      [("INTRO", 4); ("VERSE", 8); ("CHORUS", 8);
       ("VERSE", 8); ("CHORUS", 8); ("SOLO", 8);
       ("CHORUS", 16); ("OUTRO", 4)]);
    ("PUNK_ROCK", mkTemplate "ROCK" 160
      [("INTRO", 4); ("VERSE", 8); ("CHORUS", 8);
       ("VERSE", 8); ("CHORUS", 8); ("OUTRO", 4)]);
    ("LOFI_BEAT", mkTemplate "LOFI" 80
      [("INTRO", 4); ("VERSE", 16); ("BRIDGE", 4);
       ("VERSE", 16); ("OUTRO", 8)]);
    ("REGGAETON", mkTemplate "LATIN" 95
      [("INTRO", 4); ("CHORUS", 8); ("VERSE", 16);
       ("CHORUS", 8); ("VERSE", 16); ("CHORUS", 8); ("OUTRO", 4)]);
    ("PERSIAN_SLOW_6_8", mkTemplate "PERSIAN" 85
      [("INTRO", 4); ("VERSE", 8); ("PRE_CHORUS", 4); ("CHORUS", 8);
       ("SOLO", 8); ("VERSE", 8); ("CHORUS", 16); ("OUTRO", 8)]);
    ("PERSIAN_POP_NOSTALGIA", mkTemplate "PERSIAN" 105
      [("INTRO", 8); ("VERSE", 8); ("CHORUS", 8); ("VERSE", 8);
       ("CHORUS", 8); ("BRIDGE", 8); ("CHORUS", 16); ("OUTRO", 8)]) ].

Record style := mkStyle
  { st_name : string; preferredScale : string; sections : list (string * list Z) }.

Definition pop_styles : list style :=
  [ mkStyle "The Axis of Awesome" "Major"
      [("INTRO", [0]); ("VERSE", [0; 4]); ("PRE_CHORUS", [5; 3]);
       ("CHORUS", [0; 4; 5; 3]); ("BRIDGE", [3; 4; 3; 4]);
       ("SOLO", [0; 4; 5; 3]); ("OUTRO", [0])];
    mkStyle "Emotional Ballad" "Major"
      [("INTRO", [5; 3]); ("VERSE", [5; 3]); ("PRE_CHORUS", [1; 4]);
       ("CHORUS", [5; 3; 0; 4]); ("BRIDGE", [2; 5; 1; 4]);
       ("SOLO", [5; 3; 0; 4]); ("OUTRO", [3; 0])];
    mkStyle "Doo-Wop / 50s" "Major"
      [("INTRO", [0; 5; 3; 4]); ("VERSE", [0; 5; 3; 4]); ("PRE_CHORUS", [3; 4]);
       ("CHORUS", [0; 5; 3; 4]); ("BRIDGE", [1; 4; 0; 4]);
       ("SOLO", [0; 5; 3; 4]); ("OUTRO", [0; 3; 0])];
    mkStyle "Royal Road (Anime/Epic)" "Major"
      [("INTRO", [3; 4; 2; 5]); ("VERSE", [0; 4; 5; 0]); ("PRE_CHORUS", [3; 4]);
       ("CHORUS", [3; 4; 2; 5]); ("BRIDGE", [1; 4; 3; 4]);
       ("SOLO", [3; 4; 2; 5]); ("OUTRO", [3; 4; 0])];
    mkStyle "Dreamy / Psychedelic" "Major"
      [("INTRO", [0; 3]); ("VERSE", [0; 3]); ("PRE_CHORUS", [1; 4]);
       ("CHORUS", [0; 3; 0; 3]); ("BRIDGE", [5; 2; 3; 4]);
       ("SOLO", [0; 3]); ("OUTRO", [0])];
    mkStyle "80s Synth-Pop Revival" "Major"
      [("INTRO", [5; 5; 3; 3]); ("VERSE", [5; 0; 4; 3]); ("PRE_CHORUS", [1; 4]);
       ("CHORUS", [5; 3; 0; 4]); ("BRIDGE", [3; 4; 3; 4]);
       ("SOLO", [5; 3; 0; 4]); ("OUTRO", [5])];
    mkStyle "Gen-Z Alternative" "Minor"
      [("INTRO", [5]); ("VERSE", [5; 3]); ("PRE_CHORUS", [0; 4]);
       ("CHORUS", [5; 2; 3; 4]); ("BRIDGE", [1; 6; 5]); ("OUTRO", [5])] ].

Definition progressionStyles : list (string * list style) :=
  [ ("POP", pop_styles);
    ("EDM",
      [ mkStyle "Festival Anthem" "Minor"
          [("INTRO", [5]); ("VERSE", [5; 2]); ("PRE_CHORUS", [3; 4]);
           ("CHORUS", [5; 3; 0; 4]); ("DROP", [5; 3; 0; 4]);
           ("BRIDGE", [1; 4]); ("OUTRO", [5; 0])];
        mkStyle "Summer Vibes" "Major"
          [("INTRO", [3; 0]); ("VERSE", [3; 0]); ("PRE_CHORUS", [1; 4]);
           ("CHORUS", [3; 0; 4; 5]); ("DROP", [3; 0; 4; 5]);
           ("BRIDGE", [1; 3; 4]); ("OUTRO", [3; 3; 0])] ]);
    ("HIPHOP",
      [ mkStyle "Dark Trap" "Phrygian"
          [("INTRO", [0; 1]); ("VERSE", [0; 1]); ("PRE_CHORUS", [3; 4]);
           ("CHORUS", [0; 2; 0; 1]); ("BRIDGE", [3; 4]); ("OUTRO", [0])];
        mkStyle "Melodic / Emo Rap" "Minor"
          [("INTRO", [5; 4]); ("VERSE", [5; 4]); ("PRE_CHORUS", [3; 4]);
           ("CHORUS", [3; 4; 5; 5]); ("BRIDGE", [1; 4]); ("OUTRO", [5])] ]);
    ("ROCK",
      [ mkStyle "Arena Rock" "Mixolydian"
          [("INTRO", [0; 6; 3]); ("VERSE", [0; 3]); ("PRE_CHORUS", [5; 4]);
           ("CHORUS", [0; 6; 3; 4]); ("SOLO", [0; 6; 3]);
           ("BRIDGE", [1; 4]); ("OUTRO", [0; 0; 0])];
        mkStyle "Alternative / Grunge" "Minor"
          [("INTRO", [5; 2]); ("VERSE", [5; 2]); ("PRE_CHORUS", [3; 4]);
           ("CHORUS", [5; 0; 4; 4]); ("SOLO", [5; 0; 4]); ("OUTRO", [5])] ]);
    ("LOFI",
      [ mkStyle "Jazz Hop (2-5-1)" "Dorian"
          [("INTRO", [1; 4]); ("VERSE", [1; 4; 0; 5]); ("PRE_CHORUS", [3; 6]);
           ("CHORUS", [1; 4; 0; 0]); ("BRIDGE", [3; 4]);
           ("SOLO", [1; 4; 0]); ("OUTRO", [0])];
        mkStyle "Nostalgic Drift" "Major"
          [("INTRO", [3]); ("VERSE", [3; 2]); ("PRE_CHORUS", [1; 4]);
           ("CHORUS", [3; 2; 1; 4]); ("BRIDGE", [5; 4]); ("OUTRO", [0])] ]);
    ("LATIN",
      [ mkStyle "Despacito Vibe" "Major"
          [("INTRO", [5; 3]); ("VERSE", [5; 3]); ("PRE_CHORUS", [0; 4]);
           ("CHORUS", [5; 3; 0; 4]); ("BRIDGE", [1; 4]);
           ("SOLO", [5; 3; 0; 4]); ("OUTRO", [5])];
        mkStyle "Party Starter" "Minor"
          [("INTRO", [1; 4]); ("VERSE", [1; 4]); ("PRE_CHORUS", [3; 4]);
           ("CHORUS", [1; 4; 5; 5]); ("SOLO", [1; 4; 5]); ("OUTRO", [1])] ]);
    ("PERSIAN",
      [ mkStyle "Ghomayshi Vibe (Andalusian)" "HarmonicMinor"
          [("INTRO", [4; 4; 0; 0]); ("VERSE", [0; 6; 5; 4]);
           ("PRE_CHORUS", [3; 0; 3; 4]); ("CHORUS", [0; 6; 5; 4]);
           ("BRIDGE", [5; 6; 3; 4]); ("SOLO", [0; 6; 5; 4]); ("OUTRO", [4; 0])];
        mkStyle "6/8 Persian Ballad" "HarmonicMinor"
          [("INTRO", [0; 3]); ("VERSE", [0; 3; 4; 0]); ("PRE_CHORUS", [3; 0; 4; 4]);
           ("CHORUS", [2; 5; 3; 4]); ("BRIDGE", [1; 4]); ("OUTRO", [0])] ]) ].

(* ------------------------------------------------------------------------- *)
(** ** Structure wizard *)

(** [generateSongStructure(templateKey)]: run-length decoding of the
    template (fallback [POP_RADIO]). *)
Definition generateSongStructure (templateKey : string) : list string :=
  let pop_radio := or_else (lookup "POP_RADIO" songTemplates) (mkTemplate "" 0 []) in
  let t := or_else (lookup templateKey songTemplates) pop_radio in
  flat_map (fun part => repeat (fst part) (Z.to_nat (snd part))) (structure t).

(** [getStyleByVibe(genreKey, vibeIndex)]: [styles[vibeIndex] || styles[0]];
    [None] is [undefined]. *)
Definition getStyleByVibe (genreKey : string) (vibeIndex : Z) : option style :=
  let styles := or_else (lookup genreKey progressionStyles) pop_styles in
  match js_nth styles vibeIndex with
  | Some s => Some s
  | None => js_nth styles 0
  end.

(** The progression list a bar of section [currentSection] reads in the
    chord loop of the wizard: Solo/Drop read Chorus's list; a missing entry
    falls back to [sections['CHORUS'] || sections['VERSE'] || [0]]. *)
Definition wizardSectionChords (st : style) (currentSection : string) : list Z :=
  let target :=
    if String.eqb currentSection "SOLO" || String.eqb currentSection "DROP"
    then "CHORUS" else currentSection in
  match lookup target (sections st) with
  | Some l => l
  | None =>
      or_else (lookup "CHORUS" (sections st))
        (or_else (lookup "VERSE" (sections st)) [0])
  end.

(** One iteration of the chord loop:
    [const chord = sectionChords[i % sectionChords.length];
     state.barChords.push(chord !== undefined ? chord : 0);] *)
Definition wizardChord (st : style) (barStructure : list string) (i : Z) : Z :=
  let currentSection := or_else (js_nth barStructure i) "" in
  let sc := wizardSectionChords st currentSection in
  or_else (js_nth sc (Z.rem i (Z.of_nat (List.length sc)))) 0.

(** Steps 1-6 of the [applyStructureBtn] click handler.  The result is
    [(state.totalBars, state.barStructure, state.barChords)]; [None] is the
    early [return] on an unknown template; [Some None] is the [TypeError]
    of [selectedStyle.sections] on an empty style list (never the case
    with the library above). *)
Definition applyStructure (templateKey genreKey : string) (vibeIndex : Z)
  : option (option (Z * list string * list Z)) :=
  match lookup templateKey songTemplates with
  | None => None
  | Some _ =>
      let structure := generateSongStructure templateKey in
      let totalBars := Z.of_nat (List.length structure) in
      Some (match getStyleByVibe genreKey vibeIndex with
            | None => None
            | Some st =>
                Some (totalBars, structure,
                      map (wizardChord st structure) (zrange 0 totalBars))
            end)
  end.

(** Total number of bars of a template. *)
Definition templateBars (t : template) : Z :=
  fold_right (fun part acc => Z.max 0 (snd part) + acc) 0 (structure t).

(* ------------------------------------------------------------------------- *)
(** ** [getChordProgression] *)

(** [Math.floor(r * n)] for a draw [r] of [Math.random()]. *)
Definition rand_index (r : Q) (n : nat) : Z := Qfloor (r * inject_Z (Z.of_nat n)).

(** [getChordProgression(genreStyle, section)] with [r] the value drawn by
    [Math.random()]; [Some v] is the returned value and [None] the
    [TypeError] of reading [.sections] of [undefined].  For a genre named
    like an [Object.prototype] property, [styles] is a built-in without index
    properties, so [selectedStyle] is [undefined]. *)
Definition getChordProgression (genreStyle section : string) (r : Q)
  : option (jsProp (list Z)) :=
  match js_or (jsGet genreStyle progressionStyles) pop_styles with
  | Own styles =>
      match js_nth styles (rand_index r (List.length styles)) with
      | None => None
      | Some selectedStyle => Some (js_or (jsGet section (sections selectedStyle)) [0; 5; 3; 4])
      end
  | _ => None
  end.

(* ------------------------------------------------------------------------- *)
(** ** Arpeggiator styles and [getArpPattern] *)

(** [{ pattern, rate, gate }]; a [null] step of [pattern] is [None]. *)
Record arpPattern := mkArp { pattern : list (option Z); rate : Z; gate : Q }.

Definition arpStyles : list (string * list (string * arpPattern)) :=
  [ ("POP",
      [ ("VERSE",  mkArp [Some 0; Some 2] 2 (6#10));
        ("CHORUS", mkArp [Some 0; Some 1; Some 2; Some 3; Some 2; Some 1] 1 (9#10));
        ("BRIDGE", mkArp [Some 0; Some 3; Some 1; Some 2] 2 (11#10)) ]);
    ("EDM",
      [ ("VERSE",  mkArp [Some 0; None; Some 0; None] 1 (4#10));
        ("CHORUS", mkArp [Some 0; Some 2; Some 3; Some 2] 1 (8#10));
        ("BUILDUP", mkArp [Some 0; Some 0; Some 0; Some 0; Some 1; Some 1; Some 1; Some 1]
                      1 (5#10)) ]);
    ("ROCK",
      [ ("VERSE",  mkArp [Some 0; Some 1; Some 2; Some 1] 2 (15#10));
        ("CHORUS", mkArp [Some 0; Some 0; Some 1; Some 0; Some 2; Some 0] 1 (7#10));
        ("SOLO",   mkArp [Some 0; Some 1; Some 2; Some 3] 1 (8#10)) ]);
    ("LOFI",
      [ ("VERSE",  mkArp [Some 0; Some 1; Some 2; Some 3] 4 (12#10));
        ("CHORUS", mkArp [Some 0; Some 2; Some 1; Some 3] 2 (10#10));
        ("BRIDGE", mkArp [Some 0; None; Some 1; None] 4 (10#10)) ]);
    ("LATIN",
      [ ("VERSE",  mkArp [Some 0; None; Some 2] 2 (6#10));
        ("CHORUS", mkArp [Some 0; None; Some 1; Some 2; None; Some 1] 1 (7#10)) ]);
    ("HIPHOP",
      [ ("VERSE",  mkArp [Some 0; Some 2] 4 (5#10));
        ("CHORUS", mkArp [Some 0; Some 1; Some 2] 2 (6#10)) ]);
    ("PERSIAN",
      [ ("VERSE",  mkArp [Some 0; Some 1; Some 2; Some 3] 2 (8#10));
        ("CHORUS", mkArp [Some 0; Some 1; Some 2; Some 3; Some 2; Some 1] 2 (9#10)) ]) ].

(** What [getArpPattern] returns: [null], a pattern of the table, the
    built-in [Object.prototype[k]], [undefined], or, when [genreStyles] is
    the built-in [B = Object.prototype[g]], the value of
    [B[k1] || B[k2] || B[k3]] for the listed keys. *)
Inductive arpResult :=
| ArpNull
| ArpPattern (p : arpPattern)
| ArpInherited (k : string)
| ArpUndefined
| ArpOfBuiltin (g : string) (keys : list string).

Definition arpOf (v : jsProp arpPattern) : arpResult :=
  match v with Own p => ArpPattern p | Inherited k => ArpInherited k | Undefined => ArpUndefined end.

(** [getArpPattern(genre, section)]; [None] is the [TypeError] of reading a
    property of an [undefined] [genreStyles] (the POP entry exists, so it
    does not arise). *)
Definition getArpPattern (genre section : string) : option arpResult :=
  let genreStyles := jsOrElse (jsGet genre arpStyles) (jsGet "POP" arpStyles) in
  if String.eqb section "INTRO" || String.eqb section "OUTRO" then Some ArpNull
  else
    let targetSection :=
      if String.eqb section "SOLO" || String.eqb section "DROP" then "CHORUS"
      else if String.eqb section "PRE_CHORUS" then "VERSE"
      else section in
    match genreStyles with
    | Own gs =>
        Some (arpOf (jsOrElse (jsGet targetSection gs)
                       (jsOrElse (jsGet "VERSE" gs) (jsGet "CHORUS" gs))))
    | Inherited g => Some (ArpOfBuiltin g [targetSection; "VERSE"; "CHORUS"])
    | Undefined => None
    end.

(* ------------------------------------------------------------------------- *)
(** ** Drum pattern engine ([getDrumPattern]) *)

Definition KICK := 36.
Definition SNARE := 38.
Definition CHAT := 42.
Definition OHAT := 46.
Definition CRASH := 49.
Definition LO_TOM := 41.
Definition MID_TOM := 45.
Definition HI_TOM := 48.

(** [notesToAdd.push(x)]. *)
Definition push (l : list Z) (x : Z) : list Z := app l [x].

Record drumTable := mkDrums { kick : list Z; snare : list Z; hat : list Z }.

Definition pop_drums : drumTable :=
  mkDrums [1;0;0;0; 0;0;0;0; 1;0;0;0; 0;0;1;0]
          [0;0;0;0; 1;0;0;0; 0;0;0;0; 1;0;0;0]
          [1;1;1;1; 1;1;1;1; 1;1;1;1; 1;1;1;1].

Definition drumPatterns : list (string * drumTable) :=
  [ ("ROCK", mkDrums [1;0;0;0; 0;0;1;0; 1;0;0;0; 0;0;1;0]
                     [0;0;0;0; 1;0;0;0; 0;0;0;0; 1;0;0;0]
                     [1;1;1;1; 1;1;1;1; 1;1;1;1; 1;1;1;1]);
    ("POP", pop_drums);
    ("TECHNO", mkDrums [1;0;0;0; 1;0;0;0; 1;0;0;0; 1;0;0;0]
                       [0;0;0;0; 1;0;0;0; 0;0;0;0; 1;0;0;0]
                       [0;0;1;0; 0;0;1;0; 0;0;1;0; 0;0;1;0]);
    ("EDM", mkDrums [1;0;0;0; 1;0;0;0; 1;0;0;0; 1;0;0;0]
                    [0;0;0;0; 1;0;0;0; 0;0;0;0; 1;0;0;0]
                    [0;0;1;0; 0;0;1;0; 0;0;1;0; 0;0;1;0]);
    ("HIPHOP", mkDrums [1;0;0;0; 0;0;0;0; 1;0;0;0; 0;0;0;0]
                       [0;0;0;0; 0;0;0;0; 1;0;0;0; 0;0;0;0]
                       [1;0;1;0; 1;1;1;0; 1;0;1;0; 1;0;1;1]);
    ("LOFI", mkDrums [1;0;0;0; 0;0;0;0; 0;0;1;0; 0;0;0;0]
                     [0;0;0;0; 1;0;0;0; 0;0;0;0; 1;0;0;0]
                     [1;0;1;0; 1;0;1;0; 1;0;1;0; 1;0;1;0]);
    ("LATIN", mkDrums [1;0;0;0; 1;0;0;0; 1;0;0;0; 1;0;0;0]
                      [0;0;0;1; 0;0;1;0; 0;0;0;1; 0;0;1;0]
                      [1;0;1;0; 1;0;1;0; 1;0;1;0; 1;0;1;0]);
    ("PERSIAN", mkDrums [1;0;0;0; 0;0;1;0; 1;0;0;0; 0;0;0;0]
                        [0;0;0;0; 1;0;0;0; 0;0;0;0; 1;0;0;1]
                        [1;1;1;1; 1;1;1;1; 1;1;1;1; 1;1;1;1]) ].

(** [if (pt.xxx[s])]: the entry is a truthy number. *)
Definition bit (l : list Z) (s : Z) : bool :=
  match js_nth l s with Some v => negb (v =? 0) | None => false end.

(** Truncation toward zero of a rational (as in JS's [%] on numbers). *)
Definition Qtrunc (x : Q) : Z :=
  if Qle_bool 0 x then Qfloor x else - Qfloor (- x)%Q.

(** Section 1 of [getDrumPattern]: the 16-step grid position [s] and whether
    [subStep === 0], for a positive [stepsPerBar]:
    [normalizedStep = Math.floor(stepIndex / (stepsPerBar / 16));
     subStep = stepIndex % (stepsPerBar / 16); s = normalizedStep % 16]. *)
Definition drumGrid (stepIndex stepsPerBar : Z) : Z * bool :=
  let unit := (inject_Z stepsPerBar / inject_Z 16)%Q in
  let q := (inject_Z stepIndex / unit)%Q in
  let normalizedStep := Qfloor q in
  let subStep := (inject_Z stepIndex - unit * inject_Z (Qtrunc q))%Q in
  (Z.rem normalizedStep 16, Qeq_bool subStep 0).

(** Section 3 (transition logic), entered when [isTransition && subStep === 0].
    [Some notes] is a [return notesToAdd]; [None] falls through to section 4
    (with [notesToAdd] still empty). *)
Definition drumTransition (genre currentSection nextSection : string) (s : Z)
  : option (list Z) :=
  if String.eqb currentSection "INTRO" then
    if 14 <=? s then
      let n := [] in
      let n := if s =? 14 then push n SNARE else n in
      let n := if s =? 15 then push n SNARE else n in
      Some n
    else None
  else if String.eqb currentSection "CHORUS" && negb (String.eqb nextSection "CHORUS")
          && negb (String.eqb nextSection "OUTRO") then
    if 12 <=? s then
      let n := [] in
      let n := if s =? 12 then push n HI_TOM else n in
      let n := if s =? 13 then push n MID_TOM else n in
      let n := if s =? 14 then push n LO_TOM else n in
      Some n
    else None
  else if String.eqb nextSection "CHORUS" || String.eqb nextSection "OUTRO" || (8 <=? s) then
    if 8 <=? s then
      if String.eqb genre "ROCK" then
        let n := [] in
        let n := if (s =? 8) || (s =? 9) then push n SNARE else n in
        let n := if (s =? 10) || (s =? 11) then push n MID_TOM else n in
        let n := if (s =? 12) || (s =? 13) then push n LO_TOM else n in
        let n := if s =? 14 then push n KICK else n in
        let n := if s =? 15 then push n SNARE else n in
        Some n
      else if String.eqb genre "POP" then
        let n := [] in
        let n := if (s =? 8) || (s =? 9) then push n SNARE else n in
        let n := if s =? 10 then push n KICK else n in
        let n := if s =? 11 then push n MID_TOM else n in
        let n := if s =? 12 then push n KICK else n in
        let n := if s =? 13 then push n HI_TOM else n in
        let n := if s =? 14 then push (push n SNARE) LO_TOM else n in
        Some n
      else if String.eqb genre "TECHNO" then
        let n := push [] SNARE in
        let n := if Z.rem s 2 =? 0 then push n KICK else n in
        Some n
      else if String.eqb genre "TRAP" then
        let n := [] in
        let n := if s =? 8 then push n SNARE else n in
        let n := if s =? 9 then push n SNARE else n in
        let n := if s =? 10 then push n SNARE else n in
        let n := if s =? 13 then push n KICK else n in
        let n := if s =? 14 then push n SNARE else n in
        let n := if s =? 15 then push n SNARE else n in
        Some n
      else
        (* the nested chain; its condition holds since [s >= 8] *)
        if String.eqb genre "ROCK" || String.eqb genre "PUNK_ROCK" then Some []
        else if String.eqb genre "POP" then Some []
        else if String.eqb genre "TECHNO" || String.eqb genre "EDM" then Some []
        else if String.eqb genre "HIPHOP" || String.eqb genre "TRAP" then
          let n := [] in
          let n := if s =? 8 then push n SNARE else n in
          let n := if s =? 9 then push n SNARE else n in
          let n := if s =? 10 then push n SNARE else n in
          let n := if s =? 13 then push n KICK else n in
          let n := if s =? 14 then push n SNARE else n in
          let n := if s =? 15 then push n SNARE else n in
          Some n
        else
          let n := [] in
          let n := if s =? 14 then push n SNARE else n in
          let n := if s =? 15 then push n SNARE else n in
          Some n
    else None
  else None.

(** Section 4 (base patterns), entered when [subStep === 0]. *)
Definition drumBase (pt : drumTable) (genre currentSection : string) (s stepIndex : Z)
  : list Z :=
  if String.eqb currentSection "PRE_CHORUS" then
    let n := [] in
    let n := if Z.rem s 4 =? 0 then push n KICK else n in
    let n := if Z.rem s 2 =? 0 then push n CHAT else n in
    let n := if (s =? 7) || (s =? 15) then push n SNARE else n in
    n
  else
    let n := [] in
    (* KICK *)
    let n :=
      if String.eqb currentSection "INTRO" then
        if (s =? 0) || (s =? 8) then push n KICK else n
      else if String.eqb currentSection "SOLO" then
        if bit (kick pt) s then push n KICK else n
      else if negb (String.eqb currentSection "BRIDGE") then
        if bit (kick pt) s then push n KICK else n
      else n in
    (* SNARE *)
    let n :=
      if negb (String.eqb currentSection "INTRO") && negb (String.eqb currentSection "OUTRO")
      then if bit (snare pt) s then push n SNARE else n
      else n in
    (* HAT *)
    let n :=
      if String.eqb currentSection "CHORUS" || String.eqb currentSection "SOLO" then
        if negb (String.eqb genre "TECHNO") then
          if Z.rem s 4 =? 2 then push n OHAT else push n CHAT
        else if bit (hat pt) s then push n CHAT else n
      else if bit (hat pt) s then push n CHAT else n in
    (* CRASH *)
    let n :=
      if (String.eqb currentSection "CHORUS" || String.eqb currentSection "SOLO")
         && (stepIndex =? 0)
      then push n CRASH else n in
    n.

(** [getDrumPattern(genre, currentSection, nextSection, stepIndex,
    stepsPerBar, isTransition)]. *)
Definition getDrumPattern (genre currentSection nextSection : string)
  (stepIndex stepsPerBar : Z) (isTransition : bool) : list Z :=
  let '(s, subStep0) := drumGrid stepIndex stepsPerBar in
  let pt := or_else (lookup genre drumPatterns) pop_drums in
  match (if isTransition && subStep0
         then drumTransition genre currentSection nextSection s else None) with
  | Some notes => notes
  | None => if subStep0 then drumBase pt genre currentSection s stepIndex else []
  end.

(** The step loop of the "Generate Drums" action (part_002): for every bar,
    [currentSection = state.barStructure[bar] || 'NONE'], the next section
    ([OUTRO] after the last bar), [isTransition], and one [getDrumPattern]
    call per bar-relative step [s] in [0, stepsPerBar); each returned MIDI
    note is added at [absStep = bar * stepsPerBar + s] (velocities omitted). *)
Definition drumSongHits (genre : string) (barStructure : list string)
  (totalBars stepsPerBar : Z) : list (Z * Z) :=
  flat_map (fun bar =>
    let barStartStep := bar * stepsPerBar in
    let currentSection := or_else (js_nth barStructure bar) "NONE" in
    let nextSection :=
      if bar <? totalBars - 1 then or_else (js_nth barStructure (bar + 1)) "NONE"
      else "OUTRO" in
    let isTransition :=
      negb (String.eqb currentSection nextSection) || (bar =? totalBars - 1) in
    flat_map (fun s =>
      map (fun midi => (barStartStep + s, midi))
          (getDrumPattern genre currentSection nextSection s stepsPerBar isTransition))
      (zrange 0 stepsPerBar))
    (zrange 0 totalBars).

(* ------------------------------------------------------------------------- *)
(** ** Double-precision arithmetic and [analyzeBarHarmony] *)

(** A note object [{ midi, time, duration }]; times and durations are in
    steps and may be fractional ([stepsPerBar / 4] in the Markov engine). *)
Record note := mkNote { midi : Z; time : Q; duration : Q }.

(** [A / B] rounded to the nearest integer, ties to even ([B > 0]). *)
Definition div_round_even (A B : Z) : Z :=
  let q := A / B in
  let r := A mod B in
  if 2 * r <? B then q
  else if B <? 2 * r then q + 1
  else if Z.even q then q else q + 1.

Definition pow2Q (e : Z) : Q := Qpower (2 # 1) e.

(** Rounding of a non-negative rational to the nearest IEEE-754 binary64
    value (53-bit significand, ties to even), in the normal range: the
    exponent [e] is chosen with [2^52 <= x / 2^e < 2^53] and the scaled
    value is rounded to an integer.  Negative inputs round symmetrically. *)
Definition fl (x : Q) : Q :=
  let ax := Qabs x in
  let a := Qnum ax in
  let b := Zpos (Qden ax) in
  if a =? 0 then 0%Q
  else
    let e0 := Z.log2 a - Z.log2 b - 52 in
    let e := if Qle_bool (inject_Z (2 ^ 52)) (ax / pow2Q e0) then e0 else e0 - 1 in
    let X := (ax / pow2Q e)%Q in
    let M := div_round_even (Qnum X) (Zpos (Qden X)) in
    (inject_Z (Z.sgn (Qnum x) * M) * pow2Q e)%Q.

(** JS [Math.round] on a double: [Math.floor(x + 0.5)] (exact on doubles
    in the range used here). *)
Definition js_round (x : Q) : Z := Qfloor (x + (1 # 2)).

(** [matchCount] in [analyzeBarHarmony]. *)
Definition matchCount (barNotes : list note) (allowedPCs : list Z) : Z :=
  fold_left (fun c n => if zmem (Z.rem (midi n) 12) allowedPCs then c + 1 else c)
    barNotes 0.

(** [analyzeBarHarmony(barNotes, chordDefinition, rootKey).score]; an
    absent chord definition is [None]. *)
Definition analyzeBarHarmony (barNotes : list note) (chordDefinition : option chord)
  (rootKey : Z) : Z :=
  match chordDefinition with
  | None => 0
  | Some cd =>
      if Nat.eqb (List.length barNotes) 0 then 100
      else
        let allowedPCs := map (fun interval => Z.rem (rootKey + interval) 12) (intervals cd) in
        let m := matchCount barNotes allowedPCs in
        js_round (fl (fl (inject_Z m / inject_Z (Z.of_nat (List.length barNotes))) * 100))
  end.

(* ------------------------------------------------------------------------- *)
(** ** Melody engines: random stream and error monad *)

(** [x < y] on rationals. *)
Definition Qltb (x y : Q) : bool := negb (Qle_bool y x).

(** JS [x % y] on numbers: the remainder of the truncated quotient. *)
Definition Qrem (x y : Q) : Q := (x - y * inject_Z (Qtrunc (x / y)))%Q.

(** The song state fields read by the melody engines. *)
Record songState := mkState {
  rootKey : Z;
  scaleName : string;
  stepsPerBar : Q;
  totalBars : Z;
  barChords : list Z;
  barStructure : list string;
  vocalRangeType : string }.

(** A rhythm entry: its duration and whether it is a rest
    ([{duration, isRest}] in [generateMelody], [{dur, type}] in the Markov
    engine, with [type === 'REST']). *)
Definition rhythm := list (Q * bool).

Section Melody.

(** The successive values of [Math.random()]: the [k]-th call returns
    [rnd k]. *)
Variable rnd : nat -> Q.

(** Computations that draw random numbers and may throw a [TypeError]
    ([None]); the [nat] counts the draws made so far. *)
Definition M (A : Type) : Type := nat -> option (A * nat).

Definition ret {A} (a : A) : M A := fun k => Some (a, k).

Definition mbind {A B} (m : M A) (f : A -> M B) : M B :=
  fun k => match m k with Some (a, k') => f a k' | None => None end.

Definition throw {A} : M A := fun _ => None.

Definition draw : M Q := fun k => Some (rnd k, S k).

Local Notation "'let*' x ':=' m 'in' f" := (mbind m (fun x => f))
  (at level 200, x name, m at level 100, f at level 200).

(** [pickSmoothNote(params)]: [None] is the [TypeError] raised when
    [chordDef] is undefined; [Some None] is [return null]. *)
Definition proximityScore (absDist : Z) : Z :=
  if absDist =? 0 then -5
  else if absDist <=? 2 then 20
  else if absDist <=? 4 then 10
  else if absDist <=? 5 then 5
  else - (absDist * 2).

Definition harmonyScore (isChordTone isStrongBeat : bool) : Z :=
  if isChordTone then (if isStrongBeat then 15 else 5)
  else (if negb isStrongBeat then 5 else -5).

(** The [candidates.forEach] loop: best note and best score ([None] is
    [-Infinity]), one draw per candidate. *)
Fixpoint pickBest (lastMidi : Z) (allowedPCs : list Z) (isStrongBeat : bool)
  (candidates : list Z) (bestNote : Z) (bestScore : option Q) : M Z :=
  match candidates with
  | [] => ret bestNote
  | note :: rest =>
      let absDist := Z.abs (note - lastMidi) in
      let isChordTone := zmem (Z.rem note 12) allowedPCs in
      let* r := draw in
      let score := (inject_Z (proximityScore absDist + harmonyScore isChordTone isStrongBeat)
                    + r * 8)%Q in
      let better := match bestScore with None => true | Some s => Qltb s score end in
      if better then pickBest lastMidi allowedPCs isStrongBeat rest note (Some score)
      else pickBest lastMidi allowedPCs isStrongBeat rest bestNote bestScore
  end.

Definition pickSmoothNote (lastMidi : Z) (chordDef : option chord) (rootKey : Z)
  (scaleNotes : list Z) (min max : Z) (isStrongBeat isPhraseStart : bool)
  : M (option Z) :=
  match chordDef with
  | None => throw
  | Some cd =>
      let allowedPCs := map (fun i => Z.rem (rootKey + i) 12) (intervals cd) in
      let scaleTones := filter (fun m => zmem m scaleNotes) (zrange min (max + 1)) in
      let chordTones := filter (fun m => zmem (Z.rem m 12) allowedPCs) scaleTones in
      match scaleTones with
      | [] => ret None
      | first :: _ =>
          if isPhraseStart || (lastMidi =? -1) then
            match chordTones with
            | _ :: _ => ret (nth_error chordTones (Nat.div (List.length chordTones) 2))
            | [] => ret (nth_error scaleTones (Nat.div (List.length scaleTones) 2))
            end
          else
            let* best := pickBest lastMidi allowedPCs isStrongBeat scaleTones first None in
            ret (Some best)
      end
  end.

(** [generateMelodicRhythm(complexity)]. *)
Definition melodicMotifs : list (string * list (list Z)) :=
  [ ("LOW", [[4; 4; 8]; [6; 2; 8]; [8; 4; 4]; [4; 4; 4; 4]]);
    ("MEDIUM", [[3; 3; 2; 4; 4]; [4; 2; 2; 8]; [2; 2; 4; 4; 4]; [4; 4; 2; 2; 4]; [6; 2; 6; 2]]);
    ("HIGH", [[2; 2; 2; 2; 4; 4]; [3; 1; 3; 1; 4; 4]; [2; 4; 2; 4; 4]]) ].

Definition generateMelodicRhythm (complexity : string) : M rhythm :=
  let list := or_else (lookup complexity melodicMotifs)
                      (or_else (lookup "MEDIUM" melodicMotifs) []) in
  let* r := draw in
  match js_nth list (rand_index r (List.length list)) with
  | Some base => ret (map (fun d => (inject_Z d, false)) base)
  | None => throw
  end.

(** [variateRhythmSimple(pattern)]. *)
Definition variateRhythmSimple (p : rhythm) : rhythm :=
  match p with
  | (d, isRest) :: rest =>
      if Qle_bool 4 d then let half := (d / 2)%Q in (half, false) :: (half, false) :: rest
      else p
  | [] => []
  end.

(** [getIntroArpeggio()]. *)
Definition getIntroArpeggio : rhythm := [(4, false); (4, true); (4, false); (4, true)]%Q.

Section GenerateMelody.

Variable st : songState.
Variable startBar length : Z.
Variable scaleNotes : list Z.
Variable targetMin targetMax : Z.
Variable mainRhythm : rhythm.

Let spb := stepsPerBar st.

(** The note placement loop of one bar; returns the new [lastMidi] and
    the notes pushed so far. *)
Fixpoint placeNotes (currentBar positionInPhrase : Z) (chordDef : option chord)
  (pat : rhythm) (stepCursor : Q) (lastMidi : Z) (acc : list note)
  : M (Z * list note) :=
  match pat with
  | [] => ret (lastMidi, acc)
  | (d, isRest) :: rest =>
      if Qle_bool spb stepCursor then ret (lastMidi, acc)
      else
        let dur := if Qltb spb (stepCursor + d) then (spb - stepCursor)%Q else d in
        let isStrongBeat := Qeq_bool (Qrem stepCursor 4) 0 in
        let absTime := (inject_Z currentBar * spb + stepCursor)%Q in
        if isRest then
          placeNotes currentBar positionInPhrase chordDef rest (stepCursor + dur)%Q lastMidi acc
        else
          let* generatedMidi :=
            pickSmoothNote lastMidi chordDef (rootKey st) scaleNotes targetMin targetMax
              isStrongBeat (Qeq_bool stepCursor 0 && (positionInPhrase =? 0)) in
          match generatedMidi with
          | Some m =>
              if negb (m =? 0) then
                placeNotes currentBar positionInPhrase chordDef rest (stepCursor + dur)%Q m
                  (app acc [mkNote m absTime dur])
              else
                placeNotes currentBar positionInPhrase chordDef rest (stepCursor + dur)%Q
                  lastMidi acc
          | None =>
              placeNotes currentBar positionInPhrase chordDef rest (stepCursor + dur)%Q
                lastMidi acc
          end
  end.

(** The bar loop [for (let b = 0; b < length; b++)]. *)
Fixpoint melodyBars (bs : list Z) (lastMidi : Z) (acc : list note) : M (list note) :=
  match bs with
  | [] => ret acc
  | b :: bs' =>
      let currentBar := startBar + b in
      if totalBars st <=? currentBar then ret acc
      else
        let currentSection := or_else (js_nth (barStructure st) currentBar) "NONE" in
        let chordIdx := or_else (js_nth (barChords st) currentBar) 0 in
        match lookup (scaleName st) chordDegrees with
        | None => throw
        | Some table =>
            let chordDef := js_nth table chordIdx in
            let positionInPhrase := Z.rem b 4 in
            let* pattern :=
              (if b =? length - 1 then ret [(spb, false)]
               else if positionInPhrase =? 3 then
                 let* r := draw in ret [(8%Q, false); (8%Q, Qltb (1 # 2) r)]
               else if positionInPhrase =? 2 then ret (variateRhythmSimple mainRhythm)
               else ret mainRhythm) in
            let pattern := if String.eqb currentSection "INTRO" then getIntroArpeggio
                           else pattern in
            let* res := placeNotes currentBar positionInPhrase chordDef pattern 0 lastMidi acc in
            melodyBars bs' (fst res) (snd res)
        end
  end.

End GenerateMelody.

(** [generateMelody(startBar, length, complexity, state)] (velocities
    omitted). *)
Definition generateMelody (startBar length : Z) (complexity : string) (st : songState)
  : M (list note) :=
  let scaleNotes := getScaleNotes (rootKey st) (scaleName st) in
  let range := or_else (lookup (vocalRangeType st) vocalRanges) (48, 84) in
  let firstSection := or_else (js_nth (barStructure st) startBar) "NONE" in
  let targetMin := if String.eqb firstSection "VERSE" then fst range
                   else if String.eqb firstSection "CHORUS" then fst range + 4
                   else fst range in
  let targetMax := if String.eqb firstSection "VERSE" then snd range - 4 else snd range in
  let* mainRhythm := generateMelodicRhythm complexity in
  melodyBars st startBar length scaleNotes targetMin targetMax mainRhythm
    (zrange 0 length) (-1) [].

(** [getScaleNotesArr(root, scaleName, minMidi, maxMidi)]. *)
Definition getScaleNotesArr (root : Z) (scaleName : string) (minMidi maxMidi : Z) : list Z :=
  let baseNotes := getScaleNotes root scaleName in
  filter (fun m => zmem m baseNotes) (zrange minMidi (maxMidi + 1)).

(** [generateGoodMotif(complexity, stepsPerBar)]: the two-argument
    definition, which replaces the three-argument one of the same class
    body, so the [vibe] argument of the callers is ignored.  An entry is
    [(dur, false)] for [{ dur, type: 'NOTE' }]. *)
Definition generateGoodMotif (complexity : string) (stepsPerBar : Q) : M rhythm :=
  let beat := (stepsPerBar / 4)%Q in
  let patternsLow :=
    [[beat; beat; beat; beat];
     [beat * (3 # 2); beat * (1 # 2); beat; beat];
     [beat * 2; beat; beat]]%Q in
  let patternsHigh :=
    [[beat / 2; beat / 2; beat; beat / 2; beat / 2; beat];
     [beat * (3 # 4); beat * (1 # 4); beat; beat * (3 # 4); beat * (1 # 4); beat];
     [beat; beat / 2; beat / 2; beat / 2; beat / 2; beat]]%Q in
  let source := if String.eqb complexity "HIGH" then patternsHigh else patternsLow in
  let source := if String.eqb complexity "MEDIUM" then app patternsLow patternsHigh
                else source in
  let* r := draw in
  match js_nth source (rand_index r (List.length source)) with
  | Some rawRhythm => ret (map (fun d => (inject_Z (Z.max 1 (Qfloor d)), false)) rawRhythm)
  | None => throw
  end.

(** [variateMotif(motif)]: the first NOTE of duration at least 4 is split
    into two NOTEs of [Math.floor(dur / 2)]. *)
Fixpoint variateMotif (m : rhythm) : rhythm :=
  match m with
  | [] => []
  | (d, isRest) :: rest =>
      if Qle_bool 4 d && negb isRest then
        let half := inject_Z (Qfloor (d / 2)) in (half, false) :: (half, false) :: rest
      else (d, isRest) :: variateMotif rest
  end.

(** [candidates.sort(...)] by the key [distance], with [100] for distance
    0: a stable insertion sort (JS's [sort] is stable). *)
Definition sortKey (lastMidi n : Z) : Z :=
  let dist := Z.abs (n - lastMidi) in if dist =? 0 then 100 else dist.

Fixpoint insertBy (key : Z -> Z) (x : Z) (l : list Z) : list Z :=
  match l with
  | [] => [x]
  | y :: l' => if key y <=? key x then y :: insertBy key x l' else x :: l
  end.

Definition sortBy (key : Z -> Z) (l : list Z) : list Z :=
  fold_left (fun acc x => insertBy key x acc) l [].

(** A note of the Markov engine: [midi] is [None] when it is [NaN]
    ([Number(undefined)]). *)
Record markovNote := mkMarkovNote { mmidi : option Z; mtime : Q; mduration : Q }.

(** The effective steps per bar: [16] unless [state.stepsPerBar] is truthy. *)
Definition markovSteps (st : songState) : Q :=
  if Qeq_bool (stepsPerBar st) 0 then 16%Q else stepsPerBar st.

(** The pitch selection of one note; [lastMidi] is [None] once it became
    [undefined]. *)
Definition markovPitch (validRangeNotes chordClasses : list Z) (isStrongBeat : bool)
  (lastMidi : option Z) : M (option Z) :=
  match lastMidi with
  | Some (-1) =>
      let midRange := filter (fun n => (60 <=? n) && (n <=? 72)) validRangeNotes in
      let starters := match midRange with [] => validRangeNotes | _ => midRange end in
      let starters :=
        match chordClasses with
        | [] => starters
        | _ => match filter (fun n => zmem (Z.rem n 12) chordClasses) starters with
               | [] => starters
               | cs => cs
               end
        end in
      let* r := draw in
      ret (js_nth starters (rand_index r (List.length starters)))
  | Some last =>
      let neighbors := filter (fun n => Z.abs (n - last) <=? 7) validRangeNotes in
      let candidates :=
        if isStrongBeat && negb (Nat.eqb (List.length chordClasses) 0)
        then filter (fun n => zmem (Z.rem n 12) chordClasses) neighbors else [] in
      let candidates := match candidates with [] => neighbors | _ => candidates end in
      let candidates :=
        match candidates with
        | [] => filter (fun n => Z.abs (n - last) <=? 12) validRangeNotes
        | _ => candidates
        end in
      match candidates with
      | [] => ret (Some last)
      | _ =>
          let candidates := sortBy (sortKey last) candidates in
          let* r := draw in
          let len := Z.of_nat (List.length candidates) in
          let idx := if Qltb (6 # 10) r then 1 else 0 in
          let idx := if Qltb (9 # 10) r then Z.min 2 (len - 1) else idx in
          ret (js_nth candidates (Z.min idx (len - 1)))
      end
  | None => ret None
  end.

Section Markov.

Variable spb : Q.
Variable allScaleNotes : list Z.

(** The pitch selection loop of one bar. *)
Fixpoint markovPlace (absoluteBar : Z) (currentSection : string) (chordClasses : list Z)
  (pat : rhythm) (currentStepInBar : Q) (lastMidi : option Z) (acc : list markovNote)
  : M (option Z * list markovNote) :=
  match pat with
  | [] => ret (lastMidi, acc)
  | (d, isRest) :: rest =>
      if Qle_bool spb currentStepInBar then ret (lastMidi, acc)
      else
        let duration := if Qltb spb (currentStepInBar + d) then (spb - currentStepInBar)%Q
                        else d in
        if isRest then
          markovPlace absoluteBar currentSection chordClasses rest
            (currentStepInBar + duration)%Q lastMidi acc
        else
          let absTime := (inject_Z absoluteBar * spb + currentStepInBar)%Q in
          let isStrongBeat := Qeq_bool (Qrem currentStepInBar (spb / 4)) 0 in
          let validRangeNotes :=
            if String.eqb currentSection "CHORUS" then filter (fun n => 65 <=? n) allScaleNotes
            else allScaleNotes in
          let* targetMidi := markovPitch validRangeNotes chordClasses isStrongBeat lastMidi in
          let* _ := draw in (* the velocity jitter *)
          markovPlace absoluteBar currentSection chordClasses rest
            (currentStepInBar + duration)%Q targetMidi
            (app acc [mkMarkovNote targetMidi absTime duration])
  end.

Variable motifBank : list (string * rhythm).
Variable structure : list string.
Variable chordNotesMap : list (list Z).
Variable startBar : Z.

Fixpoint markovBars (bs : list Z) (lastMidi : option Z) (acc : list markovNote)
  : M (list markovNote) :=
  match bs with
  | [] => ret acc
  | b :: bs' =>
      let absoluteBar := startBar + b in
      let currentSection := or_else (js_nth structure absoluteBar) "VERSE" in
      let baseMotif := or_else (lookup currentSection motifBank)
                               (or_else (lookup "VERSE" motifBank) []) in
      let currentChordNotes := or_else (js_nth chordNotesMap absoluteBar) [] in
      let chordClasses := map (fun n => Z.rem n 12) currentChordNotes in
      let phrasePos := Z.rem b 4 in
      let beat := (spb / 4)%Q in
      let currentPattern :=
        if phrasePos =? 3 then [((beat * 2)%Q, false); ((beat * 2)%Q, true)]
        else if phrasePos =? 2 then variateMotif baseMotif
        else baseMotif in
      let* res := markovPlace absoluteBar currentSection chordClasses currentPattern 0
                    lastMidi acc in
      markovBars bs' (fst res) (snd res)
  end.

End Markov.

(** [generateMelodyMarkov(root, scaleName, chordNotesMap, startBar, numBars,
    complexity, state)] (velocities omitted). *)
Definition generateMelodyMarkov (root : Z) (scaleName : string) (chordNotesMap : list (list Z))
  (startBar numBars : Z) (complexity : string) (st : songState) : M (list markovNote) :=
  let stepsPerBar := markovSteps st in
  let allScaleNotes := getScaleNotesArr root scaleName 55 84 in
  let* intro := generateGoodMotif complexity stepsPerBar in
  let* verse := generateGoodMotif complexity stepsPerBar in
  let* chorus := generateGoodMotif complexity stepsPerBar in
  let* bridge := generateGoodMotif complexity stepsPerBar in
  let* outro := generateGoodMotif complexity stepsPerBar in
  let motifBank := [("INTRO", intro); ("VERSE", verse); ("CHORUS", chorus);
                    ("BRIDGE", bridge); ("OUTRO", outro)] in
  markovBars stepsPerBar allScaleNotes motifBank (barStructure st) chordNotesMap startBar
    (zrange 0 numBars) (Some (-1)) [].

End Melody.

(* ------------------------------------------------------------------------- *)
(** ** Note names, note analysis and chord roots *)

Definition noteNames : list string :=
  ["C"; "C#"; "D"; "D#"; "E"; "F"; "F#"; "G"; "G#"; "A"; "A#"; "B"].

(** The decimal text of an integer, as JS prints a number that is an
    integer ([String(n)], [`${n}`], [s + n]). *)
Definition digitString (d : Z) : string :=
  String (ascii_of_nat (48 + Z.to_nat d)) EmptyString.

Fixpoint natDigits (fuel : nat) (n : Z) : string :=
  match fuel with
  | O => ""
  | S f => if n <? 10 then digitString n else natDigits f (n / 10) ++ digitString (n mod 10)
  end.

Definition js_int_string (z : Z) : string :=
  if z <? 0 then "-" ++ natDigits (S (Z.to_nat (- z))) (- z)
  else natDigits (S (Z.to_nat z)) z.

(** [getNoteName(midi)]: [this.noteNames[midi % 12] + (Math.floor(midi / 12) - 1)].
    When the name is [undefined] the [+] is a numeric addition and gives
    [NaN], which is [None]. *)
Definition getNoteName (midi : Z) : option string :=
  match js_nth noteNames (Z.rem midi 12) with
  | Some nm => Some (nm ++ js_int_string (midi / 12 - 1))
  | None => None
  end.

(** [getNoteLabel(midi)]: [this.noteNames[midi % 12]] ([None] is [undefined]). *)
Definition getNoteLabel (midi : Z) : option string := js_nth noteNames (Z.rem midi 12).

(** [getRealChordName(chordDef, rootKey)]: a template string, in which an
    [undefined] root name prints as ["undefined"]. *)
Definition getRealChordName (chordDef : chord) (rootKey : Z) : string :=
  let rootName :=
    match intervals chordDef with
    | i0 :: _ => or_else (js_nth noteNames (Z.rem (rootKey + i0) 12)) "undefined"
    | [] => "undefined"
    end in
  let suffix :=
    if String.eqb (c_type chordDef) "Minor" then "m"
    else if String.eqb (c_type chordDef) "Dim" then "¬∞"
    else "" in
  rootName ++ suffix.

(** [this.intervals]: interval class -> (score, mood). *)
Definition intervalTable : list (Z * (Z * string)) :=
  [ (0, (100, "Unison")); (7, (95, "Perfect 5th (Stable)"));
    (4, (90, "Major 3rd (Happy)")); (3, (85, "Minor 3rd (Sad)"));
    (5, (70, "Perfect 4th")); (12, (100, "Octave")); (2, (60, "Major 2nd"));
    (9, (80, "Major 6th")); (11, (40, "Maj 7th (Tense)"));
    (6, (20, "Tritone (Dissonant)")); (1, (10, "Min 2nd (Clash)")) ].

Fixpoint zlookup {A} (k : Z) (m : list (Z * A)) : option A :=
  match m with
  | [] => None
  | (k', v) :: m' => if k =? k' then Some v else zlookup k m'
  end.

Record analysis := mkAnalysis { a_score : Z; a_mood : string; a_details : list string }.

(** [analyzeNote(targetMidi, rootKey, scaleSet, lastNoteMidi)]; [None] for
    [lastNoteMidi] is [null].  The running score is [50 + quality.score / 2],
    exact in doubles. *)
Definition analyzeNote (targetMidi rootKey : Z) (scaleSet : list Z) (lastNoteMidi : option Z)
  : analysis :=
  if negb (zmem targetMidi scaleSet) then mkAnalysis 10 "Out of Key" ["Accidental"]
  else
    let '(quality, detail) :=
      match lastNoteMidi with
      | Some last =>
          let interval := Z.rem (Z.abs (targetMidi - last)) 12 in
          let quality := or_else (zlookup interval intervalTable) (50, "Unknown") in
          (quality, "Interval: " ++ snd quality)
      | None =>
          let interval := Z.rem (Z.abs (targetMidi - (60 + rootKey))) 12 in
          let quality := or_else (zlookup interval intervalTable) (50, "Neutral") in
          (quality, "Root Relation: " ++ snd quality)
      end in
    let score := (inject_Z 50 + inject_Z (fst quality) / 2)%Q in
    mkAnalysis (Z.min 100 (js_round score))
               (if Qltb 80 score then "Harmonious" else "Tense")
               ["In Scale"; detail].

(** [getChordRootInScale(scaleRoot, scaleName, chordDegreeIndex)]: [0]
    without a chord definition; [None] is the [NaN] of a chord without
    intervals. *)
Definition getChordRootInScale (scaleRoot : Z) (scaleName : string) (chordDegreeIndex : Z)
  : option Z :=
  match match lookup scaleName chordDegrees with
        | Some table => js_nth table chordDegreeIndex
        | None => None
        end with
  | None => Some 0
  | Some cd =>
      match intervals cd with
      | i0 :: _ => Some (Z.rem (scaleRoot + i0) 12)
      | [] => None
      end
  end.

(** [getNoteRole(midi, chordDef, scaleRoot, currentBarRootIdx)]; a [NaN]
    root ([None]) makes every comparison false. *)
Definition getNoteRole (midi : Z) (chordDef : option chord) (scaleRoot : Z)
  (currentBarRootIdx : option Z) : string :=
  match chordDef with
  | None => "UNKNOWN"
  | Some _ =>
      match currentBarRootIdx with
      | None => "NON_CHORD"
      | Some r =>
          let noteIndex := Z.rem midi 12 in
          let interval := Z.rem (noteIndex - r + 12) 12 in
          if interval =? 0 then "ROOT"
          else if interval =? 7 then "FIFTH"
          else if (interval =? 3) || (interval =? 4) then "THIRD"
          else if (interval =? 10) || (interval =? 11) then "SEVENTH"
          else if (interval =? 2) || (interval =? 5) || (interval =? 9) then "EXTENSION"
          else "NON_CHORD"
      end
  end.

(** The chord-tone highlight of the piano roll (auth-loader, note drawing):
    [chordIdx = barChords[barIndex] || 0], the chord definition of the
    scale, and [role !== 'NON_CHORD'].  [None] is the [TypeError] of an
    unknown scale. *)
Definition noteHighlighted (rootKey : Z) (scaleName : string) (chordIdx midi : Z)
  : option bool :=
  match lookup scaleName chordDegrees with
  | None => None
  | Some table =>
      match js_nth table chordIdx with
      | None => Some false
      | Some cd =>
          let chordRootIdx := getChordRootInScale rootKey scaleName chordIdx in
          Some (negb (String.eqb (getNoteRole midi (Some cd) rootKey chordRootIdx) "NON_CHORD"))
      end
  end.

(** [findClosestNote(target, options)]: [options.reduce] without an initial
    value keeps the earlier note on ties. *)
Definition findClosestNote (target : Z) (options : list Z) : Z :=
  match options with
  | [] => target
  | first :: rest =>
      fold_left (fun prev curr =>
                   if Z.abs (curr - target) <? Z.abs (prev - target) then curr else prev)
                rest first
  end.

(** [getChordName(barIndex)] of the practice HUD (part_002): ["--"] outside
    the song or without a chord, otherwise the root name and a suffix.
    [None] is the [TypeError] of an unknown scale. *)
Definition getChordName (st : songState) (barIndex : Z) : option string :=
  if (barIndex <? 0) || (totalBars st <=? barIndex) then Some "--"
  else
    match js_nth (barChords st) barIndex with
    | None => Some "--"
    | Some chordIdx =>
        match lookup (scaleName st) chordDegrees with
        | None => None
        | Some table =>
            match js_nth table chordIdx with
            | None => Some "--"
            | Some chordDef =>
                let rootName :=
                  match getChordRootInScale (rootKey st) (scaleName st) chordIdx with
                  | Some r => or_else (js_nth noteNames (Z.rem r 12)) "undefined"
                  | None => "undefined"
                  end in
                let suffix :=
                  if String.eqb (c_type chordDef) "Minor" then "m"
                  else if String.eqb (c_type chordDef) "Dim" then "°"
                  else if String.eqb (c_type chordDef) "Aug" then "+"
                  else if String.eqb (c_type chordDef) "Dom7" then "7"
                  else "" in
                Some (rootName ++ suffix)
            end
        end
    end.

(** The chord map of the melody action (part_002): for bar [i],
    [chordIdx = state.barChords[i] || 0], and, when the chord exists,
    [chordMap[i] = chordDef.intervals.map(interval => rootNote + interval + 60)]
    with [rootNote = getChordRootInScale(...)].  Outer [None]: the
    [TypeError] of an unknown scale; [Some None]: no entry for the bar;
    a [None] note is [NaN]. *)
Definition chordMapEntry (st : songState) (i : Z) : option (option (list (option Z))) :=
  let chordIdx := or_else (js_nth (barChords st) i) 0 in
  match lookup (scaleName st) chordDegrees with
  | None => None
  | Some table =>
      match js_nth table chordIdx with
      | None => Some None
      | Some chordDef =>
          let rootNote := getChordRootInScale (rootKey st) (scaleName st) chordIdx in
          Some (Some (map (fun interval => option_map (fun r => r + interval + 60) rootNote)
                          (intervals chordDef)))
      end
  end.

(** The bass pitch of [generateBassForWholeSong] (part_002) for one bar:
    [scaleIndices = brain.scales[state.scaleName];
     interval = scaleIndices[chordIdx % scaleIndices.length];
     midiNote = rootKey + interval + 36].
    Outer [None]: the [TypeError] of an unknown scale; a [None] note is the
    [NaN] of an [undefined] interval. *)
Definition bassNote (rootKey : Z) (scaleName : string) (chordIdx : Z) : option (option Z) :=
  match lookup scaleName scales with
  | None => None
  | Some scaleIndices =>
      let interval := js_nth scaleIndices (Z.rem chordIdx (Z.of_nat (List.length scaleIndices))) in
      Some (option_map (fun iv => rootKey + iv + 36) interval)
  end.

(* ------------------------------------------------------------------------- *)
(** ** Statements read from the spec

    These predicates phrase sentences of the spec over the definitions above;
    they are compared with the code in the properties below. *)

(** Spec: [assignChordsToStructure(expandStructure(template), style)] has one
    entry per bar, entry [b] is [list[b mod list.length]] of the resolved list,
    and every entry is a valid index into the chord table [table_of style]. *)
Definition wizard_spec (table_of : style -> option (list chord)) : Prop :=
  forall templateKey genreKey vibeIndex t,
    lookup templateKey songTemplates = Some t ->
    exists st structure chords,
      getStyleByVibe genreKey vibeIndex = Some st /\
      applyStructure templateKey genreKey vibeIndex
        = Some (Some (templateBars t, structure, chords)) /\
      Z.of_nat (List.length chords) = templateBars t /\
      forall b, 0 <= b < templateBars t ->
        let l := wizardSectionChords st (nth (Z.to_nat b) structure "") in
        nth_error chords (Z.to_nat b)
          = nth_error l (Z.to_nat (b mod Z.of_nat (List.length l))) /\
        exists c tbl cd, nth_error chords (Z.to_nat b) = Some c /\
          table_of st = Some tbl /\ js_nth tbl c = Some cd.

(** The style [getChordProgression] reads for the draw [r]. *)
Definition selectedProgressionStyle (genreStyle : string) (r : Q) : option style :=
  match js_or (jsGet genreStyle progressionStyles) pop_styles with
  | Own styles => js_nth styles (rand_index r (List.length styles))
  | _ => None
  end.

(** Spec: section -> Chorus -> Verse, before any fixed default. *)
Definition chorusVerseChain (st : style) (section : string) : option (list Z) :=
  match lookup section (sections st) with
  | Some l => Some l
  | None =>
      match lookup "CHORUS" (sections st) with
      | Some l => Some l
      | None => lookup "VERSE" (sections st)
      end
  end.

(** Spec: [getChordProgression] never throws and, whenever the chain
    section -> Chorus -> Verse of the chosen style resolves, returns what it
    resolves to (a default only when none of the three exists). *)
Definition chordProgression_spec : Prop :=
  forall genreStyle section (r : Q), (0 <= r)%Q -> (r < 1)%Q ->
    exists st l,
      selectedProgressionStyle genreStyle r = Some st /\
      getChordProgression genreStyle section r = Some (Own l) /\
      (chorusVerseChain st section = Some l \/ chorusVerseChain st section = None).

(** Every list of every progression style is non-empty and holds indices
    in 0..6. *)
Definition style_ok (st : style) : bool :=
  forallb (fun kv => negb (Nat.eqb (List.length (snd kv)) 0) &&
                     forallb (fun c => (0 <=? c) && (c <=? 6)) (snd kv))
          (sections st).

(** A note that starts at [time] and lasts [dur] lies inside bar [bar] of
    [spb] steps. *)
Definition inBar (spb : Q) (bar : Z) (time dur : Q) : Prop :=
  (inject_Z bar * spb <= time)%Q /\ (time + dur <= (inject_Z bar + 1) * spb)%Q.

(** Every duration of a rhythm pattern is positive. *)
Definition posRhythm (pat : rhythm) : Prop := Forall (fun e => (0 < fst e)%Q) pat.

(** A concrete song of eight bars in C major and a fixed [Math.random]
    stream, to run the melody engines on. *)
Definition demoState : songState :=
  mkState 0 "Major" 16 8 [0; 3; 4; 0; 5; 3; 4; 0]
    ["VERSE"; "VERSE"; "VERSE"; "VERSE"; "CHORUS"; "CHORUS"; "CHORUS"; "CHORUS"] "TENOR".

Definition demoRandom (k : nat) : Q := (inject_Z (Z.of_nat (k mod 7)) / 7)%Q.

Definition demoChordNotes : list (list Z) :=
  [[0; 4; 7]; [5; 9; 0]; [7; 11; 2]; [0; 4; 7]; [9; 0; 4]; [5; 9; 0]; [7; 11; 2]; [0; 4; 7]].

(** The two engines run on the demo song, evaluated once. *)
Definition demoMelody : list note * nat :=
  Eval vm_compute in or_else (generateMelody demoRandom 0 8 "LOW" demoState 0%nat) ([], 0%nat).

Definition demoMarkov : list markovNote * nat :=
  Eval vm_compute in
    or_else (generateMelodyMarkov demoRandom 0 "Major" demoChordNotes 0 8 "LOW" demoState 0%nat)
            ([], 0%nat).

(* ------------------------------------------------------------------------- *)
(** ** Invariants and demo data of the further properties *)

(** A melody note in the scale set, inside [[tmin, tmax]] and not 0. *)
Definition pitchOk (scaleNotes : list Z) (tmin tmax : Z) (n : note) : Prop :=
  zmem (midi n) scaleNotes = true /\ tmin <= midi n <= tmax /\ midi n <> 0.

(** The eight drums [getDrumPattern] can return, and a duplicate-free list
    of them. *)
Definition drumKit : list Z := [KICK; SNARE; LO_TOM; CHAT; MID_TOM; OHAT; HI_TOM; CRASH].

Definition kitOk (l : list Z) : Prop := NoDup l /\ incl l drumKit.

(** The summed duration of a rhythm. *)
Definition rhythmTotal (p : rhythm) : Q := fold_right (fun e acc => (fst e + acc)%Q) 0%Q p.

(** The [lastMidi] the Markov engine threads: the initial -1 or a note of
    [allScaleNotes] (a rest keeps the previous value); and a placed note,
    a rest or a note of [allScaleNotes]. *)
Definition lastOk (all : list Z) (last : option Z) : Prop :=
  match last with Some p => p = -1 \/ In p all | None => True end.

Definition pitchIn (all : list Z) (n : markovNote) : Prop :=
  match mmidi n with Some p => In p all | None => True end.

(** A one-bar motif on the demo random stream, evaluated once. *)
Definition demoMotif : rhythm * nat :=
  Eval vm_compute in or_else (generateGoodMotif demoRandom "LOW" (inject_Z (16 * 1)) 0%nat) ([], 0%nat).

(* ------------------------------------------------------------------------- *)
(** ** The editor state ([State], src/unnamed/part_000)

    Only the fields read or written by the note and bar editing methods are
    modelled.  Every note object of a track is created by [addNote],
    [addNoteToTrack] or [pasteBar] (or a generator calling them) and sits in
    one array only, so a note is a value and an in-place update of a note is
    the replacement of that element.  The [relativeTime] key that pasted
    notes keep is read by nothing but [pasteBar] on clipboard notes, which
    [copyBar] builds afresh; it is kept in the clipboard only. *)

Record snote := mkSNote { n_midi : Z; n_time : Q; n_duration : Q; n_velocity : Q }.

(** A track object; its other keys (type, volume, preset, settings) are not
    touched by the methods below. *)
Record track := mkTrack { t_notes : list snote }.

(** [this.clipboard = { notes, chord, structure }]; a clipboard note is the
    copied note with its [relativeTime]. *)
Record clip := mkClip
  { cb_notes : list (snote * Q); cb_chord : option Z; cb_structure : option string }.

Record State := mkStateObj
  { s_tracks : list track;
    s_activeTrackIndex : Z;
    s_stepsPerBar : Q;
    s_totalBars : Z;
    s_barChords : list (option Z);
    s_barStructure : list (option string);
    s_clipboard : option clip }.

(** Functional updates of single fields. *)
Definition set_tracks (s : State) (ts : list track) : State :=
  mkStateObj ts (s_activeTrackIndex s) (s_stepsPerBar s) (s_totalBars s) (s_barChords s)
        (s_barStructure s) (s_clipboard s).

Definition set_clipboard (s : State) (c : option clip) : State :=
  mkStateObj (s_tracks s) (s_activeTrackIndex s) (s_stepsPerBar s) (s_totalBars s) (s_barChords s)
        (s_barStructure s) c.

(** [arr[i]] of an array whose entries may be [undefined] (holes). *)
Definition js_get {A} (l : list (option A)) (i : Z) : option A :=
  match js_nth l i with Some v => v | None => None end.

(** [arr[i] = v] for an integer [i]: a negative [i] sets a property that is
    not an index (the array is unchanged); an [i] past the end extends the
    array with holes. *)
Definition js_set {A} (l : list (option A)) (i : Z) (v : option A) : list (option A) :=
  let len := Z.of_nat (List.length l) in
  if i <? 0 then l
  else if i <? len then app (firstn (Z.to_nat i) l) (v :: skipn (S (Z.to_nat i)) l)
  else app l (app (repeat None (Z.to_nat (i - len))) [v]).

(** The start position of [arr.splice(start, ...)]: a negative start counts
    from the end, and the start is clamped to [[0, length]]. *)
Definition splice_start (len start : Z) : nat :=
  Z.to_nat (if start <? 0 then Z.max (len + start) 0 else Z.min start len).

(** [arr.splice(start, 0, x)]. *)
Definition splice_insert {A} (l : list A) (start : Z) (x : A) : list A :=
  let k := splice_start (Z.of_nat (List.length l)) start in
  app (firstn k l) (x :: skipn k l).

(** [arr.splice(start, 1)]. *)
Definition splice_remove {A} (l : list A) (start : Z) : list A :=
  let k := splice_start (Z.of_nat (List.length l)) start in
  app (firstn k l) (skipn (S k) l).

(** [this.tracks[i] = f(this.tracks[i])] for an existing track [i]. *)
Fixpoint list_update {A} (l : list A) (n : nat) (f : A -> A) : list A :=
  match l, n with
  | [], _ => []
  | x :: r, O => f x :: r
  | x :: r, S n' => x :: list_update r n' f
  end.

Definition update_track (ts : list track) (i : Z) (f : list snote -> list snote) : list track :=
  if 0 <=? i then list_update ts (Z.to_nat i) (fun t => mkTrack (f (t_notes t))) else ts.

(** [get currentTrack()] and [get notes()]: a missing active track gives a
    fresh empty array. *)
Definition currentTrack (s : State) : option track := js_nth (s_tracks s) (s_activeTrackIndex s).

Definition notes (s : State) : list snote :=
  match currentTrack s with Some t => t_notes t | None => [] end.

(** The predicate of [findNoteAt] and [removeNote]:
    [n.midi === midi && time >= n.time && time < n.time + n.duration]. *)
Definition covers (midi : Z) (time : Q) (n : snote) : bool :=
  (n_midi n =? midi) && Qle_bool (n_time n) time && Qltb time (n_time n + n_duration n).

(** [findNoteAt(midi, time)]. *)
Definition findNoteAt (s : State) (midi : Z) (time : Q) : option snote :=
  find (covers midi time) (notes s).

Fixpoint update_first {A} (p : A -> bool) (f : A -> A) (l : list A) : list A :=
  match l with
  | [] => []
  | x :: r => if p x then f x :: r else x :: update_first p f r
  end.

Fixpoint remove_first {A} (p : A -> bool) (l : list A) : list A :=
  match l with
  | [] => []
  | x :: r => if p x then r else x :: remove_first p r
  end.

(** [addNote(midi, time, duration, velocity)]: the new state and the
    returned note.  Without an active track the new note is pushed onto the
    fresh array of [get notes()] and lost. *)
Definition addNote (s : State) (midi : Z) (time duration velocity : Q) : State * snote :=
  match findNoteAt s midi time with
  | Some ex =>
      let ex' := mkSNote (n_midi ex) (n_time ex) duration velocity in
      (set_tracks s (update_track (s_tracks s) (s_activeTrackIndex s)
                       (update_first (covers midi time)
                          (fun n => mkSNote (n_midi n) (n_time n) duration velocity))), ex')
  | None =>
      let newNote := mkSNote midi time duration velocity in
      (set_tracks s (update_track (s_tracks s) (s_activeTrackIndex s)
                       (fun ns => app ns [newNote])), newNote)
  end.

(** [removeNote(midi, time)]: [findIndex] and [splice(index, 1)]. *)
Definition removeNote (s : State) (midi : Z) (time : Q) : State :=
  set_tracks s (update_track (s_tracks s) (s_activeTrackIndex s) (remove_first (covers midi time))).

(** [getNotesInBar(barIndex)]. *)
Definition inBarQ (start steps : Q) (n : snote) : bool :=
  Qle_bool start (n_time n) && Qltb (n_time n) (start + steps).

Definition getNotesInBar (s : State) (barIndex : Z) : list snote :=
  filter (inBarQ (inject_Z barIndex * s_stepsPerBar s) (s_stepsPerBar s)) (notes s).

Definition with_time (n : snote) (t : Q) : snote :=
  mkSNote (n_midi n) t (n_duration n) (n_velocity n).

(** [insertBar(atIndex, templateIndex)]; [templateIndex] is [None] for
    [null]; a [barStructure] entry is truthy when it is a non-empty string. *)
Definition insertBar (s : State) (atIndex : Z) (templateIndex : option Z) : State :=
  let atIndex := if s_totalBars s <? atIndex then s_totalBars s else atIndex in
  let steps := s_stepsPerBar s in
  let insertTime := (inject_Z atIndex * steps)%Q in
  let tracks :=
    map (fun t => mkTrack (map (fun n => if Qle_bool insertTime (n_time n)
                                         then with_time n (n_time n + steps)%Q else n)
                               (t_notes t))) (s_tracks s) in
  let fallback := if 0 <? atIndex then js_get (s_barStructure s) (atIndex - 1) else Some "NONE" in
  let templateStruct :=
    match templateIndex with
    | Some ti =>
        match js_get (s_barStructure s) ti with
        | Some str => if String.eqb str "" then fallback else Some str
        | None => fallback
        end
    | None => fallback
    end in
  mkStateObj tracks (s_activeTrackIndex s) steps (s_totalBars s + 1)
        (splice_insert (s_barChords s) atIndex (Some 0))
        (splice_insert (s_barStructure s) atIndex templateStruct)
        (s_clipboard s).

(** [deleteBar(atIndex)]. *)
Definition deleteBar (s : State) (atIndex : Z) : State :=
  if s_totalBars s <=? 1 then s
  else
    let steps := s_stepsPerBar s in
    let start := (inject_Z atIndex * steps)%Q in
    let tracks :=
      map (fun t =>
             mkTrack (map (fun n => if Qle_bool (start + steps) (n_time n)
                                    then with_time n (n_time n - steps)%Q else n)
                          (filter (fun n => negb (inBarQ start steps n)) (t_notes t))))
          (s_tracks s) in
    mkStateObj tracks (s_activeTrackIndex s) steps (s_totalBars s - 1)
          (splice_remove (s_barChords s) atIndex)
          (splice_remove (s_barStructure s) atIndex)
          (s_clipboard s).

(** [copyBar(barIndex)]; [None] is the [TypeError] of a missing active
    track. *)
Definition copyBar (s : State) (barIndex : Z) : option State :=
  match currentTrack s with
  | None => None
  | Some t =>
      let start := (inject_Z barIndex * s_stepsPerBar s)%Q in
      let ns := filter (inBarQ start (s_stepsPerBar s)) (t_notes t) in
      Some (set_clipboard s
              (Some (mkClip (map (fun n => (n, (n_time n - start)%Q)) ns)
                            (js_get (s_barChords s) barIndex)
                            (js_get (s_barStructure s) barIndex))))
  end.

(** [pasteBar(targetIndex)]. *)
Definition pasteBar (s : State) (targetIndex : Z) : option State :=
  match s_clipboard s with
  | None => Some s
  | Some c =>
      match currentTrack s with
      | None => None
      | Some _ =>
          let steps := s_stepsPerBar s in
          let start := (inject_Z targetIndex * steps)%Q in
          let tracks :=
            update_track (s_tracks s) (s_activeTrackIndex s) (fun ns =>
              app (filter (fun n => Qltb (n_time n) start || Qle_bool (start + steps) (n_time n)) ns)
                  (map (fun e => with_time (fst e) (start + snd e)%Q) (cb_notes c))) in
          Some (mkStateObj tracks (s_activeTrackIndex s) steps (s_totalBars s)
                      (js_set (s_barChords s) targetIndex (cb_chord c))
                      (js_set (s_barStructure s) targetIndex (cb_structure c))
                      (s_clipboard s))
      end
  end.

(** [addNoteToTrack(trackIndex, midi, time, duration, velocity)] (the keys
    copied from the track are left out). *)
Definition addNoteToTrack (s : State) (trackIndex midi : Z) (time duration velocity : Q) : State :=
  match js_nth (s_tracks s) trackIndex with
  | None => s
  | Some _ =>
      set_tracks s (update_track (s_tracks s) trackIndex (fun ns =>
        app (filter (fun n => negb (n_midi n =? midi) || negb (Qeq_bool (n_time n) time)) ns)
            [mkSNote midi time duration velocity]))
  end.

(** Two notes with equal fields, times compared as numbers. *)
Definition sameNote (a b : snote) : Prop :=
  n_midi a = n_midi b /\ (n_time a == n_time b)%Q /\ n_duration a = n_duration b /\
  n_velocity a = n_velocity b.

(** Equality of editor states, note times compared as numbers. *)
Definition sameState (s1 s2 : State) : Prop :=
  Forall2 (fun t1 t2 => Forall2 sameNote (t_notes t1) (t_notes t2)) (s_tracks s1) (s_tracks s2) /\
  s_activeTrackIndex s1 = s_activeTrackIndex s2 /\ s_stepsPerBar s1 = s_stepsPerBar s2 /\
  s_totalBars s1 = s_totalBars s2 /\ s_barChords s1 = s_barChords s2 /\
  s_barStructure s1 = s_barStructure s2 /\ s_clipboard s1 = s_clipboard s2.

(** A JS number that is an integer of magnitude at most [2^50].  Sums and
    differences of a few such numbers stay below [2^53] and are exact in
    doubles, so on them the exact arithmetic of [Q] is the code's
    arithmetic. *)
Definition smallIntQ (x : Q) : bool :=
  ((Qden x =? 1)%positive && (Z.abs (Qnum x) <=? 2 ^ 50))%bool.

(** Every note time of every track is such a number. *)
Definition smallIntTimes (s : State) : bool :=
  forallb (fun t => forallb (fun n => smallIntQ (n_time n)) (t_notes t)) (s_tracks s).

(** A small editor state: two tracks, four bars of 16 steps. *)
Definition demoTrack : track := mkTrack [mkSNote 60 0 4 (8 # 10); mkSNote 64 16 2 1].

Definition demoEditor : State :=
  mkStateObj [demoTrack; mkTrack [mkSNote 36 0 1 1]] 0 16 4
    [Some 0; Some 3; Some 4; Some 0]
    [Some "VERSE"; Some "VERSE"; Some "CHORUS"; Some "CHORUS"] None.


(* ========================================================================= *)
(** * Properties *)

(** ** Scale notes *)

Lemma getScaleNotes_spec_small (rootKey : Z) (scaleName : string) (m : Z) :
  0 <= m <= 126 ->
  In m (getScaleNotes rootKey scaleName) <->
  zmem (Z.rem (m - rootKey + 12) 12) (scaleOffsets scaleName) = true.
Proof.
  intros Hm. unfold getScaleNotes, scaleOffsets.
  rewrite filter_In. split.
  - intros [_ H]; exact H.
  - intros H; split; [|exact H].
    unfold zrange. apply in_map_iff. exists (Z.to_nat m).
    split; [lia|]. apply in_seq. lia.
Qed.

(** ** Generic facts on the JS helpers *)

Lemma lookup_In {A} (k : string) (m : list (string * A)) (v : A) :
  lookup k m = Some v -> In (k, v) m.
Proof.
  induction m as [|[k' v'] m IH]; simpl; [discriminate|].
  destruct (String.eqb_spec k k') as [->|_].
  - intros H; injection H as <-; left; reflexivity.
  - intros H; right; apply IH, H.
Qed.

Lemma js_nth_In {A} (l : list A) (i : Z) (x : A) : js_nth l i = Some x -> In x l.
Proof.
  unfold js_nth. destruct (0 <=? i); [|discriminate]. apply nth_error_In.
Qed.

Lemma js_nth_lt {A} (l : list A) (i : Z) :
  0 <= i < Z.of_nat (List.length l) -> exists x, js_nth l i = Some x.
Proof.
  intros Hi. unfold js_nth. destruct (Z.leb_spec 0 i); [|lia].
  destruct (nth_error l (Z.to_nat i)) as [x|] eqn:E; [eauto|].
  apply nth_error_None in E. lia.
Qed.

Lemma nth_error_zrange (a b : Z) (n : nat) :
  (Z.of_nat n < b - a) -> nth_error (zrange a b) n = Some (a + Z.of_nat n).
Proof.
  intros H. unfold zrange.
  rewrite nth_error_map, nth_error_seq.
  destruct (Nat.ltb_spec n (Z.to_nat (b - a))); [reflexivity|lia].
Qed.

Lemma length_zrange (a b : Z) : List.length (zrange a b) = Z.to_nat (b - a).
Proof. unfold zrange. rewrite length_map, length_seq. reflexivity. Qed.

Lemma rand_index_range (r : Q) (n : nat) :
  (0 <= r)%Q -> (r < 1)%Q -> (0 < n)%nat -> 0 <= rand_index r n < Z.of_nat n.
Proof.
  intros H0 H1 Hn. unfold rand_index.
  set (N := inject_Z (Z.of_nat n)).
  assert (HN : (0 < N)%Q).
  { unfold N. change 0%Q with (inject_Z 0). rewrite <- Zlt_Qlt. lia. }
  assert (Hx0 : (0 <= r * N)%Q)
    by (apply Qmult_le_0_compat; [exact H0 | apply Qlt_le_weak, HN]).
  assert (Hx1 : (r * N < N)%Q).
  { rewrite <- (Qmult_1_l N) at 2. apply Qmult_lt_compat_r; assumption. }
  pose proof (Qfloor_le (r * N)) as Hle.
  pose proof (Qlt_floor (r * N)) as Hlt.
  split.
  - assert (H : (inject_Z (-1) < inject_Z (Qfloor (r * N)))%Q).
    { rewrite inject_Z_plus in Hlt.
      apply Qplus_lt_l with (z := inject_Z 1).
      rewrite <- inject_Z_plus. simpl (-1 + 1)%Z.
      eapply Qle_lt_trans; [exact Hx0|exact Hlt]. }
    rewrite <- Zlt_Qlt in H. lia.
  - rewrite Zlt_Qlt. fold N. eapply Qle_lt_trans; [exact Hle|exact Hx1].
Qed.

(** ** Structure wizard *)

Lemma generateSongStructure_length (templateKey : string) (t : template) :
  lookup templateKey songTemplates = Some t ->
  Z.of_nat (List.length (generateSongStructure templateKey)) = templateBars t.
Proof.
  intros Ht. unfold generateSongStructure. rewrite Ht. simpl.
  unfold templateBars. induction (structure t) as [|[ty len] rest IH]; simpl; [reflexivity|].
  rewrite length_app, repeat_length, Nat2Z.inj_add, IH. simpl. lia.
Qed.

Lemma all_styles_ok :
  forallb (fun kv => forallb style_ok (snd kv)) progressionStyles = true.
Proof. vm_compute. reflexivity. Qed.

Lemma pop_styles_ok : forallb style_ok pop_styles = true.
Proof. vm_compute. reflexivity. Qed.

Lemma genre_styles_ok (genreKey : string) :
  let styles := or_else (lookup genreKey progressionStyles) pop_styles in
  styles <> [] /\ forall st, In st styles -> style_ok st = true.
Proof.
  cbv zeta. destruct (lookup genreKey progressionStyles) as [styles|] eqn:E; cbn [or_else].
  - apply lookup_In in E.
    assert (Hok := all_styles_ok). rewrite forallb_forall in Hok.
    specialize (Hok _ E). simpl in Hok. rewrite forallb_forall in Hok.
    split; [|exact Hok].
    clear Hok. simpl in E.
    repeat (destruct E as [E|E]; [injection E as _ <-; discriminate|]); contradiction.
  - split; [discriminate|]. intros st Hin.
    assert (Hok := pop_styles_ok). rewrite forallb_forall in Hok. apply Hok, Hin.
Qed.

Lemma getStyleByVibe_some (genreKey : string) (vibeIndex : Z) :
  exists st, getStyleByVibe genreKey vibeIndex = Some st /\ style_ok st = true.
Proof.
  destruct (genre_styles_ok genreKey) as [Hne Hok].
  unfold getStyleByVibe.
  set (styles := or_else (lookup genreKey progressionStyles) pop_styles) in *.
  destruct (js_nth styles vibeIndex) as [st|] eqn:E.
  - exists st. split; [reflexivity|]. apply Hok. eapply js_nth_In, E.
  - destruct styles as [|st0 rest]; [contradiction|].
    exists st0. split; [reflexivity|]. apply Hok. left; reflexivity.
Qed.

Lemma wizardSectionChords_ok (st : style) (s : string) :
  style_ok st = true ->
  wizardSectionChords st s <> [] /\
  forall c, In c (wizardSectionChords st s) -> 0 <= c <= 6.
Proof.
  intros Hst. unfold style_ok in Hst. rewrite forallb_forall in Hst.
  assert (Hl : forall k l, lookup k (sections st) = Some l ->
                 l <> [] /\ forall c, In c l -> 0 <= c <= 6).
  { intros k l Hk. apply lookup_In in Hk. specialize (Hst _ Hk). simpl in Hst.
    apply andb_true_iff in Hst as [Hn Hc]. split.
    - destruct l; [discriminate|intros; discriminate].
    - intros c Hc'. rewrite forallb_forall in Hc. specialize (Hc _ Hc').
      apply andb_true_iff in Hc as [Ha Hb]. lia. }
  unfold wizardSectionChords.
  destruct (lookup _ (sections st)) as [l|] eqn:E1; [eapply Hl; eauto|].
  destruct (lookup "CHORUS" (sections st)) as [l|] eqn:E2; [eapply Hl; eauto|].
  destruct (lookup "VERSE" (sections st)) as [l|] eqn:E3; [eapply Hl; eauto|].
  simpl. split; [discriminate|]. intros c [<-|[]]. lia.
Qed.

(** Entry [b] of the wizard's chord array, for a bar inside the song. *)
Lemma wizardChords_nth (st : style) (structure : list string) (b : Z) :
  style_ok st = true -> 0 <= b < Z.of_nat (List.length structure) ->
  let l := wizardSectionChords st (nth (Z.to_nat b) structure "") in
  exists c,
    nth_error (map (wizardChord st structure)
                   (zrange 0 (Z.of_nat (List.length structure)))) (Z.to_nat b) = Some c /\
    nth_error l (Z.to_nat (b mod Z.of_nat (List.length l))) = Some c /\
    0 <= c <= 6.
Proof.
  intros Hst Hb l.
  destruct (wizardSectionChords_ok st (nth (Z.to_nat b) structure "") Hst) as [Hne Hin].
  fold l in Hne, Hin.
  assert (Hlen : 0 < Z.of_nat (List.length l)) by (destruct l; [contradiction|simpl; lia]).
  assert (Hm : 0 <= b mod Z.of_nat (List.length l) < Z.of_nat (List.length l))
    by (apply Z.mod_pos_bound; lia).
  destruct (nth_error l (Z.to_nat (b mod Z.of_nat (List.length l)))) as [c|] eqn:Ec;
    [|apply nth_error_None in Ec; lia].
  exists c. split; [|split; [reflexivity|apply Hin; eapply nth_error_In, Ec]].
  rewrite nth_error_map, nth_error_zrange by lia. simpl.
  unfold wizardChord. rewrite Z2Nat.id by lia.
  assert (Hs : js_nth structure b = Some (nth (Z.to_nat b) structure "")).
  { unfold js_nth. destruct (Z.leb_spec 0 b); [|lia].
    apply nth_error_nth'. lia. }
  rewrite Hs. simpl. fold l.
  rewrite Z.rem_mod_nonneg by lia.
  unfold js_nth. destruct (Z.leb_spec 0 (b mod Z.of_nat (List.length l))); [|lia].
  rewrite Ec. reflexivity.
Qed.

(** ** C2: chord assignment of the structure wizard *)

(** C2 (counterexample).  The claim that every entry the wizard assigns is a
    valid index into the style's chord-degree table fails: the first HIPHOP
    style, "Dark Trap", names the scale "Phrygian", for which there is no
    chord-degree table at all; and if the table meant is the one of the song's
    scale, the POP_RADIO template with the first POP style assigns degree 5 to
    bar 12 (PRE_CHORUS [5; 3]), outside the five-entry Blues table. *)
Lemma C2_wizard_index_counterexample :
  ~ wizard_spec (fun st => lookup (preferredScale st) chordDegrees) /\
  ~ wizard_spec (fun _ => lookup "Blues" chordDegrees).
Proof.
  split; intros H; unfold wizard_spec in H.
  - destruct (H "TRAP" "HIPHOP" 0 _ eq_refl) as (st & s & c & Hs & Ha & _ & Hb).
    vm_compute in Hs. injection Hs as <-.
    destruct (Hb 0) as [_ (x & tbl & cd & _ & Ht & _)]; [split; [lia|vm_compute; reflexivity]|].
    vm_compute in Ht. discriminate.
  - destruct (H "POP_RADIO" "POP" 0 _ eq_refl) as (st & s & c & Hs & Ha & _ & Hb).
    vm_compute in Hs. injection Hs as <-.
    vm_compute in Ha. injection Ha as <- <-.
    destruct (Hb 12) as [_ (x & tbl & cd & Hx & Ht & Hcd)]; [split; [lia|vm_compute; reflexivity]|].
    vm_compute in Hx. injection Hx as <-.
    vm_compute in Ht. injection Ht as <-.
    vm_compute in Hcd. discriminate.
Qed.

(** C2 (amended).  For every template of the library, every genre key and
    every vibe index, the wizard assigns one chord index per bar of the
    template; entry [b] is [list[b mod list.length]] of the list resolved for
    the bar's section (Solo/Drop read Chorus's list; a missing entry falls back
    to Chorus, then Verse, then [0]); every entry lies in 0..6 and so is a
    valid index into every seven-degree chord table. *)
Theorem C2_wizard_chords (templateKey genreKey : string) (vibeIndex : Z) (t : template) :
  lookup templateKey songTemplates = Some t ->
  exists st structure chords,
    getStyleByVibe genreKey vibeIndex = Some st /\
    applyStructure templateKey genreKey vibeIndex
      = Some (Some (templateBars t, structure, chords)) /\
    Z.of_nat (List.length chords) = templateBars t /\
    forall b, 0 <= b < templateBars t ->
      let l := wizardSectionChords st (nth (Z.to_nat b) structure "") in
      exists c,
        nth_error chords (Z.to_nat b) = Some c /\
        nth_error l (Z.to_nat (b mod Z.of_nat (List.length l))) = Some c /\
        0 <= c <= 6 /\
        forall scaleName tbl, lookup scaleName chordDegrees = Some tbl ->
          List.length tbl = 7%nat -> exists cd, js_nth tbl c = Some cd.
Proof.
  intros Ht.
  destruct (getStyleByVibe_some genreKey vibeIndex) as (st & Hst & Hok).
  pose proof (generateSongStructure_length templateKey t Ht) as Hlen.
  set (structure := generateSongStructure templateKey) in *.
  exists st, structure,
    (map (wizardChord st structure) (zrange 0 (Z.of_nat (List.length structure)))).
  split; [exact Hst|]. split.
  { unfold applyStructure. rewrite Ht, Hst. fold structure. rewrite Hlen. reflexivity. }
  split.
  { rewrite length_map, length_zrange, Z.sub_0_r, Nat2Z.id. exact Hlen. }
  intros b Hb l. rewrite <- Hlen in Hb.
  destruct (wizardChords_nth st structure b Hok Hb) as (c & H1 & H2 & H3).
  exists c. split; [exact H1|]. split; [exact H2|]. split; [exact H3|].
  intros sc tbl _ H7. apply js_nth_lt. rewrite H7. simpl. lia.
Qed.

Lemma C2_wizard_chords_witness :
  lookup "TRAP" songTemplates = Some (mkTemplate "HIPHOP" 140
      [("INTRO", 4); ("CHORUS", 8); ("VERSE", 16);
       ("CHORUS", 8); ("VERSE", 16); ("CHORUS", 8); ("OUTRO", 4)]) /\
  exists st structure chords,
    getStyleByVibe "HIPHOP" 0 = Some st /\
    applyStructure "TRAP" "HIPHOP" 0 = Some (Some (64, structure, chords)) /\
    Z.of_nat (List.length chords) = 64 /\
    forall b, 0 <= b < 64 ->
      let l := wizardSectionChords st (nth (Z.to_nat b) structure "") in
      exists c,
        nth_error chords (Z.to_nat b) = Some c /\
        nth_error l (Z.to_nat (b mod Z.of_nat (List.length l))) = Some c /\
        0 <= c <= 6 /\
        forall scaleName tbl, lookup scaleName chordDegrees = Some tbl ->
          List.length tbl = 7%nat -> exists cd, js_nth tbl c = Some cd.
Proof.
  split; [reflexivity|].
  exact (C2_wizard_chords "TRAP" "HIPHOP" 0 _ eq_refl).
Defined.

(** ** C3: getChordProgression *)

Lemma js_or_jsGet_nonproto {A} (k : string) (m : list (string * A)) (d : A) :
  isProtoKey k = false -> js_or (jsGet k m) d = Own (or_else (lookup k m) d).
Proof.
  intros Hp. unfold js_or, jsOrElse, jsGet. rewrite Hp. destruct (lookup k m); reflexivity.
Qed.

Lemma jsGet_nonproto {A} (k : string) (m : list (string * A)) :
  isProtoKey k = false -> jsGet k m = match lookup k m with Some v => Own v | None => Undefined end.
Proof. intros Hp. unfold jsGet. rewrite Hp. reflexivity. Qed.

Lemma isProtoKey_In (k : string) : isProtoKey k = true -> In k objectProtoKeys.
Proof.
  unfold isProtoKey. rewrite existsb_exists. intros [x [Hx Hk]].
  apply String.eqb_eq in Hk. subst. exact Hx.
Qed.

Lemma proto_not_progression_genre (k : string) :
  isProtoKey k = true -> lookup k progressionStyles = None.
Proof.
  intros Hp. apply isProtoKey_In in Hp.
  repeat (destruct Hp as [<- | Hp]; [reflexivity |]). contradiction.
Qed.




(** ** C1: getScaleNotes *)

(** C1 (code defect).  The loop of [getScaleNotes] stops at [i < 127]: MIDI
    127 (pitch class 7, G) is left out of the C Major set although
    [(127 - 0) mod 12 = 7] is a Major offset; below 127 the set is as
    specified. *)
Theorem C1_scaleNotes_drops_127 :
  ~ In 127 (getScaleNotes 0 "Major") /\
  zmem ((127 - 0) mod 12) (scaleOffsets "Major") = true /\
  (forall m, 0 <= m <= 126 ->
     In m (getScaleNotes 0 "Major") <-> zmem ((m - 0) mod 12) (scaleOffsets "Major") = true).
Proof.
  split; [|split; [reflexivity|]].
  - unfold getScaleNotes. rewrite filter_In. intros [H _].
    unfold zrange in H. apply in_map_iff in H as (n & Hn & Hin).
    apply in_seq in Hin. simpl in Hin. lia.
  - intros m Hm. rewrite getScaleNotes_spec_small by exact Hm.
    rewrite Z.rem_mod_nonneg by lia.
    replace ((m - 0 + 12) mod 12) with ((m - 0) mod 12); [reflexivity|].
    rewrite <- Z.add_mod_idemp_r by lia. rewrite Z.mod_same by lia.
    rewrite Z.add_0_r. reflexivity.
Qed.

(** ** C10: getArpPattern *)

Lemma arpStyles_have_verse :
  forallb (fun kv => match lookup "VERSE" (snd kv) with Some _ => true | None => false end)
          arpStyles = true.
Proof. reflexivity. Qed.




(* ------------------------------------------------------------------------- *)
(** ** Drum engine *)

Lemma In_zrange (a b x : Z) : In x (zrange a b) <-> a <= x < b.
Proof.
  unfold zrange. rewrite in_map_iff. split.
  - intros [n [<- Hn]]. apply in_seq in Hn. lia.
  - intros H. exists (Z.to_nat (x - a)). split; [lia|]. apply in_seq. lia.
Qed.

Lemma In_push_last (l : list Z) (x : Z) : In x (push l x).
Proof. unfold push. apply in_or_app. right. left. reflexivity. Qed.

Lemma drumGrid_16 (st : Z) : 0 <= st < 16 -> drumGrid st 16 = (st, true).
Proof.
  intros H.
  assert (Hc : st = 0 \/ st = 1 \/ st = 2 \/ st = 3 \/ st = 4 \/ st = 5 \/ st = 6 \/
               st = 7 \/ st = 8 \/ st = 9 \/ st = 10 \/ st = 11 \/ st = 12 \/
               st = 13 \/ st = 14 \/ st = 15) by lia.
  repeat (destruct Hc as [-> | Hc]; [reflexivity |]). subst. reflexivity.
Qed.

Lemma drumGrid_0 (spb : Z) : drumGrid 0 spb = (0, true).
Proof. destruct spb; reflexivity. Qed.

Lemma drumGrid_s_range (i spb s : Z) (b : bool) :
  drumGrid i spb = (s, b) -> -16 < s < 16.
Proof.
  unfold drumGrid. intros H. injection H as <- _.
  match goal with |- context[Z.rem ?x 16] =>
    pose proof (Z.rem_bound_abs x 16 ltac:(lia)) end.
  lia.
Qed.

Lemma getDrumPattern_grid genre cur next i spb t s b :
  drumGrid i spb = (s, b) ->
  getDrumPattern genre cur next i spb t =
  match (if t && b then drumTransition genre cur next s else None) with
  | Some notes => notes
  | None => if b then drumBase (or_else (lookup genre drumPatterns) pop_drums) genre cur s i
            else []
  end.
Proof. intros H. unfold getDrumPattern. rewrite H. reflexivity. Qed.

Lemma drumTransition_chorus_exit genre next s :
  String.eqb next "CHORUS" = false -> String.eqb next "OUTRO" = false ->
  drumTransition genre "CHORUS" next s =
  if 12 <=? s then
    Some (let n := [] in
          let n := if s =? 12 then push n HI_TOM else n in
          let n := if s =? 13 then push n MID_TOM else n in
          let n := if s =? 14 then push n LO_TOM else n in n)
  else None.
Proof. intros H1 H2. unfold drumTransition. rewrite H1, H2. reflexivity. Qed.

Lemma drumTransition_step0 genre cur next : drumTransition genre cur next 0 = None.
Proof.
  unfold drumTransition.
  repeat match goal with |- context[String.eqb ?a ?b] => destruct (String.eqb a b) end;
  reflexivity.
Qed.

Lemma techno_hat_bit (s : Z) :
  -16 < s < 16 -> bit (hat (or_else (lookup "TECHNO" drumPatterns) pop_drums)) s = (Z.rem s 4 =? 2).
Proof.
  intros H.
  assert (Hall : forallb (fun s => Bool.eqb (bit (hat (or_else (lookup "TECHNO" drumPatterns) pop_drums)) s)
                                            (Z.rem s 4 =? 2)) (zrange (-15) 16) = true)
    by (vm_compute; reflexivity).
  rewrite forallb_forall in Hall. apply Bool.eqb_prop, Hall, In_zrange. lia.
Qed.

(** C4 (counterexample): leaving a POP chorus for a verse, step 8 of the
    transition bar is the steady-state kick + closed hat, not a tom. *)
Lemma C4_chorus_exit_counterexample :
  getDrumPattern "POP" "CHORUS" "VERSE" 8 16 true = [KICK; CHAT] /\
  getDrumPattern "POP" "CHORUS" "VERSE" 8 16 false = [KICK; CHAT].
Proof. split; reflexivity. Qed.

(** C4 (amended): for every genre, with currentSection = CHORUS, a next
    section other than CHORUS/OUTRO, a transition bar and 16 steps per bar,
    steps 8..11 give the steady-state pattern, and steps 12, 13, 14, 15 give
    exactly [HI_TOM], [MID_TOM], [LO_TOM] and nothing. *)
Theorem C4_chorus_exit_fill (genre next : string) :
  next <> "CHORUS" -> next <> "OUTRO" ->
  (forall st, 8 <= st <= 11 ->
     getDrumPattern genre "CHORUS" next st 16 true =
     getDrumPattern genre "CHORUS" next st 16 false) /\
  getDrumPattern genre "CHORUS" next 12 16 true = [HI_TOM] /\
  getDrumPattern genre "CHORUS" next 13 16 true = [MID_TOM] /\
  getDrumPattern genre "CHORUS" next 14 16 true = [LO_TOM] /\
  getDrumPattern genre "CHORUS" next 15 16 true = [].
Proof.
  intros H1 H2. apply String.eqb_neq in H1. apply String.eqb_neq in H2.
  split.
  - intros st Hst.
    rewrite (getDrumPattern_grid _ _ _ _ _ _ st true (drumGrid_16 st ltac:(lia))).
    rewrite (getDrumPattern_grid _ _ _ _ _ _ st true (drumGrid_16 st ltac:(lia))).
    cbn [andb]. rewrite drumTransition_chorus_exit by assumption.
    replace (12 <=? st) with false by (symmetry; apply Z.leb_gt; lia).
    reflexivity.
  - repeat split;
    (erewrite getDrumPattern_grid by (apply drumGrid_16; lia);
     cbn [andb]; rewrite drumTransition_chorus_exit by assumption; reflexivity).
Qed.

Lemma C4_chorus_exit_fill_witness :
  getDrumPattern "POP" "CHORUS" "VERSE" 12 16 true = [HI_TOM] /\
  getDrumPattern "POP" "CHORUS" "VERSE" 9 16 true = getDrumPattern "POP" "CHORUS" "VERSE" 9 16 false.
Proof.
  assert (h1 : "VERSE" <> "CHORUS") by discriminate.
  assert (h2 : "VERSE" <> "OUTRO") by discriminate.
  destruct (C4_chorus_exit_fill "POP" "VERSE" h1 h2) as [H8 [H12 _]].
  split; [exact H12 | apply H8; lia].
Defined.

Ltac drum_cases :=
  repeat match goal with
         | |- context[if ?b then _ else _] => let E := fresh "E" in destruct b eqn:E
         end;
  repeat match goal with
         | H : (_ =? _) = true |- _ => apply Z.eqb_eq in H
         | H : (_ =? _) = false |- _ => apply Z.eqb_neq in H
         end.

Lemma drumSongHits_crash genre bs totalBars spb bar cur :
  0 < spb -> 0 <= bar < totalBars -> js_nth bs bar = Some cur ->
  (cur = "CHORUS" \/ cur = "SOLO") ->
  In (bar * spb, CRASH) (drumSongHits genre bs totalBars spb).
Proof.
  intros Hspb Hbar Hnth Hcur. unfold drumSongHits.
  apply in_flat_map. exists bar. split; [apply In_zrange; lia |].
  rewrite Hnth. cbn [or_else].
  apply in_flat_map. exists 0. split; [apply In_zrange; lia |].
  apply in_map_iff. exists CRASH. split; [f_equal; lia |].
  rewrite (getDrumPattern_grid _ _ _ _ _ _ 0 true (drumGrid_0 spb)).
  rewrite drumTransition_step0.
  match goal with |- context[if ?t && true then None else None] => destruct t end;
  destruct Hcur as [-> | ->]; unfold drumBase; cbn -[push bit]; apply In_push_last.
Qed.




(* ------------------------------------------------------------------------- *)
(** ** Rounding error of [fl] and [analyzeBarHarmony] *)

Lemma div_round_even_err (A B : Z) :
  0 < B -> - B <= 2 * (div_round_even A B * B - A) <= B.
Proof.
  intros HB. unfold div_round_even.
  pose proof (Z.div_mod A B ltac:(lia)). pose proof (Z.mod_pos_bound A B HB).
  remember (A / B) as q. remember (A mod B) as r.
  destruct (2 * r <? B) eqn:E1; [apply Z.ltb_lt in E1; nia | apply Z.ltb_ge in E1].
  destruct (B <? 2 * r) eqn:E2; [apply Z.ltb_lt in E2; nia | apply Z.ltb_ge in E2].
  destruct (Z.even q); nia.
Qed.

Section Rounding.
Local Open Scope Q_scope.

Lemma round_err (X : Q) :
  Qabs (inject_Z (div_round_even (Qnum X) (Zpos (Qden X))) - X) <= 1 # 2.
Proof.
  destruct X as [n d]. cbn [Qnum Qden].
  pose proof (div_round_even_err n (Zpos d) ltac:(lia)) as H.
  remember (div_round_even n (Zpos d)) as M.
  apply Qabs_Qle_condition. unfold Qle, Qminus, Qplus, Qopp; simpl. split; nia.
Qed.

Lemma pow2Q_pos (e : Z) : 0 < pow2Q e.
Proof. apply Qpower_0_lt. reflexivity. Qed.

Lemma pow2Q_plus (p q : Z) : pow2Q (p + q) == pow2Q p * pow2Q q.
Proof. apply Qpower_plus. discriminate. Qed.

Lemma pow2Q_Z (k : Z) : (0 <= k)%Z -> inject_Z (2 ^ k) == pow2Q k.
Proof. intros H. unfold pow2Q. apply Zpower_Qpower. exact H. Qed.

Lemma fl_exp_lower (p b : positive) :
  inject_Z (2 ^ 51) <= (Zpos p # b) / pow2Q (Z.log2 (Zpos p) - Z.log2 (Zpos b) - 52).
Proof.
  pose proof (Z.log2_spec (Zpos p) ltac:(lia)) as Hp.
  pose proof (Z.log2_spec (Zpos b) ltac:(lia)) as Hb.
  pose proof (Z.log2_nonneg (Zpos p)) as Hp0.
  pose proof (Z.log2_nonneg (Zpos b)) as Hb0.
  remember (Z.log2 (Zpos p)) as la. remember (Z.log2 (Zpos b)) as lb.
  apply Qle_shift_div_l; [apply pow2Q_pos |].
  assert (E : inject_Z (2 ^ 51) * pow2Q (la - lb - 52) ==
              inject_Z (2 ^ la) / inject_Z (2 ^ (lb + 1))).
  { rewrite !pow2Q_Z by lia. unfold Qdiv. unfold pow2Q.
    rewrite <- Qpower_opp, <- !Qpower_plus by discriminate.
    replace (51 + (la - lb - 52))%Z with (la + - (lb + 1))%Z by lia. reflexivity. }
  rewrite E. apply Qle_shift_div_r.
  - rewrite <- (Zlt_Qlt 0). lia.
  - unfold Qle, Qmult; cbn [Qnum Qden inject_Z].
    rewrite Pos.mul_1_r, Z.mul_1_r. unfold Z.succ in Hp, Hb. nia.
Qed.

Lemma fl_exp_ok (p b : positive) :
  let x := Zpos p # b in
  let e0 := (Z.log2 (Zpos p) - Z.log2 (Zpos b) - 52)%Z in
  let e := if Qle_bool (inject_Z (2 ^ 52)) (x / pow2Q e0) then e0 else (e0 - 1)%Z in
  inject_Z (2 ^ 52) <= x / pow2Q e.
Proof.
  intros x e0 e. subst e.
  destruct (Qle_bool (inject_Z (2 ^ 52)) (x / pow2Q e0)) eqn:E.
  - apply Qle_bool_iff. exact E.
  - pose proof (fl_exp_lower p b) as L. fold e0 x in L.
    assert (Hd : x / pow2Q (e0 - 1) == 2 * (x / pow2Q e0)).
    { replace (e0 - 1)%Z with (e0 + -1)%Z by lia. rewrite pow2Q_plus.
      pose proof (pow2Q_pos e0). unfold pow2Q at 2. simpl.
      field. intros H0. rewrite H0 in H. discriminate. }
    rewrite Hd. change (inject_Z (2 ^ 51)) with (2251799813685248 # 1) in L.
    change (inject_Z (2 ^ 52)) with (4503599627370496 # 1). lra.
Qed.

(** The relative error of [fl] on non-negative rationals is at most 2^-53. *)
Lemma fl_err (x : Q) :
  0 <= x -> Qabs (fl x - x) <= x * (1 # 9007199254740992).
Proof.
  intros Hx. destruct x as [a b]. destruct a as [| p | p].
  - unfold fl. cbn. unfold Qle; simpl. lia.
  - unfold fl. cbn [Qabs Qnum Qden Z.abs Z.eqb Z.sgn].
    pose proof (fl_exp_ok p b) as Hexp. cbv zeta in Hexp.
    set (e := if Qle_bool _ _ then _ else _) in *.
    set (X := ((Zpos p # b) / pow2Q e)%Q) in *.
    pose proof (round_err X) as Hr.
    set (M := div_round_even (Qnum X) (Zpos (Qden X))) in *.
    pose proof (pow2Q_pos e) as HP.
    assert (Hx' : (Zpos p # b) == X * pow2Q e).
    { unfold X. field. intros H0. rewrite H0 in HP. discriminate. }
    assert (Herr : inject_Z (1 * M) * pow2Q e - (Zpos p # b) == (inject_Z M - X) * pow2Q e).
    { rewrite Hx'. rewrite Z.mul_1_l. ring. }
    rewrite Herr, Qabs_Qmult, (Qabs_pos (pow2Q e)) by lra.
    assert (H1 : Qabs (inject_Z M - X) * pow2Q e <= (1 # 2) * pow2Q e)
      by (apply Qmult_le_compat_r; lra).
    assert (H2 : inject_Z (2 ^ 52) * pow2Q e <= X * pow2Q e)
      by (apply Qmult_le_compat_r; lra).
    change (inject_Z (2 ^ 52)) with (4503599627370496 # 1) in H2.
    rewrite Hx'. lra.
  - unfold Qle in Hx. simpl in Hx. lia.
Qed.

End Rounding.

Lemma matchCount_fold (l : list note) (pcs : list Z) (c : Z) :
  c <= fold_left (fun c n => if zmem (Z.rem (midi n) 12) pcs then c + 1 else c) l c
    <= c + Z.of_nat (List.length l).
Proof.
  revert c. induction l as [| x l IH]; intros c; simpl; [lia |].
  destruct (zmem (Z.rem (midi x) 12) pcs).
  - specialize (IH (c + 1)). lia.
  - specialize (IH c). lia.
Qed.

Lemma Qfloor_unique (q : Q) (k : Z) :
  (inject_Z k <= q)%Q -> (q < inject_Z k + 1)%Q -> Qfloor q = k.
Proof.
  intros H1 H2.
  pose proof (Qfloor_resp_le _ _ H1) as L. rewrite Qfloor_Z in L.
  pose proof (Qfloor_le q) as U.
  assert (U' : (inject_Z (Qfloor q) < inject_Z (k + 1))%Q)
    by (rewrite inject_Z_plus; change (inject_Z 1) with 1%Q; lra).
  rewrite <- Zlt_Qlt in U'. lia.
Qed.

(** C8 (counterexample): 23 of 40 notes in the chord is exactly 57.5 %,
    which rounds to 58, but the double computation [(23 / 40) * 100] gives
    57.49999999999999 and the score is 57. *)
Lemma C8_harmony_rounding_counterexample :
  let notes := app (repeat (mkNote 60 0 1) 23) (repeat (mkNote 61 0 1) 17) in
  let chordI := js_nth (or_else (lookup "Major" chordDegrees) []) 0 in
  analyzeBarHarmony notes chordI 0 = 57 /\
  (inject_Z (23 * 100) / inject_Z 40 == 115 # 2)%Q /\
  (200 * 23 + 40) / (2 * 40) = 58.
Proof. vm_compute. split; [reflexivity | split; reflexivity]. Qed.

(** C8 (amended): an empty bar scores 100; otherwise, with [m] the number of
    notes whose [midi % 12] is in the allowed set and [n] the number of
    notes (below 2^40), the score is the exact percentage [100 m / n]
    rounded half up, i.e. [(200 m + n) / (2 n)], whenever that percentage is
    not a half-integer; at a half-integer the double arithmetic may round it
    down by one. *)
Theorem C8_analyzeBarHarmony_score (barNotes : list note) (cd : chord) (rootKey : Z) :
  let n := Z.of_nat (List.length barNotes) in
  let m := matchCount barNotes
             (map (fun interval => Z.rem (rootKey + interval) 12) (intervals cd)) in
  let score := analyzeBarHarmony barNotes (Some cd) rootKey in
  (n = 0 -> score = 100) /\
  (0 < n <= 2 ^ 40 ->
     0 <= m <= n /\
     ((200 * m + n) mod (2 * n) <> 0 -> score = (200 * m + n) / (2 * n)) /\
     ((200 * m + n) mod (2 * n) = 0 ->
        score = (200 * m + n) / (2 * n) \/ score = (200 * m + n) / (2 * n) - 1)).
Proof.
  intros n m score. split.
  - intros Hn. unfold score, analyzeBarHarmony.
    assert (Hl : List.length barNotes = 0%nat) by (unfold n in Hn; lia).
    rewrite Hl. reflexivity.
  - intros Hn.
    assert (Hm : 0 <= m <= n) by (pose proof (matchCount_fold barNotes
      (map (fun interval => Z.rem (rootKey + interval) 12) (intervals cd)) 0);
      unfold m, n, matchCount; lia).
    split; [exact Hm |].
    assert (Hscore : score = js_round (fl (fl (inject_Z m / inject_Z n) * 100))).
    { unfold score, analyzeBarHarmony.
      destruct (Nat.eqb_spec (List.length barNotes) 0) as [Hl | _];
        [unfold n in Hn; lia | reflexivity]. }
    rewrite Hscore. unfold js_round.
    clearbody m n. clear Hscore score.
    assert (HnQ : (0 < inject_Z n)%Q) by (change 0%Q with (inject_Z 0); rewrite <- Zlt_Qlt; lia).
    set (z := (inject_Z m / inject_Z n)%Q).
    assert (Hz0 : (0 <= z)%Q).
    { apply Qle_shift_div_l; [exact HnQ |]. rewrite Qmult_0_l.
      change 0%Q with (inject_Z 0). rewrite <- Zle_Qle. lia. }
    assert (Hz1 : (z <= 1)%Q).
    { apply Qle_shift_div_r; [exact HnQ |]. rewrite Qmult_1_l.
      rewrite <- Zle_Qle. lia. }
    pose proof (fl_err z Hz0) as E1. apply Qabs_Qle_condition in E1.
    set (y1 := fl z) in *.
    assert (Hy1 : (0 <= y1 * 100)%Q) by lra.
    pose proof (fl_err _ Hy1) as E2. apply Qabs_Qle_condition in E2.
    set (y2 := fl (y1 * 100)) in *.
    set (D := 2 * n). set (N := 200 * m + n).
    pose proof (Z.div_mod N D ltac:(unfold D; lia)) as HN.
    pose proof (Z.mod_pos_bound N D ltac:(unfold D; lia)) as Hr.
    set (k := N / D) in *. set (r := N mod D) in *.
    assert (HDQ : (0 < inject_Z D)%Q) by (rewrite <- (Zlt_Qlt 0); unfold D; lia).
    assert (HD41 : (inject_Z D <= 2199023255552 # 1)%Q).
    { change (2199023255552 # 1)%Q with (inject_Z (2 ^ 41)). rewrite <- Zle_Qle.
      unfold D. lia. }
    assert (Hex : (z * 100 + (1 # 2) == inject_Z k + inject_Z r / inject_Z D)%Q).
    { assert (HNQ : (inject_Z N == inject_Z D * inject_Z k + inject_Z r)%Q)
        by (rewrite HN, inject_Z_plus, inject_Z_mult; reflexivity).
      transitivity (inject_Z N / inject_Z D)%Q.
      - unfold z, N, D. rewrite inject_Z_plus, !inject_Z_mult.
        field. intros H0. rewrite H0 in HnQ. discriminate.
      - rewrite HNQ. field. intros H0. rewrite H0 in HDQ. discriminate. }
    set (t := (inject_Z r / inject_Z D)%Q) in *.
    split.
    + intros Hr0.
      assert (Ht1 : ((1 # 2199023255552) <= t)%Q).
      { apply Qle_shift_div_l; [exact HDQ |].
        assert (H1r : (1 <= inject_Z r)%Q)
          by (change 1%Q with (inject_Z 1); rewrite <- Zle_Qle; lia).
        lra. }
      assert (Ht2 : (t <= 1 - (1 # 2199023255552))%Q).
      { apply Qle_shift_div_r; [exact HDQ |].
        assert (H1r : (inject_Z r + 1 <= inject_Z D)%Q)
          by (change 1%Q with (inject_Z 1); rewrite <- inject_Z_plus, <- Zle_Qle; lia).
        lra. }
      apply Qfloor_unique; lra.
    + intros Hr0. fold r in Hr0.
      assert (Ht : (t == 0)%Q) by (unfold t; rewrite Hr0; reflexivity).
      destruct (Qlt_le_dec (y2 + (1 # 2)) (inject_Z k)) as [Hlt | Hge].
      * right.
        assert (Hk1 : (inject_Z (k - 1) == inject_Z k - 1)%Q)
          by (change (k - 1) with (k + -1); rewrite inject_Z_plus; reflexivity).
        apply Qfloor_unique; rewrite Hk1; lra.
      * left. apply Qfloor_unique; lra.
Qed.

Lemma C8_analyzeBarHarmony_score_witness :
  let notes := [mkNote 60 0 4; mkNote 64 4 4; mkNote 67 8 4; mkNote 61 12 4] in
  let chordI := mkChord "I" "Major" [0; 4; 7] in
  analyzeBarHarmony notes (Some chordI) 0 = (200 * 3 + 4) / (2 * 4).
Proof.
  intros notes chordI.
  destruct (C8_analyzeBarHarmony_score notes chordI 0) as [_ H].
  assert (Hn : 0 < Z.of_nat (List.length notes) <= 2 ^ 40) by (cbn; lia).
  destruct (H Hn) as [_ [H1 _]].
  exact (H1 ltac:(vm_compute; discriminate)).
Defined.

(* ------------------------------------------------------------------------- *)
(** ** Melody engines *)

Lemma mbind_some {A B} (m : M A) (f : A -> M B) (k : nat) (b : B) (k' : nat) :
  mbind m f k = Some (b, k') ->
  exists a k1, m k = Some (a, k1) /\ f a k1 = Some (b, k').
Proof.
  unfold mbind. destruct (m k) as [[a k1] |]; [| discriminate].
  intros H. exists a, k1. split; [reflexivity | exact H].
Qed.




(** C5: a one-bar request on the last (only) bar of a CHORUS song in the
    Blues scale, with chord index 5, meets every condition of the
    phrase-resolution property (the bar is inside [totalBars], is not an
    INTRO, and the adjusted range [52, 72] holds Blues notes), but the
    Blues chord table has five degrees, [chordDegrees.Blues[5]] is
    undefined, and [pickSmoothNote] throws a [TypeError] for every sequence
    of random numbers instead of returning the sustained note. *)
Theorem C5_generateMelody_blues_throws :
  let st := mkState 0 "Blues" 16 1 [5] ["CHORUS"] "TENOR" in
  0 + 1 - 1 < totalBars st /\
  js_nth (barStructure st) 0 = Some "CHORUS" /\
  filter (fun m => zmem m (getScaleNotes 0 "Blues")) (zrange (48 + 4) (72 + 1)) <> [] /\
  option_map (fun t => js_nth t 5) (lookup "Blues" chordDegrees) = Some None /\
  (forall (rnd : nat -> Q) (k : nat), generateMelody rnd 0 1 "LOW" st k = None).
Proof.
  intros st. split; [reflexivity |]. split; [reflexivity |].
  split; [vm_compute; discriminate |]. split; [reflexivity |].
  intros rnd k. unfold generateMelody, mbind.
  destruct (generateMelodicRhythm rnd "LOW" k) as [[mainRhythm k1] |]; reflexivity.
Qed.

Lemma Qltb_iff (x y : Q) : Qltb x y = true <-> (x < y)%Q.
Proof.
  unfold Qltb. rewrite negb_true_iff. split.
  - intros H. apply Qnot_le_lt. intros H'. apply Qle_bool_iff in H'. congruence.
  - intros H. destruct (Qle_bool y x) eqn:E; [| reflexivity].
    apply Qle_bool_iff in E. exfalso. apply (Qlt_not_le _ _ H E).
Qed.

Lemma Qle_bool_false (x y : Q) : Qle_bool x y = false -> (y < x)%Q.
Proof.
  intros H. apply Qnot_le_lt. intros H'. apply Qle_bool_iff in H'. congruence.
Qed.

(** One step of a placement loop: the clipped duration is positive, stays
    inside the bar, and the cursor stays non-negative. *)
Lemma clip_step (spb cursor d : Q) :
  (0 <= cursor)%Q -> Qle_bool spb cursor = false -> (0 < d)%Q ->
  let dur := if Qltb spb (cursor + d) then (spb - cursor)%Q else d in
  (0 < dur)%Q /\ (cursor + dur <= spb)%Q.
Proof.
  intros H0 Hlt Hd dur. apply Qle_bool_false in Hlt. unfold dur.
  destruct (Qltb spb (cursor + d)) eqn:E.
  - split; lra.
  - split; [exact Hd |]. apply Qnot_lt_le. intros H. apply Qltb_iff in H. congruence.
Qed.

Lemma placeNotes_inBar rnd st scaleNotes tmin tmax currentBar pos cd pat :
  forall cursor last acc k res k',
  placeNotes rnd st scaleNotes tmin tmax currentBar pos cd pat cursor last acc k
    = Some (res, k') ->
  (0 <= cursor)%Q ->
  ((0 < stepsPerBar st)%Q -> posRhythm pat) ->
  forall n, In n (snd res) ->
    In n acc \/ inBar (stepsPerBar st) currentBar (time n) (duration n).
Proof.
  induction pat as [| [d isRest] rest IH]; intros cursor last acc k res k' H Hc Hpos n Hn.
  - simpl in H. injection H as <- _. left. exact Hn.
  - simpl in H.
    destruct (Qle_bool (stepsPerBar st) cursor) eqn:Eb.
    { injection H as <- _. left. exact Hn. }
    assert (Hspb : (0 < stepsPerBar st)%Q) by (apply Qle_bool_false in Eb; lra).
    specialize (Hpos Hspb). inversion Hpos as [| e l' Hd Hrest]; subst. simpl in Hd.
    destruct (clip_step (stepsPerBar st) cursor d Hc Eb Hd) as [Hdur Hin].
    set (dur := if Qltb (stepsPerBar st) (cursor + d) then _ else _) in *.
    assert (Hc' : (0 <= cursor + dur)%Q) by lra.
    destruct isRest.
    + exact (IH _ _ _ _ _ _ H Hc' (fun _ => Hrest) n Hn).
    + apply mbind_some in H. destruct H as [g [k1 [_ H]]].
      destruct g as [m |].
      * destruct (negb (m =? 0)).
        -- destruct (IH _ _ _ _ _ _ H Hc' (fun _ => Hrest) n Hn) as [Ha | Hb]; [| right; exact Hb].
           apply in_app_or in Ha. destruct Ha as [Ha | [<- | []]]; [left; exact Ha |].
           right. unfold inBar; simpl. split; lra.
        -- exact (IH _ _ _ _ _ _ H Hc' (fun _ => Hrest) n Hn).
      * exact (IH _ _ _ _ _ _ H Hc' (fun _ => Hrest) n Hn).
Qed.

Lemma melodicMotifs_pos :
  Forall (fun e => Forall (Forall (fun d => 0 < d)) (snd e)) melodicMotifs.
Proof. repeat constructor. Qed.

Lemma generateMelodicRhythm_pos rnd complexity k r k' :
  generateMelodicRhythm rnd complexity k = Some (r, k') -> posRhythm r.
Proof.
  unfold generateMelodicRhythm, mbind, draw. cbv beta iota zeta.
  set (list := or_else (lookup complexity melodicMotifs) _).
  assert (Hl : Forall (Forall (fun d => 0 < d)) list).
  { unfold list. pose proof melodicMotifs_pos as HP. rewrite Forall_forall in HP.
    destruct (lookup complexity melodicMotifs) as [ls |] eqn:E; cbn [or_else].
    - exact (HP _ (lookup_In _ _ _ E)).
    - exact (HP _ (lookup_In "MEDIUM" melodicMotifs _ eq_refl)). }
  destruct (js_nth list _) as [base |] eqn:E; [| discriminate].
  intros H. injection H as <- _.
  rewrite Forall_forall in Hl. specialize (Hl _ (js_nth_In _ _ _ E)).
  unfold posRhythm. rewrite Forall_map. eapply Forall_impl; [| exact Hl].
  intros d Hd. simpl. rewrite <- (Zlt_Qlt 0). exact Hd.
Qed.

Lemma variateRhythmSimple_pos (p : rhythm) : posRhythm p -> posRhythm (variateRhythmSimple p).
Proof.
  intros H. destruct p as [| [d isRest] rest]; [exact H |]. simpl.
  inversion H as [| e l Hd Hrest]; subst. simpl in Hd.
  destruct (Qle_bool 4 d); [| exact H].
  assert (Hh : (0 < d / 2)%Q).
  { apply Qlt_shift_div_l; [reflexivity | lra]. }
  repeat constructor; assumption.
Qed.

Lemma melodyBars_inBar rnd st startBar length scaleNotes tmin tmax mainRhythm :
  posRhythm mainRhythm ->
  forall bs last acc k res k',
  melodyBars rnd st startBar length scaleNotes tmin tmax mainRhythm bs last acc k
    = Some (res, k') ->
  (forall b, In b bs -> 0 <= b < length) ->
  (forall n, In n acc -> exists bar, startBar <= bar < startBar + length /\
                                     inBar (stepsPerBar st) bar (time n) (duration n)) ->
  forall n, In n res -> exists bar, startBar <= bar < startBar + length /\
                                    inBar (stepsPerBar st) bar (time n) (duration n).
Proof.
  intros Hmain. induction bs as [| b bs IH]; intros last acc k res k' H Hbs Hacc.
  - simpl in H. injection H as <- _. exact Hacc.
  - cbn [melodyBars] in H.
    destruct (totalBars st <=? startBar + b).
    { injection H as <- _. exact Hacc. }
    destruct (lookup (scaleName st) chordDegrees) as [table |]; [| discriminate].
    apply mbind_some in H. destruct H as [pattern [k1 [Hpat H]]].
    apply mbind_some in H. destruct H as [res1 [k2 [Hplace H]]].
    assert (Hb : 0 <= b < length) by (apply Hbs; left; reflexivity).
    assert (Hppos : (0 < stepsPerBar st)%Q ->
                    posRhythm (if String.eqb (or_else (js_nth (barStructure st) (startBar + b)) "NONE")
                                              "INTRO" then getIntroArpeggio else pattern)).
    { intros Hspb. destruct (String.eqb _ "INTRO").
      - unfold getIntroArpeggio, posRhythm. repeat constructor.
      - destruct (b =? length - 1).
        { injection Hpat as <- _. repeat constructor. exact Hspb. }
        destruct (Z.rem b 4 =? 3).
        { apply mbind_some in Hpat. destruct Hpat as [r [k3 [_ Hpat]]].
          injection Hpat as <- _. repeat constructor. }
        destruct (Z.rem b 4 =? 2); injection Hpat as <- _;
          [apply variateRhythmSimple_pos |]; exact Hmain. }
    eapply IH; [exact H | intros b' Hb'; apply Hbs; right; exact Hb' |].
    intros n Hn.
    destruct (placeNotes_inBar _ _ _ _ _ _ _ _ _ _ _ _ _ _ _ Hplace (Qle_refl 0) Hppos n Hn)
      as [Ha | Hin].
    + exact (Hacc n Ha).
    + exists (startBar + b). split; [lia | exact Hin].
Qed.

Lemma markovPlace_inBar rnd spb allScaleNotes absoluteBar currentSection chordClasses pat :
  forall cursor last acc k res k',
  markovPlace rnd spb allScaleNotes absoluteBar currentSection chordClasses pat cursor last acc k
    = Some (res, k') ->
  (0 <= cursor)%Q ->
  ((0 < spb)%Q -> posRhythm pat) ->
  forall n, In n (snd res) ->
    In n acc \/ inBar spb absoluteBar (mtime n) (mduration n).
Proof.
  induction pat as [| [d isRest] rest IH]; intros cursor last acc k res k' H Hc Hpos n Hn.
  - simpl in H. injection H as <- _. left. exact Hn.
  - cbn [markovPlace] in H.
    destruct (Qle_bool spb cursor) eqn:Eb.
    { injection H as <- _. left. exact Hn. }
    assert (Hspb : (0 < spb)%Q) by (apply Qle_bool_false in Eb; lra).
    specialize (Hpos Hspb). inversion Hpos as [| e l' Hd Hrest]; subst. simpl in Hd.
    destruct (clip_step spb cursor d Hc Eb Hd) as [Hdur Hin].
    set (dur := if Qltb spb (cursor + d) then _ else _) in *.
    assert (Hc' : (0 <= cursor + dur)%Q) by lra.
    destruct isRest.
    + exact (IH _ _ _ _ _ _ H Hc' (fun _ => Hrest) n Hn).
    + apply mbind_some in H. destruct H as [g [k1 [_ H]]].
      apply mbind_some in H. destruct H as [u [k2 [_ H]]].
      destruct (IH _ _ _ _ _ _ H Hc' (fun _ => Hrest) n Hn) as [Ha | Hb]; [| right; exact Hb].
      apply in_app_or in Ha. destruct Ha as [Ha | [<- | []]]; [left; exact Ha |].
      right. unfold inBar; simpl. split; lra.
Qed.

Lemma generateGoodMotif_pos rnd complexity spb k r k' :
  generateGoodMotif rnd complexity spb k = Some (r, k') -> posRhythm r.
Proof.
  unfold generateGoodMotif, mbind, draw. cbv beta iota zeta.
  destruct (js_nth _ _) as [raw |]; [| discriminate].
  intros H. injection H as <- _.
  unfold posRhythm. rewrite Forall_map. apply Forall_forall.
  intros d _. simpl. rewrite <- (Zlt_Qlt 0). lia.
Qed.

Lemma variateMotif_pos (m : rhythm) : posRhythm m -> posRhythm (variateMotif m).
Proof.
  induction m as [| [d isRest] rest IH]; intros H; [exact H |].
  inversion H as [| e l Hd Hrest]; subst. simpl in Hd. simpl.
  destruct (Qle_bool 4 d && negb isRest) eqn:E.
  - apply andb_true_iff in E. destruct E as [E _]. apply Qle_bool_iff in E.
    assert (Hh : (2 <= Qfloor (d / 2))%Z).
    { assert (H2 : (Qfloor (inject_Z 2) <= Qfloor (d / 2))%Z).
      { apply Qfloor_resp_le. apply Qle_shift_div_l; [reflexivity |].
        change (inject_Z 2) with 2%Q. lra. }
      rewrite Qfloor_Z in H2. exact H2. }
    assert (Hq : (0 < inject_Z (Qfloor (d / 2)))%Q) by (change 0%Q with (inject_Z 0); rewrite <- Zlt_Qlt; lia).
    repeat constructor; assumption.
  - constructor; [exact Hd | exact (IH Hrest)].
Qed.

Lemma markovBars_inBar rnd spb allScaleNotes motifBank structure chordNotesMap startBar numBars :
  Forall (fun e => posRhythm (snd e)) motifBank ->
  forall bs last acc k res k',
  markovBars rnd spb allScaleNotes motifBank structure chordNotesMap startBar bs last acc k
    = Some (res, k') ->
  (forall b, In b bs -> 0 <= b < numBars) ->
  (forall n, In n acc -> exists bar, startBar <= bar < startBar + numBars /\
                                     inBar spb bar (mtime n) (mduration n)) ->
  forall n, In n res -> exists bar, startBar <= bar < startBar + numBars /\
                                    inBar spb bar (mtime n) (mduration n).
Proof.
  intros Hbank. induction bs as [| b bs IH]; intros last acc k res k' H Hbs Hacc.
  - simpl in H. injection H as <- _. exact Hacc.
  - cbn [markovBars] in H.
    apply mbind_some in H. destruct H as [res1 [k1 [Hplace H]]].
    assert (Hb : 0 <= b < numBars) by (apply Hbs; left; reflexivity).
    set (baseMotif := or_else (lookup _ motifBank) _) in Hplace.
    assert (Hbase : posRhythm baseMotif).
    { rewrite Forall_forall in Hbank. unfold baseMotif.
      destruct (lookup _ motifBank) as [m |] eqn:E; cbn [or_else].
      - exact (Hbank _ (lookup_In _ _ _ E)).
      - destruct (lookup "VERSE" motifBank) as [m |] eqn:E'; cbn [or_else].
        + exact (Hbank _ (lookup_In _ _ _ E')).
        + constructor. }
    eapply IH; [exact H | intros b' Hb'; apply Hbs; right; exact Hb' |].
    intros n Hn.
    refine (match markovPlace_inBar _ _ _ _ _ _ _ _ _ _ _ _ _ Hplace (Qle_refl 0) _ n Hn with
            | or_introl Ha => Hacc n Ha
            | or_intror Hin => ex_intro _ (startBar + b) (conj _ Hin)
            end); [| lia].
    intros Hspb. destruct (Z.rem b 4 =? 3).
    + assert (Hq : (0 < spb / 4 * 2)%Q).
      { assert (H4 : (0 < spb / 4)%Q) by (apply Qlt_shift_div_l; [reflexivity | lra]). lra. }
      repeat constructor; exact Hq.
    + destruct (Z.rem b 4 =? 2); [apply variateMotif_pos |]; exact Hbase.
Qed.

Lemma generateMelody_inBar rnd startBar length complexity st k notes k' :
  generateMelody rnd startBar length complexity st k = Some (notes, k') ->
  forall n, In n notes -> exists bar, startBar <= bar < startBar + length /\
                                      inBar (stepsPerBar st) bar (time n) (duration n).
Proof.
  unfold generateMelody. cbv zeta. intros H.
  apply mbind_some in H. destruct H as [r [k1 [Hr H]]].
  eapply melodyBars_inBar;
    [exact (generateMelodicRhythm_pos _ _ _ _ _ Hr) | exact H
    | intros b Hb; apply In_zrange in Hb; exact Hb | intros n []].
Qed.

Lemma generateMelodyMarkov_inBar rnd root scaleName chordNotesMap startBar numBars complexity st
  k notes k' :
  generateMelodyMarkov rnd root scaleName chordNotesMap startBar numBars complexity st k
    = Some (notes, k') ->
  forall n, In n notes -> exists bar, startBar <= bar < startBar + numBars /\
                                      inBar (markovSteps st) bar (mtime n) (mduration n).
Proof.
  unfold generateMelodyMarkov. cbv zeta. intros H.
  apply mbind_some in H. destruct H as [m1 [k1 [H1 H]]].
  apply mbind_some in H. destruct H as [m2 [k2 [H2 H]]].
  apply mbind_some in H. destruct H as [m3 [k3 [H3 H]]].
  apply mbind_some in H. destruct H as [m4 [k4 [H4 H]]].
  apply mbind_some in H. destruct H as [m5 [k5 [H5 H]]].
  eapply markovBars_inBar; [| exact H | intros b Hb; apply In_zrange in Hb; exact Hb
                            | intros n []].
  repeat constructor; simpl; eapply generateGoodMotif_pos; eassumption.
Qed.

(** C9: every note returned by [generateMelody] and by
    [generateMelodyMarkov] lies inside one bar of the requested window
    [startBar, startBar + length): its start is at least [bar * stepsPerBar]
    and its end at most [(bar + 1) * stepsPerBar].  For [generateMelody] the
    bar length is [state.stepsPerBar]; for [generateMelodyMarkov] it is the
    engine's own [state.stepsPerBar || 16]. *)
Theorem C9_notes_inside_bar :
  (forall rnd startBar length complexity st k notes k',
     generateMelody rnd startBar length complexity st k = Some (notes, k') ->
     forall n, In n notes -> exists bar, startBar <= bar < startBar + length /\
                                         inBar (stepsPerBar st) bar (time n) (duration n)) /\
  (forall rnd root scaleName chordNotesMap startBar numBars complexity st k notes k',
     generateMelodyMarkov rnd root scaleName chordNotesMap startBar numBars complexity st k
       = Some (notes, k') ->
     forall n, In n notes -> exists bar, startBar <= bar < startBar + numBars /\
                                         inBar (markovSteps st) bar (mtime n) (mduration n)).
Proof.
  split; [exact generateMelody_inBar | exact generateMelodyMarkov_inBar].
Qed.

Lemma C9_notes_inside_bar_witness :
  generateMelody demoRandom 0 8 "LOW" demoState 0%nat = Some demoMelody /\
  (forall n, In n (fst demoMelody) -> exists bar, 0 <= bar < 0 + 8 /\
               inBar (stepsPerBar demoState) bar (time n) (duration n)) /\
  generateMelodyMarkov demoRandom 0 "Major" demoChordNotes 0 8 "LOW" demoState 0%nat
    = Some demoMarkov /\
  (forall n, In n (fst demoMarkov) -> exists bar, 0 <= bar < 0 + 8 /\
               inBar (markovSteps demoState) bar (mtime n) (mduration n)).
Proof.
  split; [vm_compute; reflexivity |]. split.
  - apply (proj1 C9_notes_inside_bar demoRandom 0 8 "LOW" demoState 0%nat
             (fst demoMelody) (snd demoMelody)).
    vm_compute. reflexivity.
  - split; [vm_compute; reflexivity |].
    apply (proj2 C9_notes_inside_bar demoRandom 0 "Major" demoChordNotes 0 8 "LOW" demoState
             0%nat (fst demoMarkov) (snd demoMarkov)).
    vm_compute. reflexivity.
Defined.

(* ========================================================================= *)
(** * Further properties of the code *)

(* ------------------------------------------------------------------------- *)
(** ** Chords, note names and melody pitches *)

Lemma lookup_key {A} (k : string) (m : list (string * A)) (v : A) :
  lookup k m = Some v -> In (k, v) m.
Proof.
  induction m as [| [k' v'] m IH]; simpl; [discriminate |].
  destruct (String.eqb k k') eqn:E.
  - intros H. injection H as <-. apply String.eqb_eq in E. subst. left. reflexivity.
  - intros H. right. exact (IH H).
Qed.

Lemma js_nth_range {A} (l : list A) (i : Z) (x : A) :
  js_nth l i = Some x -> 0 <= i < Z.of_nat (List.length l).
Proof.
  unfold js_nth. destruct (0 <=? i) eqn:E; [| discriminate].
  intros H. apply Z.leb_le in E.
  assert (Hl : (Z.to_nat i < List.length l)%nat) by (apply nth_error_Some; rewrite H; discriminate).
  lia.
Qed.

Lemma forallb_zrange (f : Z -> bool) (a b x : Z) :
  forallb f (zrange a b) = true -> a <= x < b -> f x = true.
Proof.
  intros H Hx. rewrite forallb_forall in H. apply H. apply In_zrange. exact Hx.
Qed.

(** A property of every chord of every table, for every root and pitch
    class in 0..11, checked by evaluation. *)
Lemma chord_table_check (f : string -> Z -> chord -> Z -> Z -> bool) :
  forallb (fun e =>
    forallb (fun idx =>
      match js_nth (snd e) idx with
      | Some cd => forallb (fun r => forallb (fun p => f (fst e) idx cd r p) (zrange 0 12))
                           (zrange 0 12)
      | None => true
      end) (zrange 0 (Z.of_nat (List.length (snd e))))) chordDegrees = true ->
  forall sn t idx cd r p,
    lookup sn chordDegrees = Some t -> js_nth t idx = Some cd ->
    0 <= r < 12 -> 0 <= p < 12 -> f sn idx cd r p = true.
Proof.
  intros H sn t idx cd r p Hl Hn Hr Hp.
  apply lookup_key in Hl. rewrite forallb_forall in H. specialize (H _ Hl).
  cbn [fst snd] in H.
  pose proof (forallb_zrange _ _ _ _ H (js_nth_range _ _ _ Hn)) as H1. cbv beta in H1.
  rewrite Hn in H1.
  pose proof (forallb_zrange _ _ _ _ H1 Hr) as H2. cbv beta in H2.
  exact (forallb_zrange _ _ _ _ H2 Hp).
Qed.

Lemma chord_table_facts (sn : string) (t : list chord) (idx : Z) (cd : chord) :
  lookup sn chordDegrees = Some t -> js_nth t idx = Some cd ->
  (exists i0 i1 i2, intervals cd = [i0; i1; i2] /\ 0 <= i0 < 12 /\ 0 <= i1 < 12 /\ 0 <= i2 < 12) /\
  In (c_type cd) ["Major"; "Minor"; "Dim"; "Aug"; "Dom7"] /\
  (exists sc, lookup sn scales = Some sc).
Proof.
  intros Hl Hn. apply lookup_key in Hl. apply js_nth_In in Hn.
  simpl in Hl.
  repeat destruct Hl as [Hl | Hl]; try contradiction; injection Hl as <- <-;
    simpl in Hn; repeat destruct Hn as [Hn | Hn]; try contradiction; subst cd;
    (split; [do 3 eexists; split; [reflexivity | lia] |
             split; [simpl; auto 10 | eexists; reflexivity]]).
Qed.

Lemma rem_add_mod (a i : Z) : 0 <= a -> 0 <= i -> Z.rem (a + i) 12 = Z.rem (a mod 12 + i) 12.
Proof.
  intros Ha Hi. pose proof (Z.mod_pos_bound a 12 ltac:(lia)).
  rewrite !Z.rem_mod_nonneg by lia. rewrite Z.add_mod_idemp_l by lia. reflexivity.
Qed.

Lemma getChordRootInScale_mod (rk : Z) (sn : string) (idx : Z) :
  0 <= rk -> getChordRootInScale rk sn idx = getChordRootInScale (rk mod 12) sn idx.
Proof.
  intros Hr. unfold getChordRootInScale.
  destruct (lookup sn chordDegrees) as [t |] eqn:El; [| reflexivity].
  destruct (js_nth t idx) as [cd |] eqn:En; [| reflexivity].
  destruct (chord_table_facts _ _ _ _ El En) as [[i0 [i1 [i2 [Hi [H0 _]]]]] _].
  rewrite Hi. rewrite rem_add_mod by lia. reflexivity.
Qed.

Lemma noteHighlighted_mod (rk : Z) (sn : string) (idx m : Z) :
  0 <= rk -> 0 <= m ->
  noteHighlighted rk sn idx m = noteHighlighted (rk mod 12) sn idx (m mod 12).
Proof.
  intros Hr Hm. unfold noteHighlighted.
  rewrite (getChordRootInScale_mod rk) by lia.
  destruct (lookup sn chordDegrees); [| reflexivity].
  destruct (js_nth l idx); [| reflexivity].
  pose proof (Z.mod_pos_bound m 12 ltac:(lia)).
  assert (E : Z.rem m 12 = Z.rem (m mod 12) 12).
  { rewrite !Z.rem_mod_nonneg by lia. rewrite Z.mod_mod by lia. reflexivity. }
  unfold getNoteRole. rewrite E. reflexivity.
Qed.

Lemma existsb_eqb_In (x : Z) (l : list Z) : existsb (Z.eqb x) l = true <-> In x l.
Proof.
  rewrite existsb_exists. split.
  - intros [y [Hy E]]. apply Z.eqb_eq in E. subst. exact Hy.
  - intros H. exists x. split; [exact H | apply Z.eqb_refl].
Qed.

(** X3: The chord-tone highlight of the piano roll: for a note whose pitch class is a tone of the chord, the highlight is off exactly when the chord is diminished or augmented and the note is its fifth (the third entry of [intervals]). *)
Theorem chordTone_highlight (scaleName : string) (table : list chord) (idx : Z) (cd : chord)
  (rootKey midi : Z) :
  lookup scaleName chordDegrees = Some table -> js_nth table idx = Some cd ->
  0 <= rootKey -> 0 <= midi ->
  In (Z.rem midi 12) (map (fun i => Z.rem (rootKey + i) 12) (intervals cd)) ->
  (noteHighlighted rootKey scaleName idx midi = Some false <->
     (c_type cd = "Dim" \/ c_type cd = "Aug") /\
     Z.rem midi 12 = Z.rem (rootKey + nth 2 (intervals cd) 0) 12).
Proof.
  intros Hl Hn Hr Hm Hin.
  destruct (chord_table_facts _ _ _ _ Hl Hn) as [[i0 [i1 [i2 [Hi Hb]]]] _].
  pose proof (Z.mod_pos_bound rootKey 12 ltac:(lia)) as Hr'.
  pose proof (Z.mod_pos_bound midi 12 ltac:(lia)) as Hm'.
  assert (Ep : Z.rem midi 12 = midi mod 12) by (apply Z.rem_mod_nonneg; lia).
  rewrite noteHighlighted_mod by lia.
  pose proof (chord_table_check
    (fun sn idx cd r p =>
       implb (existsb (Z.eqb p) (map (fun i => Z.rem (r + i) 12) (intervals cd)))
         (Bool.eqb (match noteHighlighted r sn idx p with Some false => true | _ => false end)
                   ((String.eqb (c_type cd) "Dim" || String.eqb (c_type cd) "Aug")
                    && (p =? Z.rem (r + nth 2 (intervals cd) 0) 12))))
    ltac:(vm_compute; reflexivity) scaleName table idx cd (rootKey mod 12) (midi mod 12)
    Hl Hn Hr' Hm') as H.
  cbv beta in H. rewrite Hi in H, Hin |- *. cbn [map nth] in H, Hin |- *.
  rewrite Ep in Hin |- *. rewrite (rem_add_mod rootKey i0), (rem_add_mod rootKey i1), (rem_add_mod rootKey i2) in Hin by lia. rewrite (rem_add_mod rootKey i2) by lia.
  apply existsb_eqb_In in Hin. cbn [map] in Hin. rewrite Hin in H. cbn [implb] in H.
  apply Bool.eqb_prop in H.
  destruct (noteHighlighted (rootKey mod 12) scaleName idx (midi mod 12)) as [[|] |];
  rewrite <- !String.eqb_eq, <- Z.eqb_eq, <- Bool.orb_true_iff, <- Bool.andb_true_iff, <- H;
    split; congruence.
Qed.

(** X4: Melody [chordMap]: the pitches built for a bar all have pitch classes of the bar's chord exactly when the chord's first interval is 0, since the pitches are [rootKey + intervals] shifted by the first interval again. *)
Theorem chordMap_classes (st : songState) (i : Z) (table : list chord) (cd : chord) :
  lookup (scaleName st) chordDegrees = Some table ->
  js_nth table (or_else (js_nth (barChords st) i) 0) = Some cd ->
  0 <= rootKey st ->
  exists l, chordMapEntry st i = Some (Some (map Some l)) /\
    ((forall n, In n l -> In (Z.rem n 12) (map (fun iv => Z.rem (rootKey st + iv) 12) (intervals cd)))
     <-> nth 0 (intervals cd) 0 = 0).
Proof.
  intros Hl Hn Hr.
  set (idx := or_else (js_nth (barChords st) i) 0) in *.
  destruct (chord_table_facts _ _ _ _ Hl Hn) as [[i0 [i1 [i2 [Hi Hb]]]] _].
  pose proof (Z.mod_pos_bound (rootKey st) 12 ltac:(lia)) as Hr'.
  assert (Hroot : getChordRootInScale (rootKey st) (scaleName st) idx
                  = Some (Z.rem (rootKey st + i0) 12)).
  { unfold getChordRootInScale. rewrite Hl, Hn, Hi. reflexivity. }
  exists (map (fun iv => Z.rem (rootKey st + i0) 12 + iv + 60) (intervals cd)).
  split.
  { unfold chordMapEntry. fold idx. rewrite Hl, Hn, Hroot. rewrite map_map. reflexivity. }
  pose proof (chord_table_check
    (fun sn idx cd r _ =>
       Bool.eqb (forallb (fun n => existsb (Z.eqb (Z.rem n 12))
                                           (map (fun iv => Z.rem (r + iv) 12) (intervals cd)))
                         (map (fun iv => Z.rem (r + nth 0 (intervals cd) 0) 12 + iv + 60)
                              (intervals cd)))
                (nth 0 (intervals cd) 0 =? 0))
    ltac:(vm_compute; reflexivity) (scaleName st) table idx cd (rootKey st mod 12) 0
    Hl Hn Hr' ltac:(lia)) as H.
  cbv beta in H. apply Bool.eqb_prop in H. rewrite Hi in H |- *. cbn [map nth] in H |- *.
  rewrite (rem_add_mod (rootKey st) i0), (rem_add_mod (rootKey st) i1),
    (rem_add_mod (rootKey st) i2) by lia.
  rewrite <- Z.eqb_eq, <- H. rewrite forallb_forall.
  split; intros Hall n Hn'; specialize (Hall n Hn');
    [apply existsb_eqb_In; exact Hall | apply existsb_eqb_In in Hall; exact Hall].
Qed.

(** X5: [generateBassForWholeSong]: the bass note of a bar has the pitch class of [getChordRootInScale] except for the Blues chords 1 to 4, where the scale degree and the chord root differ. *)
Theorem bass_root (sn : string) (table : list chord) (idx : Z) (cd : chord) (rootKey : Z) :
  lookup sn chordDegrees = Some table -> js_nth table idx = Some cd -> 0 <= rootKey ->
  exists m c, bassNote rootKey sn idx = Some (Some m) /\
              getChordRootInScale rootKey sn idx = Some c /\
              (Z.rem m 12 = c <-> ~ (sn = "Blues" /\ 1 <= idx <= 4)).
Proof.
  intros Hl Hn Hr.
  pose proof (Z.mod_pos_bound rootKey 12 ltac:(lia)) as Hr'.
  pose proof (chord_table_check
    (fun sn idx cd r _ =>
       match bassNote r sn idx, getChordRootInScale r sn idx with
       | Some (Some m), Some c =>
           (0 <=? m - r) && Bool.eqb (Z.rem m 12 =? c)
                                      (negb (String.eqb sn "Blues" && (1 <=? idx) && (idx <=? 4)))
       | _, _ => false
       end)
    ltac:(vm_compute; reflexivity) sn table idx cd (rootKey mod 12) 0 Hl Hn Hr' ltac:(lia)) as H.
  cbv beta in H. rewrite <- getChordRootInScale_mod in H by lia.
  destruct (getChordRootInScale rootKey sn idx) as [c |]; [| destruct (bassNote (rootKey mod 12) sn idx) as [[m |] |]; discriminate].
  unfold bassNote in H |- *.
  destruct (lookup sn scales) as [sc |]; [| discriminate].
  destruct (js_nth sc _) as [iv |]; [| discriminate]. cbn [option_map] in H |- *.
  exists (rootKey + iv + 36), c. split; [reflexivity | split; [reflexivity |]].
  apply andb_true_iff in H. destruct H as [Hpos H]. apply Z.leb_le in Hpos.
  apply Bool.eqb_prop in H.
  assert (Hm : Z.rem (rootKey + iv + 36) 12 = Z.rem (rootKey mod 12 + iv + 36) 12).
  { rewrite <- !Z.add_assoc. apply rem_add_mod; lia. }
  rewrite Hm, <- Z.eqb_eq, H.
  rewrite negb_true_iff, !andb_false_iff, String.eqb_neq, !Z.leb_gt.
  split.
  - intros [[Hs | Hs] | Hs] [Hb Hi]; [congruence | lia | lia].
  - intros Hno. destruct (string_dec sn "Blues") as [Eb | Eb]; [| left; left; exact Eb].
    destruct (Z.le_gt_cases 1 idx); [| left; right; lia].
    destruct (Z.le_gt_cases idx 4); [exfalso; apply Hno; split; [exact Eb | lia] | right; lia].
Qed.

Lemma append_cancel_l (a b c : string) : a ++ b = a ++ c -> b = c.
Proof. induction a as [| x a IH]; simpl; [auto | intros H; injection H; exact IH]. Qed.

(** X6: The HUD chord name of a bar inside the song equals [getRealChordName] of its chord exactly when the chord is Major or Minor. *)
Theorem chordName_hud_vs_real (st : songState) (b idx : Z) (table : list chord) (cd : chord) :
  0 <= b < totalBars st -> js_nth (barChords st) b = Some idx ->
  lookup (scaleName st) chordDegrees = Some table -> js_nth table idx = Some cd ->
  (getChordName st b = Some (getRealChordName cd (rootKey st)) <->
   c_type cd = "Major" \/ c_type cd = "Minor").
Proof.
  intros Hb Hc Hl Hn.
  destruct (chord_table_facts _ _ _ _ Hl Hn) as [[i0 [i1 [i2 [Hi _]]]] [Ht _]].
  unfold getChordName.
  replace ((b <? 0) || (totalBars st <=? b)) with false
    by (symmetry; apply orb_false_iff; split; apply Z.ltb_ge || apply Z.leb_gt; lia).
  rewrite Hc, Hl, Hn.
  assert (Hroot : getChordRootInScale (rootKey st) (scaleName st) idx
                  = Some (Z.rem (rootKey st + i0) 12)).
  { unfold getChordRootInScale. rewrite Hl, Hn, Hi. reflexivity. }
  rewrite Hroot, Z.rem_rem by lia.
  unfold getRealChordName. rewrite Hi.
  set (rn := or_else (js_nth noteNames (Z.rem (rootKey st + i0) 12)) "undefined").
  simpl in Ht. destruct Ht as [E | [E | [E | [E | [E | []]]]]]; rewrite <- E; cbn;
    split; intros H; try (left; reflexivity); try (right; reflexivity); try reflexivity;
    try (destruct H as [H | H]; discriminate);
    injection H as H; apply append_cancel_l in H; discriminate.
Qed.

Lemma getNoteName_check :
  forallb (fun a => match getNoteName a with Some _ => true | None => false end) (zrange 0 128)
  = true /\
  forallb (fun a => forallb (fun b =>
      implb (match getNoteName a, getNoteName b with
             | Some x, Some y => String.eqb x y
             | _, _ => false end) (a =? b)) (zrange 0 128)) (zrange 0 128) = true.
Proof. split; vm_compute; reflexivity. Qed.

(** X1: [getNoteName] names every MIDI note 0..127 and gives distinct notes distinct names; for a negative note it gives [undefined] exactly when the note is not a multiple of 12 below 0 (a negative remainder has no entry in [noteNames]). *)
Theorem getNoteName_unique :
  (forall m, 0 <= m <= 127 -> exists name, getNoteName m = Some name) /\
  (forall m1 m2, 0 <= m1 <= 127 -> 0 <= m2 <= 127 -> getNoteName m1 = getNoteName m2 -> m1 = m2) /\
  (forall m, m < 0 -> (getNoteName m = None <-> Z.rem m 12 <> 0)).
Proof.
  destruct getNoteName_check as [H1 H2]. split; [| split].
  - intros m Hm. pose proof (forallb_zrange _ _ _ m H1 ltac:(lia)) as H. cbv beta in H.
    destruct (getNoteName m) as [x |]; [exists x; reflexivity | discriminate].
  - intros m1 m2 Hm1 Hm2 E.
    pose proof (forallb_zrange _ _ _ m1 H2 ltac:(lia)) as H. cbv beta in H.
    pose proof (forallb_zrange _ _ _ m2 H ltac:(lia)) as H'. cbv beta in H'.
    pose proof (forallb_zrange _ _ _ m1 H1 ltac:(lia)) as D. cbv beta in D.
    rewrite <- E in H'. destruct (getNoteName m1) as [x |]; [| discriminate].
    rewrite String.eqb_refl in H'. apply Z.eqb_eq. exact H'.
  - intros m Hm. pose proof (Z.rem_bound_pos_neg m 12 ltac:(lia) ltac:(lia)) as Hb.
    unfold getNoteName, js_nth.
    destruct (Z.eq_dec (Z.rem m 12) 0) as [E | E].
    + rewrite E. cbn. split; [discriminate | intros H; exfalso; apply H; reflexivity].
    + replace (0 <=? Z.rem m 12) with false by (symmetry; apply Z.leb_gt; lia).
      split; [intros _; exact E | reflexivity].
Qed.

Lemma rem_nonneg_lt (a : Z) : 0 <= a -> 0 <= Z.rem a 12 < 12.
Proof. intros Ha. rewrite Z.rem_mod_nonneg by lia. apply Z.mod_pos_bound. lia. Qed.

(** X2: [analyzeNote]: a note outside the scale set scores 10, ['Out of Key'], ['Accidental']; a note in it scores between 55 and 100 and is 'Harmonious' exactly when its interval class to the previous note (or to [60 + rootKey]) is 0, 3, 4, 5, 7 or 9. *)
Theorem analyzeNote_score (targetMidi rootKey : Z) (scaleSet : list Z) (lastNoteMidi : option Z) :
  let ref := match lastNoteMidi with Some l => l | None => 60 + rootKey end in
  let ic := Z.rem (Z.abs (targetMidi - ref)) 12 in
  let res := analyzeNote targetMidi rootKey scaleSet lastNoteMidi in
  (zmem targetMidi scaleSet = false -> res = mkAnalysis 10 "Out of Key" ["Accidental"]) /\
  (zmem targetMidi scaleSet = true ->
     55 <= a_score res <= 100 /\
     (a_mood res = "Harmonious" <-> In ic [0; 3; 4; 5; 7; 9])).
Proof.
  intros ref ic res. subst res. split.
  - intros H. unfold analyzeNote. rewrite H. reflexivity.
  - intros H. unfold analyzeNote. rewrite H. cbn [negb].
    assert (Hic : 0 <= ic < 12) by (apply rem_nonneg_lt; lia).
    destruct lastNoteMidi as [l |]; subst ref; cbv zeta in ic |- *; fold ic;
    (assert (Hc : ic = 0 \/ ic = 1 \/ ic = 2 \/ ic = 3 \/ ic = 4 \/ ic = 5 \/ ic = 6 \/
                  ic = 7 \/ ic = 8 \/ ic = 9 \/ ic = 10 \/ ic = 11) by lia;
     repeat destruct Hc as [Hc | Hc]; rewrite Hc; vm_compute;
     (split; [split; discriminate |
              split; intros Hm; [ | ]; intuition (try discriminate; try reflexivity)])).
Qed.

Lemma findClosest_fold (target first : Z) (l : list Z) :
  let r := fold_left (fun prev curr =>
             if Z.abs (curr - target) <? Z.abs (prev - target) then curr else prev) l first in
  exists n, nth_error (first :: l) n = Some r /\
    (forall x, In x (first :: l) -> Z.abs (r - target) <= Z.abs (x - target)) /\
    (forall j y, (j < n)%nat -> nth_error (first :: l) j = Some y ->
       Z.abs (r - target) < Z.abs (y - target)).
Proof.
  induction l as [| x l IH] using rev_ind; simpl.
  - exists O. split; [reflexivity | split].
    + intros x [<- | []]. lia.
    + intros j y Hj. lia.
  - rewrite fold_left_app. simpl. destruct IH as [n [Hn [Hmin Hstr]]].
    set (r := fold_left _ l first) in *.
    change (first :: app l [x]) with (app (first :: l) [x]).
    destruct (Z.ltb_spec (Z.abs (x - target)) (Z.abs (r - target))) as [Hlt | Hge].
    + exists (List.length (first :: l)). split; [| split].
      * rewrite nth_error_app2 by lia. replace (_ - _)%nat with O by lia. reflexivity.
      * intros y Hy. apply (in_app_or (first :: l) [x]) in Hy as [Hy | [<- | []]]; [specialize (Hmin y Hy) |]; lia.
      * intros j y Hj Hy. rewrite nth_error_app1 in Hy by exact Hj.
        apply nth_error_In in Hy. specialize (Hmin y Hy). lia.
    + exists n. assert (Hnl : (n < List.length (first :: l))%nat)
        by (apply nth_error_Some; rewrite Hn; discriminate).
      split; [| split].
      * rewrite nth_error_app1 by exact Hnl. exact Hn.
      * intros y Hy. apply (in_app_or (first :: l) [x]) in Hy as [Hy | [<- | []]]; [apply Hmin; exact Hy | lia].
      * intros j y Hj Hy. rewrite nth_error_app1 in Hy by lia. exact (Hstr j y Hj Hy).
Qed.

(** X7: [findClosestNote] returns the target for an empty option list; otherwise it returns an option at the least distance from the target, and the first such option. *)
Theorem findClosestNote_first_min (target : Z) (options : list Z) :
  (options = [] -> findClosestNote target options = target) /\
  (options <> [] ->
   exists n, nth_error options n = Some (findClosestNote target options) /\
     (forall x, In x options ->
        Z.abs (findClosestNote target options - target) <= Z.abs (x - target)) /\
     (forall j y, (j < n)%nat -> nth_error options j = Some y ->
        Z.abs (findClosestNote target options - target) < Z.abs (y - target))).
Proof.
  split.
  - intros ->. reflexivity.
  - intros Hne. destruct options as [| first rest]; [contradiction |].
    exact (findClosest_fold target first rest).
Qed.

Lemma pickBest_in rnd lastMidi allowedPCs isStrongBeat (cands : list Z) :
  forall b s k x k',
  pickBest rnd lastMidi allowedPCs isStrongBeat cands b s k = Some (x, k') ->
  x = b \/ In x cands.
Proof.
  induction cands as [| c cs IH]; intros b s k x k' H; simpl in H.
  - unfold ret in H. injection H as <- _. left. reflexivity.
  - unfold mbind, draw in H.
    destruct (match s with Some s0 => _ | None => true end) in H.
    + apply IH in H as [-> | H]; right; [left; reflexivity | right; exact H].
    + apply IH in H as [-> | H]; [left; reflexivity | right; right; exact H].
Qed.

Lemma pickSmoothNote_range rnd lastMidi cd rootKey scaleNotes min max isStrongBeat
  isPhraseStart k x k' :
  pickSmoothNote rnd lastMidi (Some cd) rootKey scaleNotes min max isStrongBeat isPhraseStart k
    = Some (Some x, k') ->
  zmem x scaleNotes = true /\ min <= x <= max.
Proof.
  unfold pickSmoothNote.
  set (allowed := map (fun i => Z.rem (rootKey + i) 12) (intervals cd)).
  set (scaleTones := filter (fun m => zmem m scaleNotes) (zrange min (max + 1))).
  assert (Hst : forall y, In y scaleTones -> zmem y scaleNotes = true /\ min <= y <= max).
  { intros y Hy. apply filter_In in Hy as [Hy Hz]. apply In_zrange in Hy. split; [exact Hz | lia]. }
  assert (Hct : forall y, In y (filter (fun m => zmem (Z.rem m 12) allowed) scaleTones) ->
                zmem y scaleNotes = true /\ min <= y <= max).
  { intros y Hy. apply filter_In in Hy as [Hy _]. exact (Hst y Hy). }
  destruct scaleTones as [| first rest] eqn:Es; [unfold ret; discriminate |].
  destruct (isPhraseStart || (lastMidi =? -1))%bool.
  - destruct (filter (fun m => zmem (Z.rem m 12) allowed) (first :: rest)) as [| c cs] eqn:Ec;
      unfold ret; intros H; injection H as H _.
    + apply Hst. apply nth_error_In in H. exact H.
    + apply Hct. apply nth_error_In in H. exact H.
  - intros H. apply mbind_some in H as [best [k1 [Hb Hr]]].
    unfold ret in Hr. injection Hr as <- _.
    apply pickBest_in in Hb as [-> | Hb]; apply Hst; [left; reflexivity | exact Hb].
Qed.

(** X8: A pitch chosen by [pickSmoothNote] for a chord lies in the scale set and within [min, max]. *)
Theorem pickSmoothNote_scale_range rnd lastMidi cd rootKey scaleNotes min max isStrongBeat
  isPhraseStart k x k' :
  pickSmoothNote rnd lastMidi (Some cd) rootKey scaleNotes min max isStrongBeat isPhraseStart k
    = Some (Some x, k') ->
  zmem x scaleNotes = true /\ min <= x <= max.
Proof. apply pickSmoothNote_range. Qed.

Lemma pickSmoothNote_range' rnd lastMidi chordDef rootKey scaleNotes min max isStrongBeat
  isPhraseStart k x k' :
  pickSmoothNote rnd lastMidi chordDef rootKey scaleNotes min max isStrongBeat isPhraseStart k
    = Some (Some x, k') ->
  zmem x scaleNotes = true /\ min <= x <= max.
Proof.
  destruct chordDef as [cd |]; [apply pickSmoothNote_range | discriminate].
Qed.

Lemma placeNotes_pitch rnd st scaleNotes tmin tmax currentBar pos cd pat :
  forall cursor last acc k res k',
  placeNotes rnd st scaleNotes tmin tmax currentBar pos cd pat cursor last acc k
    = Some (res, k') ->
  Forall (pitchOk scaleNotes tmin tmax) acc -> Forall (pitchOk scaleNotes tmin tmax) (snd res).
Proof.
  induction pat as [| [d isRest] rest IH]; intros cursor last acc k res k' H Hacc.
  - simpl in H. injection H as <- _. exact Hacc.
  - simpl in H.
    destruct (Qle_bool (stepsPerBar st) cursor).
    { injection H as <- _. exact Hacc. }
    destruct isRest; [exact (IH _ _ _ _ _ _ H Hacc) |].
    apply mbind_some in H. destruct H as [g [k1 [Hg H]]].
    destruct g as [m |]; [| exact (IH _ _ _ _ _ _ H Hacc)].
    destruct (negb (m =? 0)) eqn:Em; [| exact (IH _ _ _ _ _ _ H Hacc)].
    apply (IH _ _ _ _ _ _ H). apply Forall_app. split; [exact Hacc |].
    constructor; [| constructor].
    destruct (pickSmoothNote_range' _ _ _ _ _ _ _ _ _ _ _ _ Hg) as [Hz Hr].
    apply negb_true_iff, Z.eqb_neq in Em.
    unfold pitchOk. simpl. auto.
Qed.

Lemma melodyBars_pitch rnd st startBar length scaleNotes tmin tmax mainRhythm :
  forall bs last acc k res k',
  melodyBars rnd st startBar length scaleNotes tmin tmax mainRhythm bs last acc k
    = Some (res, k') ->
  Forall (pitchOk scaleNotes tmin tmax) acc -> Forall (pitchOk scaleNotes tmin tmax) res.
Proof.
  induction bs as [| b bs IH]; intros last acc k res k' H Hacc; cbn [melodyBars] in H.
  - unfold ret in H; injection H as <- _. exact Hacc.
  - destruct (totalBars st <=? startBar + b); [injection H as <- _; exact Hacc |].
    destruct (lookup (scaleName st) chordDegrees); [| unfold throw in H; discriminate].
    apply mbind_some in H. destruct H as [pat [k1 [_ H]]].
    apply mbind_some in H. destruct H as [r [k2 [Hp H]]].
    exact (IH _ _ _ _ _ H (placeNotes_pitch _ _ _ _ _ _ _ _ _ _ _ _ _ _ _ Hp Hacc)).
Qed.

(** X9: Every note of [generateMelody] is in the scale of the song, inside the vocal range (48..84 for an unknown range type) and has a pitch other than 0. *)
Theorem generateMelody_pitches rnd startBar length complexity st k notes k' :
  generateMelody rnd startBar length complexity st k = Some (notes, k') ->
  let range := or_else (lookup (vocalRangeType st) vocalRanges) (48, 84) in
  forall n, In n notes ->
    zmem (midi n) (getScaleNotes (rootKey st) (scaleName st)) = true /\
    fst range <= midi n <= snd range /\ midi n <> 0.
Proof.
  intros H. unfold generateMelody in H. cbv zeta in H |- *. intros n Hn.
  apply mbind_some in H. destruct H as [r [k1 [_ H]]].
  apply melodyBars_pitch in H; [| constructor].
  rewrite Forall_forall in H. destruct (H n Hn) as [Hz [Hr Hnz]].
  split; [exact Hz | split; [| exact Hnz]].
  destruct (String.eqb _ "VERSE") in Hr; [lia |].
  destruct (String.eqb _ "CHORUS") in Hr; lia.
Qed.

Ltac kit_paths :=
  repeat match goal with
         | |- context [if ?c then _ else _] =>
             let b := eval vm_compute in c in
             lazymatch b with
             | true => change c with true
             | false => change c with false
             | _ => destruct c
             end; cbn [negb andb orb]
         end;
  unfold kitOk, push, drumKit, KICK, SNARE, LO_TOM, CHAT, MID_TOM, OHAT, HI_TOM, CRASH;
  cbn [app];
  try exact I;
  (split; [repeat constructor; cbn; intuition discriminate
          | intros x Hx; cbn in Hx; cbn; intuition]).

Lemma drumBase_ok pt genre cur s i : kitOk (drumBase pt genre cur s i).
Proof. unfold drumBase. kit_paths. Qed.

Lemma drumTransition_ok genre cur next s :
  -16 < s < 16 ->
  match drumTransition genre cur next s with Some l => kitOk l | None => True end.
Proof.
  intros Hs.
  assert (Hc : s = -15 \/ s = -14 \/ s = -13 \/ s = -12 \/ s = -11 \/ s = -10 \/ s = -9 \/ s = -8 \/ s = -7 \/ s = -6 \/ s = -5 \/ s = -4 \/ s = -3 \/ s = -2 \/ s = -1 \/ s = 0 \/ s = 1 \/ s = 2 \/ s = 3 \/ s = 4 \/ s = 5 \/ s = 6 \/ s = 7 \/ s = 8 \/ s = 9 \/ s = 10 \/ s = 11 \/ s = 12 \/ s = 13 \/ s = 14 \/ s = 15) by lia.
  unfold drumTransition.
  destruct Hc as [-> | [-> | [-> | [-> | [-> | [-> | [-> | [-> | [-> | [-> | [-> | [-> | [-> | [-> | [-> | [-> | [-> | [-> | [-> | [-> | [-> | [-> | [-> | [-> | [-> | [-> | [-> | [-> | [-> | [-> | ->]]]]]]]]]]]]]]]]]]]]]]]]]]]]]].
  all: clear Hs; kit_paths.
Qed.

(** X11: [getDrumPattern] never returns a drum twice and only returns the eight drums of the kit (36, 38, 41, 42, 45, 46, 48, 49). *)
Theorem getDrumPattern_kit genre cur next stepIndex stepsPerBar isTransition :
  let hits := getDrumPattern genre cur next stepIndex stepsPerBar isTransition in
  NoDup hits /\ (forall x, In x hits -> In x [36; 38; 41; 42; 45; 46; 48; 49]).
Proof.
  intros hits. subst hits.
  destruct (drumGrid stepIndex stepsPerBar) as [s b] eqn:E.
  pose proof (drumGrid_s_range _ _ _ _ E) as Hs.
  rewrite (getDrumPattern_grid _ _ _ _ _ _ _ _ E).
  assert (H : kitOk (match (if isTransition && b then drumTransition genre cur next s else None) with
                     | Some notes => notes
                     | None => if b then drumBase (or_else (lookup genre drumPatterns) pop_drums)
                                           genre cur s stepIndex else []
                     end)).
  { pose proof (drumTransition_ok genre cur next s Hs) as Ht.
    destruct (isTransition && b); [destruct (drumTransition genre cur next s) as [l |]; [exact Ht |] |];
    (destruct b; [apply drumBase_ok | split; [constructor | intros x []]]). }
  destruct H as [H1 H2]. split; [exact H1 | intros x Hx; exact (H2 x Hx)].
Qed.

Lemma drumGrid_scaled (k j r : Z) :
  0 < k -> 0 <= j -> 0 <= r < k ->
  drumGrid (k * j + r) (16 * k) = (Z.rem j 16, r =? 0).
Proof.
  intros Hk Hj Hr. unfold drumGrid.
  set (unit := (inject_Z (16 * k) / inject_Z 16)%Q).
  assert (Hk' : ~ (inject_Z k == 0)%Q).
  { intros E. change 0%Q with (inject_Z 0) in E. apply (proj1 (inject_Z_injective k 0)) in E. lia. }
  assert (Hu : (unit == inject_Z k)%Q).
  { unfold unit. rewrite inject_Z_mult. field. }
  set (q := (inject_Z (k * j + r) / unit)%Q).
  assert (Hq : (q == inject_Z j + inject_Z r / inject_Z k)%Q).
  { unfold q. rewrite Hu, inject_Z_plus, inject_Z_mult. field. exact Hk'. }
  assert (Hkpos : (0 < inject_Z k)%Q) by (change 0%Q with (inject_Z 0); rewrite <- Zlt_Qlt; lia).
  assert (Hrk : (0 <= inject_Z r / inject_Z k < 1)%Q).
  { split.
    - apply Qle_shift_div_l; [exact Hkpos |]. rewrite Qmult_0_l.
      change 0%Q with (inject_Z 0). rewrite <- Zle_Qle. lia.
    - apply Qlt_shift_div_r; [exact Hkpos |]. rewrite Qmult_1_l. rewrite <- Zlt_Qlt. lia. }
  assert (Hj' : (0 <= inject_Z j)%Q) by (change 0%Q with (inject_Z 0); rewrite <- Zle_Qle; lia).
  assert (Hfl : Qfloor q = j).
  { apply Qfloor_unique; rewrite Hq; lra. }
  assert (Htr : Qtrunc q = j).
  { unfold Qtrunc. replace (Qle_bool 0 q) with true; [exact Hfl |].
    symmetry. apply Qle_bool_iff. rewrite Hq. lra. }
  rewrite Hfl, Htr. f_equal.
  destruct (Z.eqb_spec r 0) as [-> | Hne].
  - apply Qeq_bool_iff. rewrite Hu, inject_Z_plus, inject_Z_mult. ring.
  - destruct (Qeq_bool _ _) eqn:E; [exfalso | reflexivity].
    apply Qeq_bool_iff in E. rewrite Hu, inject_Z_plus, inject_Z_mult in E.
    assert (E' : (inject_Z r == 0)%Q) by (rewrite <- E; ring).
    change 0%Q with (inject_Z 0) in E'. apply (proj1 (inject_Z_injective r 0)) in E'. lia.
Qed.

Lemma drumBase_stepIndex pt genre cur s i i' :
  (i =? 0) = (i' =? 0) -> drumBase pt genre cur s i = drumBase pt genre cur s i'.
Proof. intros H. unfold drumBase. rewrite H. reflexivity. Qed.

(** X12: With [k] times as many steps per bar, step [k*j + r] of [getDrumPattern] is step [j] of the 16-step grid when [r = 0] and silent otherwise. *)
Theorem getDrumPattern_finer_grid genre cur next (k j r : Z) isTransition :
  0 < k -> 0 <= j -> 0 <= r < k ->
  getDrumPattern genre cur next (k * j + r) (16 * k) isTransition =
  if r =? 0 then getDrumPattern genre cur next j 16 isTransition else [].
Proof.
  intros Hk Hj Hr.
  rewrite (getDrumPattern_grid _ _ _ _ _ _ _ _ (drumGrid_scaled k j r Hk Hj Hr)).
  destruct (Z.eqb_spec r 0) as [-> | Hne].
  - assert (E1 : drumGrid j 16 = (Z.rem j 16, true)).
    { pose proof (drumGrid_scaled 1 j 0 ltac:(lia) Hj ltac:(lia)) as E.
      rewrite Z.mul_1_l, Z.add_0_r in E. exact E. }
    rewrite (getDrumPattern_grid _ _ _ _ _ _ _ _ E1).
    assert (Heq : (k * j + 0 =? 0) = (j =? 0)).
    { rewrite Z.add_0_r. destruct (Z.eqb_spec j 0) as [-> | Hj0];
        [rewrite Z.mul_0_r; reflexivity | apply Z.eqb_neq; nia]. }
    rewrite (drumBase_stepIndex _ _ _ _ _ _ Heq). reflexivity.
  - rewrite andb_false_r. reflexivity.
Qed.

(** X13: [variateRhythmSimple] keeps the total duration; when the first entry lasts 4 steps or more it becomes two notes of half its length (a leading rest too). *)
Theorem variateRhythmSimple_total (p : rhythm) :
  (rhythmTotal (variateRhythmSimple p) == rhythmTotal p)%Q /\
  (forall d isRest rest, p = (d, isRest) :: rest -> (4 <= d)%Q ->
     variateRhythmSimple p = (d / 2, false) :: (d / 2, false) :: rest)%Q.
Proof.
  split.
  - destruct p as [| [d isRest] rest]; [reflexivity |]. simpl.
    destruct (Qle_bool 4 d); simpl; [field | reflexivity].
  - intros d isRest rest -> Hd. simpl. apply Qle_bool_iff in Hd. rewrite Hd. reflexivity.
Qed.

Lemma variateMotif_total_aux (m : rhythm) :
  (forall e, In e m -> exists z : Z, fst e = inject_Z z) ->
  (rhythmTotal (variateMotif m) <= rhythmTotal m)%Q /\
  (rhythmTotal m - 1 <= rhythmTotal (variateMotif m))%Q.
Proof.
  induction m as [| [d isRest] rest IH]; intros Hint; cbn [variateMotif].
  - split; unfold rhythmTotal; simpl; lra.
  - unfold rhythmTotal in *.
    destruct (Qle_bool 4 d && negb isRest); cbn [fold_right fst].
    + destruct (Hint (d, isRest) (or_introl eq_refl)) as [z Hz]. simpl in Hz. subst d.
      assert (Hf : Qfloor (inject_Z z / 2) = z / 2).
      { rewrite (Zdiv_Qdiv z 2). reflexivity. }
      rewrite Hf.
      assert (H1 : (2 * (z / 2) <= z)%Z) by (apply Z.mul_div_le; lia).
      assert (H2 : (z <= 2 * (z / 2) + 1)%Z)
        by (pose proof (Z.mod_pos_bound z 2 ltac:(lia)); pose proof (Z.div_mod z 2 ltac:(lia)); lia).
      rewrite Zle_Qle, inject_Z_mult in H1. rewrite Zle_Qle, inject_Z_plus, inject_Z_mult in H2.
      change (inject_Z 2) with 2%Q in H1, H2. change (inject_Z 1) with 1%Q in H2.
      split; lra.
    + destruct IH as [IH1 IH2]; [intros e He; apply Hint; right; exact He |].
      split; lra.
Qed.

(** X14: On integer durations, [variateMotif] keeps the total or shortens it by at most one step. *)
Theorem variateMotif_total (m : rhythm) :
  (forall e, In e m -> exists z : Z, fst e = inject_Z z) ->
  (rhythmTotal m - 1 <= rhythmTotal (variateMotif m) <= rhythmTotal m)%Q.
Proof. intros H. destruct (variateMotif_total_aux m H). split; assumption. Qed.

Lemma Qfloor_eqZ (x : Q) (z : Z) : (x == inject_Z z)%Q -> Qfloor x = z.
Proof. intros H. apply Qfloor_unique; rewrite H; lra. Qed.

(** X15: A motif of [generateGoodMotif] for a bar of [16*n] steps has no rest and its durations sum to the bar length. *)
Theorem generateGoodMotif_fills_bar rnd complexity (n : Z) k m k' :
  0 < n ->
  generateGoodMotif rnd complexity (inject_Z (16 * n)) k = Some (m, k') ->
  (rhythmTotal m == inject_Z (16 * n))%Q /\ Forall (fun e => snd e = false) m.
Proof.
  intros Hn. unfold generateGoodMotif, mbind, draw. cbv zeta.
  set (beat := (inject_Z (16 * n) / 4)%Q).
  assert (Hb : (beat == inject_Z (4 * n))%Q).
  { unfold beat. rewrite !inject_Z_mult. field. }
  set (fl := fun d : Q => (inject_Z (Z.max 1 (Qfloor d)), false)).
  assert (Hfl : forall d c, 0 < c -> (d == inject_Z (c * n))%Q -> fl d = (inject_Z (c * n), false)).
  { intros d c Hc Hd. unfold fl. rewrite (Qfloor_eqZ d (c * n) Hd).
    rewrite Z.max_r by nia. reflexivity. }
  set (low := [[beat; beat; beat; beat];
               [beat * (3 # 2); beat * (1 # 2); beat; beat];
               [beat * 2; beat; beat]]%Q).
  set (high := [[beat / 2; beat / 2; beat; beat / 2; beat / 2; beat];
                [beat * (3 # 4); beat * (1 # 4); beat; beat * (3 # 4); beat * (1 # 4); beat];
                [beat; beat / 2; beat / 2; beat / 2; beat / 2; beat]]%Q).
  assert (Hall : forall raw, In raw (app low high) ->
            (rhythmTotal (map fl raw) == inject_Z (16 * n))%Q /\
            Forall (fun e => snd e = false) (map fl raw)).
  { intros raw Hraw.
    assert (Hb2 : (beat * 2 == inject_Z (8 * n))%Q) by (rewrite Hb, !inject_Z_mult; ring).
    assert (Hb32 : (beat * (3 # 2) == inject_Z (6 * n))%Q) by (rewrite Hb, !inject_Z_mult; field).
    assert (Hh : (beat / 2 == inject_Z (2 * n))%Q) by (rewrite Hb, !inject_Z_mult; field).
    assert (Hb12 : (beat * (1 # 2) == inject_Z (2 * n))%Q) by (rewrite Hb, !inject_Z_mult; field).
    assert (Hb34 : (beat * (3 # 4) == inject_Z (3 * n))%Q) by (rewrite Hb, !inject_Z_mult; field).
    assert (Hb14 : (beat * (1 # 4) == inject_Z (1 * n))%Q) by (rewrite Hb, !inject_Z_mult; field).
    cbn in Hraw.
    repeat destruct Hraw as [<- | Hraw]; try contradiction; cbn [map];
      repeat first [ rewrite (Hfl _ 4 ltac:(lia) Hb) | rewrite (Hfl _ 8 ltac:(lia) Hb2)
                   | rewrite (Hfl _ 6 ltac:(lia) Hb32) | rewrite (Hfl _ 2 ltac:(lia) Hh)
                   | rewrite (Hfl _ 2 ltac:(lia) Hb12) | rewrite (Hfl _ 3 ltac:(lia) Hb34)
                   | rewrite (Hfl _ 1 ltac:(lia) Hb14) ];
      (split; [unfold rhythmTotal; cbn [fold_right fst]; rewrite !inject_Z_mult; ring
              | repeat constructor]). }
  destruct (js_nth _ _) as [raw |] eqn:E; [| discriminate].
  intros H. injection H as <- _. apply Hall.
  apply js_nth_In in E.
  destruct (String.eqb complexity "MEDIUM"); [exact E |].
  apply in_or_app. destruct (String.eqb complexity "HIGH"); [right | left]; exact E.
Qed.

Lemma insertBy_In key x l y : In y (insertBy key x l) -> y = x \/ In y l.
Proof.
  induction l as [| z r IH]; simpl.
  - intros [<- | []]. left. reflexivity.
  - destruct (key z <=? key x); simpl.
    + intros [<- | H]; [right; left; reflexivity |].
      destruct (IH H) as [-> | H']; [left; reflexivity | right; right; exact H'].
    + intros [<- | [<- | H]]; [left; reflexivity | right; left; reflexivity | right; right; exact H].
Qed.

Lemma sortBy_In key l y : In y (sortBy key l) -> In y l.
Proof.
  unfold sortBy. assert (G : forall acc, In y (fold_left (fun acc x => insertBy key x acc) l acc) ->
                          In y acc \/ In y l).
  { induction l as [| x r IH]; intros acc H; simpl in *; [left; exact H |].
    destruct (IH _ H) as [H' | H']; [| right; right; exact H'].
    destruct (insertBy_In _ _ _ _ H') as [-> | H'']; [right; left; reflexivity | left; exact H'']. }
  intros H. destruct (G [] H) as [[] | H']; exact H'.
Qed.

Ltac in_valid :=
  repeat match goal with
         | H : In _ (filter _ _) |- _ => apply filter_In in H as [H _]
         | H : In _ [] |- _ => destruct H
         | H : In _ (sortBy _ _) |- _ => apply sortBy_In in H
         | E : ?l = ?x :: ?xs, H : In _ (?x :: ?xs) |- _ => rewrite <- E in H
         | H : In _ (match ?l with [] => _ | _ :: _ => _ end) |- _ =>
             let E := fresh "E" in destruct l eqn:E
         | H : In _ (if ?b then _ else _) |- _ => destruct b
         end.

Lemma markovPitch_in rnd valid cc sb last k r k' :
  markovPitch rnd valid cc sb last k = Some (r, k') ->
  r = None \/ exists p, r = Some p /\ (In p valid \/ (last = Some p /\ p <> -1)).
Proof.
  unfold markovPitch. intros H.
  destruct last as [z |]; [| unfold ret in H; injection H as <- _; left; reflexivity].
  destruct z as [| p | [p | p |]].
  5:{ apply mbind_some in H. destruct H as [u [k1 [_ H]]]. unfold ret in H. injection H as <- _.
      destruct (js_nth _ _) as [p |] eqn:Ep; [| left; reflexivity].
      right. exists p. split; [reflexivity |]. left. apply js_nth_In in Ep. in_valid; assumption. }
  all: cbv zeta in H;
    repeat match type of H with
           | context [match ?l with [] => _ | _ :: _ => _ end] =>
               let E := fresh "E" in destruct l eqn:E
           end.
  all: first
    [ unfold ret in H; injection H as <- _; right; eexists; split; [reflexivity |];
      right; split; [reflexivity | discriminate]
    | apply mbind_some in H; destruct H as [u [k1 [_ H]]]; unfold ret in H;
      injection H as <- _;
      destruct (js_nth _ _) as [q |] eqn:Eq; [| left; reflexivity];
      right; exists q; split; [reflexivity |]; left; apply js_nth_In in Eq; in_valid; assumption ].
Qed.

Lemma markovPlace_pitch rnd spb all absoluteBar currentSection chordClasses pat :
  forall cursor last acc k res k',
  markovPlace rnd spb all absoluteBar currentSection chordClasses pat cursor last acc k
    = Some (res, k') ->
  lastOk all last -> Forall (pitchIn all) acc ->
  lastOk all (fst res) /\ Forall (pitchIn all) (snd res).
Proof.
  induction pat as [| [d isRest] rest IH]; intros cursor last acc k res k' H Hl Hacc.
  - cbn [markovPlace] in H. unfold ret in H. injection H as <- _. split; assumption.
  - cbn [markovPlace] in H.
    destruct (Qle_bool spb cursor).
    { unfold ret in H. injection H as <- _. split; assumption. }
    destruct isRest; [exact (IH _ _ _ _ _ _ H Hl Hacc) |].
    apply mbind_some in H. destruct H as [g [k1 [Hg H]]].
    apply mbind_some in H. destruct H as [u [k2 [_ H]]].
    set (valid := if String.eqb currentSection "CHORUS" then filter (fun n => 65 <=? n) all
                  else all) in Hg.
    assert (Hv : forall p, In p valid -> In p all).
    { intros p Hp. unfold valid in Hp. destruct (String.eqb currentSection "CHORUS");
        [apply filter_In in Hp as [Hp _] |]; exact Hp. }
    assert (Hg' : lastOk all g).
    { destruct (markovPitch_in _ _ _ _ _ _ _ _ Hg) as [-> | [p [-> [Hp | [-> Hne]]]]].
      - exact I.
      - right. exact (Hv p Hp).
      - simpl in Hl. destruct Hl as [Hl | Hl]; [contradiction | right; exact Hl]. }
    apply (IH _ _ _ _ _ _ H Hg').
    apply Forall_app. split; [exact Hacc |]. constructor; [| constructor].
    unfold pitchIn. cbn [mmidi]. destruct g as [p |]; [| exact I].
    destruct (markovPitch_in _ _ _ _ _ _ _ _ Hg) as [E | [q [E [Hq | [-> Hne]]]]];
      [discriminate | injection E as <-; exact (Hv p Hq) |].
    injection E as <-. simpl in Hl. destruct Hl as [Hl | Hl]; [contradiction | exact Hl].
Qed.

Lemma markovBars_pitch rnd spb all motifBank structure chordNotesMap startBar :
  forall bs last acc k res k',
  markovBars rnd spb all motifBank structure chordNotesMap startBar bs last acc k
    = Some (res, k') ->
  lastOk all last -> Forall (pitchIn all) acc -> Forall (pitchIn all) res.
Proof.
  induction bs as [| b bs IH]; intros last acc k res k' H Hl Hacc; cbn [markovBars] in H.
  - unfold ret in H. injection H as <- _. exact Hacc.
  - apply mbind_some in H. destruct H as [r [k1 [Hp H]]].
    destruct (markovPlace_pitch _ _ _ _ _ _ _ _ _ _ _ _ _ Hp Hl Hacc) as [Hl' Hacc'].
    exact (IH _ _ _ _ _ H Hl' Hacc').
Qed.

(** X10: Every note of the Markov engine is a rest (pitch NaN) or a note of [getScaleNotesArr root scaleName 55 84]. *)
Theorem generateMelodyMarkov_pitches rnd root scaleName chordNotesMap startBar numBars
  complexity st k notes k' :
  generateMelodyMarkov rnd root scaleName chordNotesMap startBar numBars complexity st k
    = Some (notes, k') ->
  forall n, In n notes ->
    match mmidi n with
    | Some p => In p (getScaleNotesArr root scaleName 55 84)
    | None => True
    end.
Proof.
  unfold generateMelodyMarkov. cbv zeta. intros H.
  do 5 (apply mbind_some in H; destruct H as [? [? [_ H]]]).
  apply markovBars_pitch in H; [| left; reflexivity | constructor].
  rewrite Forall_forall in H. exact H.
Qed.

Lemma chordTone_highlight_witness :
  noteHighlighted 0 "Major" 6 65 = Some false.
Proof.
  apply (proj2 (chordTone_highlight "Major" _ 6 (mkChord "vii¬∞" "Dim" [11; 2; 5]) 0 65
                  eq_refl eq_refl ltac:(lia) ltac:(lia) ltac:(vm_compute; tauto))).
  split; [left; reflexivity | reflexivity].
Defined.

Lemma chordMap_classes_witness :
  exists l, chordMapEntry demoState 0 = Some (Some (map Some l)) /\
    (forall n, In n l -> In (Z.rem n 12) (map (fun iv => Z.rem (0 + iv) 12) [0; 4; 7])).
Proof.
  destruct (chordMap_classes demoState 0 _ (mkChord "I" "Major" [0; 4; 7]) eq_refl eq_refl
              ltac:(vm_compute; discriminate)) as [l [Hl Hi]].
  exists l. split; [exact Hl | apply (proj2 Hi); reflexivity].
Defined.

Lemma bass_root_witness :
  exists m c, bassNote 0 "Blues" 1 = Some (Some m) /\
    getChordRootInScale 0 "Blues" 1 = Some c /\ Z.rem m 12 <> c.
Proof.
  destruct (bass_root "Blues" _ 1 (mkChord "IV7" "Dom7" [5; 9; 0]) 0 eq_refl eq_refl
              ltac:(lia)) as [m [c [Hm [Hc Hi]]]].
  exists m, c. split; [exact Hm | split; [exact Hc |]].
  intros E. apply (proj1 Hi E). split; [reflexivity | lia].
Defined.

Lemma chordName_hud_vs_real_witness :
  getChordName demoState 0 = Some (getRealChordName (mkChord "I" "Major" [0; 4; 7]) 0).
Proof.
  apply (proj2 (chordName_hud_vs_real demoState 0 0 _ (mkChord "I" "Major" [0; 4; 7])
                  ltac:(vm_compute; split; congruence) eq_refl eq_refl eq_refl)).
  left; reflexivity.
Defined.

Lemma pickSmoothNote_scale_range_witness :
  pickSmoothNote (fun _ => 0%Q) (-1) (Some (mkChord "I" "Major" [0; 4; 7])) 0
    (getScaleNotes 0 "Major") 60 72 true false 0%nat = Some (Some 67, 0%nat) /\
  zmem 67 (getScaleNotes 0 "Major") = true /\ 60 <= 67 <= 72.
Proof.
  split; [vm_compute; reflexivity |].
  apply (pickSmoothNote_scale_range (fun _ => 0%Q) (-1) (mkChord "I" "Major" [0; 4; 7]) 0
           (getScaleNotes 0 "Major") 60 72 true false 0%nat 67 0%nat).
  vm_compute. reflexivity.
Defined.

Lemma generateMelody_pitches_witness :
  generateMelody demoRandom 0 8 "LOW" demoState 0%nat = Some demoMelody /\
  (forall n, In n (fst demoMelody) ->
     zmem (midi n) (getScaleNotes 0 "Major") = true /\ 48 <= midi n <= 72 /\ midi n <> 0).
Proof.
  split; [vm_compute; reflexivity |].
  exact (generateMelody_pitches demoRandom 0 8 "LOW" demoState 0%nat (fst demoMelody)
           (snd demoMelody) ltac:(vm_compute; reflexivity)).
Defined.

Lemma getDrumPattern_finer_grid_witness :
  getDrumPattern "Pop" "VERSE" "CHORUS" 6 32 false = getDrumPattern "Pop" "VERSE" "CHORUS" 3 16 false /\
  getDrumPattern "Pop" "VERSE" "CHORUS" 7 32 false = [].
Proof.
  split.
  - exact (getDrumPattern_finer_grid "Pop" "VERSE" "CHORUS" 2 3 0 false
             ltac:(lia) ltac:(lia) ltac:(lia)).
  - exact (getDrumPattern_finer_grid "Pop" "VERSE" "CHORUS" 2 3 1 false
             ltac:(lia) ltac:(lia) ltac:(lia)).
Defined.

Lemma variateMotif_total_witness :
  (rhythmTotal [(4, false); (3, true); (9, false)] - 1
     <= rhythmTotal (variateMotif [(4, false); (3, true); (9, false)])
     <= rhythmTotal [(4, false); (3, true); (9, false)])%Q.
Proof.
  apply variateMotif_total.
  intros e He. simpl in He.
  destruct He as [<- | [<- | [<- | []]]]; [exists 4 | exists 3 | exists 9]; reflexivity.
Defined.

Lemma generateGoodMotif_fills_bar_witness :
  generateGoodMotif demoRandom "LOW" (inject_Z (16 * 1)) 0%nat = Some demoMotif /\
  (rhythmTotal (fst demoMotif) == inject_Z (16 * 1))%Q /\
  Forall (fun e => snd e = false) (fst demoMotif).
Proof.
  split; [vm_compute; reflexivity |].
  apply (generateGoodMotif_fills_bar demoRandom "LOW" 1 0%nat (fst demoMotif) (snd demoMotif));
    [lia | vm_compute; reflexivity].
Defined.

Lemma generateMelodyMarkov_pitches_witness :
  generateMelodyMarkov demoRandom 0 "Major" demoChordNotes 0 8 "LOW" demoState 0%nat
    = Some demoMarkov /\
  (forall n, In n (fst demoMarkov) ->
     match mmidi n with
     | Some p => In p (getScaleNotesArr 0 "Major" 55 84)
     | None => True
     end).
Proof.
  split; [vm_compute; reflexivity |].
  exact (generateMelodyMarkov_pitches demoRandom 0 "Major" demoChordNotes 0 8 "LOW" demoState
           0%nat (fst demoMarkov) (snd demoMarkov) ltac:(vm_compute; reflexivity)).
Defined.

Lemma zrange_sorted (a : Z) (start n : nat) :
  StronglySorted Z.lt (map (fun k => a + Z.of_nat k) (seq start n)).
Proof.
  revert start. induction n as [| n IH]; intros start; simpl; constructor; [apply IH |].
  apply Forall_forall. intros y Hy. apply in_map_iff in Hy as [k [<- Hk]].
  apply in_seq in Hk. lia.
Qed.

Lemma filter_sorted (p : Z -> bool) (l : list Z) :
  StronglySorted Z.lt l -> StronglySorted Z.lt (filter p l).
Proof.
  induction l as [| x l IH]; intros H; simpl; [constructor |].
  inversion H as [| ? ? Hs Hf]; subst.
  destruct (p x); [constructor |]; [apply IH; exact Hs | | apply IH; exact Hs].
  rewrite Forall_forall in *. intros y Hy. apply filter_In in Hy as [Hy _]. exact (Hf y Hy).
Qed.

(** X24: for a scale name that is not an [Object.prototype] property name,
    [getScaleNotesArr] lists, in increasing order and without
    repetition, the notes [m] of [[minMidi, maxMidi]] with [0 <= m <= 126]
    whose offset [(m - root + 12) % 12] is in the scale's offsets (Major's for
    an unknown scale name); the cap at 126 comes from [getScaleNotes]. *)
Theorem getScaleNotesArr_members (root : Z) (scaleName : string) (minMidi maxMidi : Z) :
  isProtoKey scaleName = false ->
  StronglySorted Z.lt (getScaleNotesArr root scaleName minMidi maxMidi) /\
  (forall m, In m (getScaleNotesArr root scaleName minMidi maxMidi) <->
     minMidi <= m <= maxMidi /\ 0 <= m <= 126 /\
     zmem (Z.rem (m - root + 12) 12) (scaleOffsets scaleName) = true).
Proof.
  intros _. unfold getScaleNotesArr. split.
  - apply filter_sorted. apply zrange_sorted.
  - intros m. rewrite filter_In, In_zrange.
    change (zmem m (getScaleNotes root scaleName) = true)
      with (existsb (Z.eqb m) (getScaleNotes root scaleName) = true).
    rewrite existsb_eqb_In. split.
    + intros [Hr Hm].
      assert (Hb : 0 <= m <= 126).
      { unfold getScaleNotes in Hm. apply filter_In in Hm as [Hm _].
        apply In_zrange in Hm. lia. }
      split; [lia | split; [exact Hb |]].
      apply (getScaleNotes_spec_small root scaleName m Hb). exact Hm.
    + intros [Hr [Hb Hz]]. split; [lia |].
      apply (getScaleNotes_spec_small root scaleName m Hb). exact Hz.
Qed.

(* ------------------------------------------------------------------------- *)
(** ** Editing the song ([State]) *)

Lemma nth_error_list_update {A} (l : list A) (n : nat) (f : A -> A) (m : nat) :
  nth_error (list_update l n f) m =
  if Nat.eqb n m then option_map f (nth_error l m) else nth_error l m.
Proof.
  revert n m. induction l as [| x r IH]; intros n m.
  - destruct (Nat.eqb n m), m; reflexivity.
  - destruct n as [| n], m as [| m]; simpl; try rewrite IH; reflexivity.
Qed.

Lemma length_list_update {A} (l : list A) (n : nat) (f : A -> A) :
  List.length (list_update l n f) = List.length l.
Proof. revert n. induction l as [| x r IH]; intros [| n]; simpl; auto. Qed.

Lemma list_update_id {A} (l : list A) (n : nat) (f : A -> A) :
  (forall x, nth_error l n = Some x -> f x = x) -> list_update l n f = l.
Proof.
  revert n. induction l as [| x r IH]; intros [| n] H; simpl; auto.
  - rewrite (H x eq_refl). reflexivity.
  - f_equal. apply IH. exact H.
Qed.

Lemma list_update_compose {A} (l : list A) (n : nat) (f g : A -> A) :
  list_update (list_update l n f) n g = list_update l n (fun x => g (f x)).
Proof. revert n. induction l as [| x r IH]; intros [| n]; simpl; f_equal; auto. Qed.

Lemma js_nth_update_track_same (ts : list track) (i : Z) (f : list snote -> list snote) tr :
  js_nth ts i = Some tr -> js_nth (update_track ts i f) i = Some (mkTrack (f (t_notes tr))).
Proof.
  unfold js_nth, update_track. destruct (0 <=? i); [| discriminate].
  intros H. rewrite nth_error_list_update, Nat.eqb_refl, H. reflexivity.
Qed.

Lemma update_track_none (ts : list track) (i : Z) f :
  js_nth ts i = None -> update_track ts i f = ts.
Proof.
  unfold js_nth, update_track. destruct (0 <=? i); [| reflexivity].
  intros H. apply list_update_id. intros x Hx. congruence.
Qed.

Lemma update_track_compose (ts : list track) (i : Z) f g :
  update_track (update_track ts i f) i g = update_track ts i (fun ns => g (f ns)).
Proof.
  unfold update_track. destruct (0 <=? i); [| reflexivity].
  rewrite list_update_compose. reflexivity.
Qed.

Lemma update_track_id (ts : list track) (i : Z) f tr :
  js_nth ts i = Some tr -> f (t_notes tr) = t_notes tr -> update_track ts i f = ts.
Proof.
  unfold js_nth, update_track. destruct (0 <=? i); [| reflexivity].
  intros H Hf. apply list_update_id. intros x Hx. rewrite H in Hx. injection Hx as <-.
  rewrite Hf. destruct tr. reflexivity.
Qed.

Lemma notes_set_tracks_update (s : State) tr f :
  currentTrack s = Some tr ->
  notes (set_tracks s (update_track (s_tracks s) (s_activeTrackIndex s) f)) = f (t_notes tr).
Proof.
  unfold notes, currentTrack. simpl. intros H.
  rewrite (js_nth_update_track_same _ _ _ _ H). reflexivity.
Qed.

Lemma set_tracks_same (s : State) : set_tracks s (s_tracks s) = s.
Proof. destruct s. reflexivity. Qed.

Lemma remove_first_app {A} (p : A -> bool) (l : list A) (y : A) :
  (forall x, In x l -> p x = false) -> p y = true -> remove_first p (app l [y]) = l.
Proof.
  induction l as [| x r IH]; intros Hl Hy; simpl.
  - rewrite Hy. reflexivity.
  - rewrite (Hl x (or_introl eq_refl)). f_equal. apply IH; [| exact Hy].
    intros z Hz. apply Hl. right. exact Hz.
Qed.

Lemma find_app_last {A} (p : A -> bool) (l : list A) (y : A) :
  find p l = None -> p y = true -> find p (app l [y]) = Some y.
Proof.
  induction l as [| x r IH]; intros Hl Hy; simpl in *.
  - rewrite Hy. reflexivity.
  - destruct (p x); [discriminate | exact (IH Hl Hy)].
Qed.

Lemma covers_new (m : Z) (t d v : Q) : (0 < d)%Q -> covers m t (mkSNote m t d v) = true.
Proof.
  intros Hd. unfold covers, Qltb. simpl. rewrite Z.eqb_refl.
  replace (Qle_bool t t) with true by (symmetry; apply Qle_bool_iff; lra).
  replace (Qle_bool (t + d) t) with false; [reflexivity |].
  symmetry. apply not_true_iff_false. rewrite Qle_bool_iff. lra.
Qed.

(** X16: for a time and a duration that are integers of magnitude at most 2^50, [addNote] on a free place of the active track appends the new note; [findNoteAt] then finds it and [removeNote] restores the state. *)
Theorem addNote_then_find_remove (s : State) (tr : track) (m : Z) (t d v : Q) :
  smallIntQ t = true -> smallIntQ d = true ->
  currentTrack s = Some tr -> findNoteAt s m t = None -> (0 < d)%Q ->
  let s' := fst (addNote s m t d v) in
  let n := snd (addNote s m t d v) in
  n = mkSNote m t d v /\ notes s' = app (notes s) [n] /\
  findNoteAt s' m t = Some n /\ removeNote s' m t = s.
Proof.
  intros _ _ Htr Hf Hd s' n. unfold s', n, addNote. rewrite Hf. cbn [fst snd].
  assert (Hn : notes s = t_notes tr) by (unfold notes; rewrite Htr; reflexivity).
  assert (Hnotes : notes (set_tracks s (update_track (s_tracks s) (s_activeTrackIndex s)
                     (fun ns => app ns [mkSNote m t d v]))) = app (t_notes tr) [mkSNote m t d v])
    by exact (notes_set_tracks_update s tr _ Htr).
  split; [reflexivity |]. split; [rewrite Hnotes, Hn; reflexivity |]. split.
  - unfold findNoteAt in *. rewrite Hnotes. rewrite Hn in Hf.
    apply find_app_last; [exact Hf | apply covers_new; exact Hd].
  - unfold removeNote, set_tracks.
    cbn [s_tracks s_activeTrackIndex s_stepsPerBar s_totalBars s_barChords s_barStructure
         s_clipboard].
    rewrite update_track_compose, (update_track_id _ _ _ tr Htr).
    + destruct s. reflexivity.
    + apply remove_first_app; [| apply covers_new; exact Hd].
      unfold findNoteAt in Hf. rewrite Hn in Hf.
      intros x Hx. exact (find_none _ _ Hf x Hx).
Qed.

Lemma find_split {A} (p : A -> bool) (l : list A) (x : A) :
  find p l = Some x ->
  exists pre post, l = app pre (x :: post) /\ (forall y, In y pre -> p y = false) /\ p x = true /\
    forall f, update_first p f l = app pre (f x :: post).
Proof.
  induction l as [| y r IH]; simpl; [discriminate |].
  destruct (p y) eqn:Ey.
  - intros H. injection H as <-. exists [], r.
    split; [reflexivity |]. split; [intros z [] |]. split; [exact Ey |].
    intros f. reflexivity.
  - intros H. destruct (IH H) as [pre [post [E [Hpre [Hx Hu]]]]].
    exists (y :: pre), post. split; [rewrite E; reflexivity |]. split.
    + intros z [<- | Hz]; [exact Ey | exact (Hpre z Hz)].
    + split; [exact Hx |]. intros f. rewrite Hu. reflexivity.
Qed.

(** X17: When a note covers the place, [addNote] changes the duration and velocity of the first such note in place and returns it; no note is added. *)
Theorem addNote_edits_covering_note (s : State) (m : Z) (t d v : Q) (ex : snote) :
  findNoteAt s m t = Some ex ->
  let s' := fst (addNote s m t d v) in
  let n := snd (addNote s m t d v) in
  n = mkSNote (n_midi ex) (n_time ex) d v /\
  exists pre post, notes s = app pre (ex :: post) /\ notes s' = app pre (n :: post) /\
    forall y, In y pre -> covers m t y = false.
Proof.
  intros Hf s' n. unfold s', n, addNote. rewrite Hf. cbn [fst snd].
  split; [reflexivity |].
  assert (Htr : exists tr, currentTrack s = Some tr).
  { unfold findNoteAt, notes in Hf. destruct (currentTrack s) as [tr |]; [exists tr; reflexivity |].
    discriminate. }
  destruct Htr as [tr Htr].
  assert (Hn : notes s = t_notes tr) by (unfold notes; rewrite Htr; reflexivity).
  unfold findNoteAt in Hf. rewrite Hn in Hf.
  destruct (find_split _ _ _ Hf) as [pre [post [E [Hpre [Hx Hu]]]]].
  exists pre, post. rewrite Hn. split; [exact E |]. split; [| exact Hpre].
  rewrite (notes_set_tracks_update s tr _ Htr), Hu. reflexivity.
Qed.

(** X18: Without an active track [addNote] changes nothing and returns the note it built. *)
Theorem addNote_without_track (s : State) (m : Z) (t d v : Q) :
  currentTrack s = None ->
  fst (addNote s m t d v) = s /\ snd (addNote s m t d v) = mkSNote m t d v.
Proof.
  intros H. unfold addNote, findNoteAt, notes. rewrite H. cbn [find fst snd].
  split; [| reflexivity].
  rewrite (update_track_none _ _ _ H). apply set_tracks_same.
Qed.

Lemma filter_all_false {A} (q : A -> bool) (l : list A) :
  (forall x, In x l -> q x = false) -> filter q l = [].
Proof.
  induction l as [| y r IH]; intros H; simpl; [reflexivity |].
  rewrite (H y (or_introl eq_refl)). apply IH. intros x Hx. apply H. right. exact Hx.
Qed.

(** X19: [addNoteToTrack] on a missing track changes nothing; otherwise the track afterwards holds exactly one note with that pitch and time, the new one, only notes it held before besides, and the other tracks are unchanged. *)
Theorem addNoteToTrack_unique (s : State) (i m : Z) (t d v : Q) :
  (js_nth (s_tracks s) i = None -> addNoteToTrack s i m t d v = s) /\
  (forall tr, js_nth (s_tracks s) i = Some tr ->
     exists tr', js_nth (s_tracks (addNoteToTrack s i m t d v)) i = Some tr' /\
       filter (fun n => (n_midi n =? m) && Qeq_bool (n_time n) t) (t_notes tr')
         = [mkSNote m t d v] /\
       (forall n, In n (t_notes tr') -> n <> mkSNote m t d v -> In n (t_notes tr)) /\
       (forall j, j <> i -> js_nth (s_tracks (addNoteToTrack s i m t d v)) j = js_nth (s_tracks s) j)).
Proof.
  split.
  - intros H. unfold addNoteToTrack. rewrite H. reflexivity.
  - intros tr H. unfold addNoteToTrack. rewrite H. cbn [s_tracks set_tracks].
    eexists. split; [exact (js_nth_update_track_same _ _ _ _ H) |]. cbn [t_notes].
    split; [| split].
    + rewrite filter_app. cbn [filter n_midi n_time]. rewrite Z.eqb_refl.
      replace (Qeq_bool t t) with true by (symmetry; apply Qeq_bool_iff; reflexivity).
      cbn [andb]. rewrite filter_all_false; [reflexivity |].
      intros x Hx. apply filter_In in Hx as [_ Hx].
      destruct (n_midi x =? m), (Qeq_bool (n_time x) t); try reflexivity; discriminate.
    + intros n Hn Hne. apply in_app_or in Hn as [Hn | [<- | []]]; [| contradiction].
      apply filter_In in Hn. exact (proj1 Hn).
    + intros j Hj. unfold js_nth, update_track.
      destruct (0 <=? i) eqn:Ei; [| reflexivity].
      destruct (0 <=? j) eqn:Ej; [| reflexivity].
      rewrite nth_error_list_update.
      replace (Nat.eqb (Z.to_nat i) (Z.to_nat j)) with false; [reflexivity |].
      symmetry. apply Nat.eqb_neq. apply Z.leb_le in Ei, Ej. lia.
Qed.

Lemma splice_start_in (len start : Z) :
  0 <= start <= len -> splice_start len start = Z.to_nat start.
Proof.
  intros H. unfold splice_start.
  replace (start <? 0) with false by (symmetry; apply Z.ltb_ge; lia).
  rewrite Z.min_l by lia. reflexivity.
Qed.

Lemma splice_remove_insert {A} (l : list A) (k : Z) (x : A) :
  0 <= k <= Z.of_nat (List.length l) -> splice_remove (splice_insert l k x) k = l.
Proof.
  intros Hk. unfold splice_remove, splice_insert.
  rewrite (splice_start_in (Z.of_nat (List.length l)) k Hk).
  set (n := Z.to_nat k).
  assert (Hn : (n <= List.length l)%nat) by (unfold n; lia).
  rewrite length_app, length_cons, length_firstn, length_skipn.
  rewrite splice_start_in by lia. fold n.
  assert (Hf : List.length (firstn n l) = n) by (rewrite length_firstn; lia).
  rewrite firstn_app, Hf, Nat.sub_diag, firstn_O, app_nil_r, firstn_firstn, Nat.min_id.
  rewrite skipn_app, Hf. replace (S n - n)%nat with 1%nat by lia.
  rewrite skipn_all2 by lia. simpl. apply firstn_skipn.
Qed.

Lemma nth_splice_insert {A} (l : list A) (k : Z) (x : A) :
  0 <= k <= Z.of_nat (List.length l) -> js_nth (splice_insert l k x) k = Some x.
Proof.
  intros Hk. unfold js_nth, splice_insert.
  replace (0 <=? k) with true by (symmetry; apply Z.leb_le; lia).
  rewrite splice_start_in by exact Hk.
  rewrite nth_error_app2 by (rewrite length_firstn; lia).
  rewrite length_firstn. replace (Z.to_nat k - Nat.min (Z.to_nat k) (List.length l))%nat with O
    by lia. reflexivity.
Qed.

Lemma Qle_bool_true (x y : Q) : Qle_bool x y = true <-> (x <= y)%Q.
Proof. apply Qle_bool_iff. Qed.

Lemma Qle_bool_false' (x y : Q) : Qle_bool x y = false <-> (y < x)%Q.
Proof.
  split; intros H.
  - apply Qnot_le_lt. intros H'. apply Qle_bool_iff in H'. congruence.
  - apply not_true_iff_false. rewrite Qle_bool_iff. lra.
Qed.

(** X20: [insertBar] adds one bar, leaves the inserted bar (at the index clamped to [totalBars]) empty in every track and gives it chord 0 when the index lies within [barChords]. *)
Theorem insertBar_empty_bar (s : State) (atIndex : Z) (templateIndex : option Z) :
  (0 <= s_stepsPerBar s)%Q ->
  let a := if s_totalBars s <? atIndex then s_totalBars s else atIndex in
  let s' := insertBar s atIndex templateIndex in
  s_totalBars s' = s_totalBars s + 1 /\
  (forall tr n, In tr (s_tracks s') -> In n (t_notes tr) ->
     inBarQ (inject_Z a * s_stepsPerBar s) (s_stepsPerBar s) n = false) /\
  (0 <= a <= Z.of_nat (List.length (s_barChords s)) -> js_nth (s_barChords s') a = Some (Some 0)).
Proof.
  intros Hsteps a s'. unfold s', insertBar. fold a. cbn [s_totalBars s_tracks s_barChords].
  split; [reflexivity | split].
  - intros tr n Htr Hn. apply in_map_iff in Htr as [t0 [<- _]]. cbn [t_notes] in Hn.
    apply in_map_iff in Hn as [n0 [<- _]].
    unfold inBarQ, Qltb.
    destruct (Qle_bool (inject_Z a * s_stepsPerBar s) (n_time n0)) eqn:E.
    + unfold with_time. cbn [n_time]. apply Qle_bool_true in E.
      replace (Qle_bool (inject_Z a * s_stepsPerBar s + s_stepsPerBar s)
                        (n_time n0 + s_stepsPerBar s)) with true
        by (symmetry; apply Qle_bool_true; lra).
      apply andb_false_r.
    + rewrite E. reflexivity.
  - intros Ha. apply nth_splice_insert. exact Ha.
Qed.

Lemma sameNote_refl (n : snote) : sameNote n n.
Proof. unfold sameNote. split; [reflexivity | split; [reflexivity | split; reflexivity]]. Qed.

Lemma shift_unshift (start steps : Q) (ns : list snote) :
  (0 <= steps)%Q ->
  Forall2 sameNote
    (map (fun n => if Qle_bool (start + steps) (n_time n) then with_time n (n_time n - steps)%Q
                   else n)
       (filter (fun n => negb (inBarQ start steps n))
          (map (fun n => if Qle_bool start (n_time n) then with_time n (n_time n + steps)%Q
                         else n) ns))) ns.
Proof.
  intros Hs. induction ns as [| n ns IH]; [constructor |].
  cbn [map filter].
  destruct (Qle_bool start (n_time n)) eqn:E.
  - apply Qle_bool_true in E.
    assert (Hin : inBarQ start steps (with_time n (n_time n + steps)) = false).
    { unfold inBarQ, Qltb, with_time. cbn [n_time].
      replace (Qle_bool (start + steps) (n_time n + steps)) with true
        by (symmetry; apply Qle_bool_true; lra).
      apply andb_false_r. }
    rewrite Hin. cbn [negb map]. constructor; [| exact IH].
    unfold with_time at 1. cbn [n_time].
    replace (Qle_bool (start + steps) (n_time n + steps)) with true
      by (symmetry; apply Qle_bool_true; lra).
    unfold sameNote, with_time. cbn.
    split; [reflexivity | split; [ring | split; reflexivity]].
  - assert (Hin : inBarQ start steps n = false) by (unfold inBarQ; rewrite E; reflexivity).
    rewrite Hin. cbn [negb map]. constructor; [| exact IH].
    apply Qle_bool_false' in E.
    replace (Qle_bool (start + steps) (n_time n)) with false
      by (symmetry; apply Qle_bool_false'; lra).
    apply sameNote_refl.
Qed.

(** X21: when stepsPerBar, every note time and atIndex * stepsPerBar are integers of magnitude at most 2^50, deleting a bar just inserted at the same index (within the song and the bar arrays) gives the original state back, note times compared as numbers. *)
Theorem deleteBar_insertBar (s : State) (atIndex : Z) (templateIndex : option Z) :
  smallIntQ (s_stepsPerBar s) = true -> smallIntTimes s = true ->
  smallIntQ (inject_Z atIndex * s_stepsPerBar s) = true ->
  0 <= atIndex <= s_totalBars s -> 1 <= s_totalBars s -> (0 <= s_stepsPerBar s)%Q ->
  atIndex <= Z.of_nat (List.length (s_barChords s)) ->
  atIndex <= Z.of_nat (List.length (s_barStructure s)) ->
  sameState (deleteBar (insertBar s atIndex templateIndex) atIndex) s.
Proof.
  intros _ _ _ Ha Ht Hs Hc Hst. unfold insertBar.
  replace (s_totalBars s <? atIndex) with false by (symmetry; apply Z.ltb_ge; lia).
  unfold deleteBar. cbn [s_totalBars s_stepsPerBar s_tracks s_barChords s_barStructure
                         s_activeTrackIndex s_clipboard].
  replace (s_totalBars s + 1 <=? 1) with false by (symmetry; apply Z.leb_gt; lia).
  unfold sameState. cbn [s_totalBars s_stepsPerBar s_tracks s_barChords s_barStructure
                         s_activeTrackIndex s_clipboard].
  split; [| split; [reflexivity | split; [reflexivity | split; [lia | split]]]].
  - rewrite map_map. induction (s_tracks s) as [| tr ts IH]; [constructor |].
    cbn [map]. constructor; [| exact IH]. cbn [t_notes]. apply shift_unshift. exact Hs.
  - apply splice_remove_insert. lia.
  - split; [apply splice_remove_insert; lia | reflexivity].
Qed.

(** X22: [deleteBar] at an index past the ends of [barChords] and [barStructure] only decrements [totalBars]; the bar arrays are unchanged. *)
Theorem deleteBar_past_arrays (s : State) (atIndex : Z) :
  1 < s_totalBars s ->
  Z.of_nat (List.length (s_barChords s)) <= atIndex ->
  Z.of_nat (List.length (s_barStructure s)) <= atIndex ->
  let s' := deleteBar s atIndex in
  s_totalBars s' = s_totalBars s - 1 /\ s_barChords s' = s_barChords s /\
  s_barStructure s' = s_barStructure s.
Proof.
  intros Ht Hc Hs s'. unfold s', deleteBar.
  replace (s_totalBars s <=? 1) with false by (symmetry; apply Z.leb_gt; lia).
  cbn [s_totalBars s_barChords s_barStructure].
  assert (Hr : forall A (l : list A), Z.of_nat (List.length l) <= atIndex -> splice_remove l atIndex = l).
  { intros A l Hl. unfold splice_remove, splice_start.
    replace (atIndex <? 0) with false by (symmetry; apply Z.ltb_ge; lia).
    rewrite Z.min_r by lia. rewrite Nat2Z.id, firstn_all, skipn_all2 by lia. apply app_nil_r. }
  split; [reflexivity | split; apply Hr; assumption].
Qed.

Lemma js_get_set {A} (l : list (option A)) (i : Z) (v : option A) :
  0 <= i -> js_get (js_set l i v) i = v.
Proof.
  intros Hi. unfold js_get, js_set, js_nth.
  replace (i <? 0) with false by (symmetry; apply Z.ltb_ge; lia).
  replace (0 <=? i) with true by (symmetry; apply Z.leb_le; lia).
  destruct (Z.ltb_spec i (Z.of_nat (List.length l))) as [Hlt | Hge].
  - rewrite nth_error_app2 by (rewrite length_firstn; lia).
    rewrite length_firstn. replace (Z.to_nat i - Nat.min (Z.to_nat i) (List.length l))%nat with O
      by lia. reflexivity.
  - rewrite nth_error_app2 by lia. rewrite nth_error_app2 by (rewrite repeat_length; lia).
    rewrite repeat_length. replace (Z.to_nat i - List.length l - Z.to_nat (i - Z.of_nat (List.length l)))%nat
      with O by lia. reflexivity.
Qed.

Lemma filter_filter_sub {A} (p q : A -> bool) (l : list A) :
  (forall x, p x = true -> q x = true) -> filter p (filter q l) = filter p l.
Proof.
  intros H. induction l as [| x r IH]; [reflexivity |]. cbn [filter].
  destruct (p x) eqn:Ep.
  - rewrite (H x Ep). cbn [filter]. rewrite Ep, IH. reflexivity.
  - destruct (q x); cbn [filter]; [rewrite Ep |]; exact IH.
Qed.

Lemma filter_all_true {A} (p : A -> bool) (l : list A) :
  (forall x, In x l -> p x = true) -> filter p l = l.
Proof.
  induction l as [| x r IH]; intros H; [reflexivity |]. cbn [filter].
  rewrite (H x (or_introl eq_refl)), IH; [reflexivity |]. intros y Hy. apply H. right. exact Hy.
Qed.

Lemma bar_order (spb : Q) (a b : Z) :
  (0 < spb)%Q -> a < b -> (inject_Z a * spb + spb <= inject_Z b * spb)%Q.
Proof.
  intros Hs Hab.
  assert (H : (inject_Z (a + 1) <= inject_Z b)%Q) by (rewrite <- Zle_Qle; lia).
  rewrite inject_Z_plus in H.
  pose proof (Qmult_le_compat_r _ _ spb H ltac:(lra)) as H'.
  change (inject_Z 1) with 1%Q in H'. lra.
Qed.

(** X23: when stepsPerBar, every note time, and the start steps of the source and target bars are integers of magnitude at most 2^50, [copyBar] then [pasteBar] with the active track present: the target bar holds the source bar's notes moved by the bar distance, every other bar whose start step is such an integer keeps its notes, and for a target index of 0 or more the target bar gets the source bar's chord and structure entries. *)
Theorem copyBar_pasteBar (s s1 s2 : State) (tr : track) (src tgt : Z) :
  smallIntQ (s_stepsPerBar s) = true -> smallIntTimes s = true ->
  smallIntQ (inject_Z src * s_stepsPerBar s) = true ->
  smallIntQ (inject_Z tgt * s_stepsPerBar s) = true ->
  currentTrack s = Some tr -> (0 < s_stepsPerBar s)%Q ->
  copyBar s src = Some s1 -> pasteBar s1 tgt = Some s2 ->
  let spb := s_stepsPerBar s in
  getNotesInBar s2 tgt =
    map (fun n => with_time n (inject_Z tgt * spb + (n_time n - inject_Z src * spb)))%Q
        (getNotesInBar s src) /\
  (forall c, smallIntQ (inject_Z c * spb) = true -> c <> tgt ->
     getNotesInBar s2 c = getNotesInBar s c) /\
  (0 <= tgt -> js_get (s_barChords s2) tgt = js_get (s_barChords s) src /\
               js_get (s_barStructure s2) tgt = js_get (s_barStructure s) src).
Proof.
  intros _ _ _ _ Htr Hs H1 H2 spb.
  unfold copyBar in H1. rewrite Htr in H1. injection H1 as <-.
  unfold pasteBar in H2. cbn [s_clipboard set_clipboard] in H2.
  unfold currentTrack in H2. cbn [s_tracks s_activeTrackIndex set_clipboard] in H2.
  fold (currentTrack s) in H2. rewrite Htr in H2. injection H2 as <-.
  cbn [s_stepsPerBar s_tracks s_activeTrackIndex s_barChords s_barStructure cb_notes cb_chord
       cb_structure set_clipboard].
  fold spb.
  set (startS := (inject_Z src * spb)%Q). set (startT := (inject_Z tgt * spb)%Q).
  set (kept := filter (fun n => Qltb (n_time n) startT || Qle_bool (startT + spb) (n_time n))
                      (t_notes tr)).
  set (pasted := map (fun e => with_time (fst e) (startT + snd e)%Q)
                   (map (fun n => (n, (n_time n - startS)%Q))
                      (filter (inBarQ startS spb) (t_notes tr)))).
  assert (Hn2 : forall c, getNotesInBar
      (mkStateObj (update_track (s_tracks s) (s_activeTrackIndex s) (fun ns => app
         (filter (fun n => Qltb (n_time n) startT || Qle_bool (startT + spb) (n_time n)) ns)
         pasted)) (s_activeTrackIndex s) spb (s_totalBars s)
         (js_set (s_barChords s) tgt (js_get (s_barChords s) src))
         (js_set (s_barStructure s) tgt (js_get (s_barStructure s) src))
         (Some (mkClip (map (fun n => (n, (n_time n - startS)%Q))
                          (filter (inBarQ startS spb) (t_notes tr)))
                       (js_get (s_barChords s) src) (js_get (s_barStructure s) src)))) c
      = filter (inBarQ (inject_Z c * spb) spb) (app kept pasted)).
  { intros c. unfold getNotesInBar, notes, currentTrack. cbn [s_tracks s_activeTrackIndex s_stepsPerBar].
    rewrite (js_nth_update_track_same _ _ _ _ Htr). reflexivity. }
  assert (Hs0 : forall c, getNotesInBar s c = filter (inBarQ (inject_Z c * spb) spb) (t_notes tr)).
  { intros c. unfold getNotesInBar, notes. rewrite Htr. reflexivity. }
  assert (Hpasted : forall n, In n pasted ->
            (startT <= n_time n < startT + spb)%Q).
  { intros n Hn. unfold pasted in Hn. rewrite map_map in Hn.
    apply in_map_iff in Hn as [n0 [<- Hn0]]. apply filter_In in Hn0 as [_ Hin].
    unfold inBarQ, Qltb in Hin. apply andb_true_iff in Hin as [Ha Hb].
    apply Qle_bool_true in Ha. apply negb_true_iff, Qle_bool_false' in Hb.
    unfold with_time. cbn [n_time fst snd]. split; lra. }
  split; [| split].
  - rewrite Hn2, Hs0, filter_app.
    fold startT.
    rewrite (filter_all_false (inBarQ startT spb) kept).
    2:{ intros x Hx. unfold kept in Hx. apply filter_In in Hx as [_ Hx].
        unfold inBarQ, Qltb. apply orb_true_iff in Hx as [Hx | Hx].
        - apply negb_true_iff in Hx. fold startT. rewrite Hx. reflexivity.
        - rewrite Hx. apply andb_false_r. }
    rewrite filter_all_true.
    2:{ intros x Hx. destruct (Hpasted x Hx) as [Ha Hb]. unfold inBarQ, Qltb.
        apply andb_true_iff. split; [apply Qle_bool_true; exact Ha |].
        apply negb_true_iff, Qle_bool_false'. exact Hb. }
    unfold pasted. rewrite !map_map. reflexivity.
  - intros c _ Hc. rewrite Hn2, Hs0, filter_app.
    rewrite (filter_all_false _ pasted).
    2:{ intros x Hx. destruct (Hpasted x Hx) as [Ha Hb]. unfold inBarQ, Qltb.
        destruct (Z.lt_ge_cases c tgt) as [Hlt | Hge].
        - pose proof (bar_order spb c tgt Hs Hlt).
          replace (Qle_bool (inject_Z c * spb + spb) (n_time x)) with true
            by (symmetry; apply Qle_bool_true; unfold startT in Ha; lra).
          apply andb_false_r.
        - assert (Hgt : tgt < c) by lia. pose proof (bar_order spb tgt c Hs Hgt).
          replace (Qle_bool (inject_Z c * spb) (n_time x)) with false
            by (symmetry; apply Qle_bool_false'; unfold startT in Hb; lra).
          reflexivity. }
    rewrite app_nil_r. unfold kept. apply filter_filter_sub.
    intros x Hx. unfold inBarQ, Qltb in Hx. apply andb_true_iff in Hx as [Ha Hb].
    apply Qle_bool_true in Ha. apply negb_true_iff, Qle_bool_false' in Hb.
    destruct (Z.lt_ge_cases c tgt) as [Hlt | Hge].
    + pose proof (bar_order spb c tgt Hs Hlt). unfold Qltb.
      replace (Qle_bool startT (n_time x)) with false
        by (symmetry; apply Qle_bool_false'; unfold startT; lra).
      reflexivity.
    + assert (Hgt : tgt < c) by lia. pose proof (bar_order spb tgt c Hs Hgt).
      replace (Qle_bool (startT + spb) (n_time x)) with true
        by (symmetry; apply Qle_bool_true; unfold startT; lra).
      apply orb_true_r.
  - intros Ht. cbn [s_barChords s_barStructure].
    split; apply js_get_set; exact Ht.
Qed.

Lemma addNote_then_find_remove_witness :
  snd (addNote demoEditor 62 4 2 1) = mkSNote 62 4 2 1 /\
  notes (fst (addNote demoEditor 62 4 2 1)) = app (notes demoEditor) [mkSNote 62 4 2 1] /\
  findNoteAt (fst (addNote demoEditor 62 4 2 1)) 62 4 = Some (mkSNote 62 4 2 1) /\
  removeNote (fst (addNote demoEditor 62 4 2 1)) 62 4 = demoEditor.
Proof.
  destruct (addNote_then_find_remove demoEditor demoTrack 62 4 2 1 eq_refl eq_refl eq_refl
              ltac:(vm_compute; reflexivity) ltac:(vm_compute; reflexivity))
    as [Hn [Hs [Hf Hr]]].
  cbv zeta in *. rewrite <- Hn. split; [reflexivity |]. split; [exact Hs | split; assumption].
Defined.

Lemma addNote_edits_covering_note_witness :
  snd (addNote demoEditor 60 2 1 (1 # 2)) = mkSNote 60 0 1 (1 # 2) /\
  exists pre post, notes demoEditor = app pre (mkSNote 60 0 4 (8 # 10) :: post) /\
    notes (fst (addNote demoEditor 60 2 1 (1 # 2)))
      = app pre (snd (addNote demoEditor 60 2 1 (1 # 2)) :: post) /\
    forall y, In y pre -> covers 60 2 y = false.
Proof.
  exact (addNote_edits_covering_note demoEditor 60 2 1 (1 # 2) (mkSNote 60 0 4 (8 # 10))
           ltac:(vm_compute; reflexivity)).
Defined.

Lemma addNote_without_track_witness :
  fst (addNote (set_tracks demoEditor []) 60 0 1 1) = set_tracks demoEditor [] /\
  snd (addNote (set_tracks demoEditor []) 60 0 1 1) = mkSNote 60 0 1 1.
Proof.
  exact (addNote_without_track (set_tracks demoEditor []) 60 0 1 1 eq_refl).
Defined.

Lemma insertBar_empty_bar_witness :
  s_totalBars (insertBar demoEditor 9 (Some 2)) = 5 /\
  (forall tr n, In tr (s_tracks (insertBar demoEditor 9 (Some 2))) -> In n (t_notes tr) ->
     inBarQ (inject_Z 4 * 16) 16 n = false) /\
  js_nth (s_barChords (insertBar demoEditor 9 (Some 2))) 4 = Some (Some 0).
Proof.
  destruct (insertBar_empty_bar demoEditor 9 (Some 2) ltac:(vm_compute; discriminate))
    as [Ht [Hn Hc]].
  split; [exact Ht | split; [exact Hn |]].
  apply Hc. vm_compute. split; discriminate.
Defined.

Lemma deleteBar_insertBar_witness :
  sameState (deleteBar (insertBar demoEditor 1 None) 1) demoEditor.
Proof.
  apply (deleteBar_insertBar demoEditor 1 None);
    [reflexivity | reflexivity | reflexivity | vm_compute; split; discriminate | vm_compute; discriminate | vm_compute; discriminate
    | vm_compute; discriminate | vm_compute; discriminate].
Defined.

Lemma deleteBar_past_arrays_witness :
  s_totalBars (deleteBar (mkStateObj [demoTrack] 0 16 6 [Some 0] [Some "VERSE"] None) 3) = 5 /\
  s_barChords (deleteBar (mkStateObj [demoTrack] 0 16 6 [Some 0] [Some "VERSE"] None) 3) = [Some 0] /\
  s_barStructure (deleteBar (mkStateObj [demoTrack] 0 16 6 [Some 0] [Some "VERSE"] None) 3)
    = [Some "VERSE"].
Proof.
  exact (deleteBar_past_arrays (mkStateObj [demoTrack] 0 16 6 [Some 0] [Some "VERSE"] None) 3
           ltac:(vm_compute; reflexivity) ltac:(vm_compute; discriminate)
           ltac:(vm_compute; discriminate)).
Defined.

Lemma copyBar_pasteBar_witness :
  exists s1 s2, copyBar demoEditor 1 = Some s1 /\ pasteBar s1 3 = Some s2 /\
  getNotesInBar s2 3 =
    map (fun n => with_time n (inject_Z 3 * 16 + (n_time n - inject_Z 1 * 16)))%Q
        (getNotesInBar demoEditor 1) /\
  (forall c, smallIntQ (inject_Z c * 16) = true -> c <> 3 ->
     getNotesInBar s2 c = getNotesInBar demoEditor c) /\
  js_get (s_barChords s2) 3 = js_get (s_barChords demoEditor) 1 /\
  js_get (s_barStructure s2) 3 = js_get (s_barStructure demoEditor) 1.
Proof.
  eexists; eexists; split; [reflexivity |]; split; [reflexivity |].
  destruct (copyBar_pasteBar demoEditor _ _ demoTrack 1 3 eq_refl eq_refl eq_refl eq_refl eq_refl
              ltac:(vm_compute; reflexivity) eq_refl eq_refl) as [Ha [Hb Hc]].
  split; [exact Ha | split; [exact Hb | apply Hc; lia]].
Defined.

Lemma getScaleNotesArr_members_witness :
  StronglySorted Z.lt (getScaleNotesArr 0 "Major" 60 64) /\
  (forall m, In m (getScaleNotesArr 0 "Major" 60 64) <->
     60 <= m <= 64 /\ 0 <= m <= 126 /\
     zmem (Z.rem (m - 0 + 12) 12) (scaleOffsets "Major") = true).
Proof.
  exact (getScaleNotesArr_members 0 "Major" 60 64 eq_refl).
Defined.
